(** * CLEH leaderboard service: a shallow embedding and its properties

    The development follows the TypeScript sources:
    - [src/types/index.ts]                     the record types,
    - [src/services/RedisService.ts]           the ranked store (a Redis sorted set),
    - [src/controllers/ScoreController.ts]     the limit handling of [GET /scores/top],
    - [src/services/LeaderboardProcessingService.ts]  throttling, checksum, diff, enrichment,
    - [src/services/BatchSavingService.ts] and [DatabaseService.ts]  batching, retries, dead letters,
    - [src/services/WebSocketService.ts]       the fan-out to connected clients.

    Numbers are integers ([Z]): scores are validated as non-negative safe
    integers before they reach these services, and timestamps are
    millisecond counts.  Strings are byte strings (their UTF-8 encoding),
    which is also what Redis compares and what the hash consumes.
    Asynchronous calls are sequenced in program order; the servers the
    services talk to (Redis, Kafka, the database, the file system) are
    explicit state. *)

From Stdlib Require Import ZArith List Ascii String Bool Lia.
From stdpp Require Import base option list sorting gmap strings pretty.

Local Open Scope Z_scope.

(* stdpp's solvers clear hypotheses that are sometimes already gone *)
#[local] Set Warnings "-clear-no-such-hyp".

(** ** Types ([src/types/index.ts]) *)

Record ScoreSubmission := {
  sub_player_id : string;
  sub_score : Z;
  sub_timestamp : string;
}.

Record LeaderboardEntry := {
  player_id : string;
  rank : Z;
  score : Z;
}.

Record LeaderboardUpdate := {
  top10 : list LeaderboardEntry;
  timestamp : Z;
  checksum : string;
}.

Record User := {
  id : string;
  username : string;
}.

(** [EnhancedLeaderboardEntry extends LeaderboardEntry]: the three inherited
    fields and [username]. *)
Record EnhancedLeaderboardEntry := {
  e_player_id : string;
  e_rank : Z;
  e_score : Z;
  e_username : string;
}.

(** ** The Redis sorted set

    The commands the service issues, with the semantics of the Redis
    server: a sorted set keeps its members ordered by score and, for equal
    scores, by the bytes of the member; a member occurs once. *)
Module Redis.

Record scored := { value : string; score : Z }.

(** The order of the set: score first, then member. *)
Definition ltb (a b : scored) : bool :=
  (score a <? score b) || ((score a =? score b) && String.ltb (value a) (value b)).

Definition lt (a b : scored) : Prop := ltb a b = true.

(** A sorted set is the list of its elements, lowest first. *)
Definition zset := list scored.

Definition sorted (l : zset) : Prop := StronglySorted lt l.

Definition members (l : zset) : list string := value <$> l.

Fixpoint insert (x : scored) (l : zset) : zset :=
  match l with
  | [] => [x]
  | y :: t => if ltb x y then x :: y :: t else y :: insert x t
  end.

(** ZREM key member *)
Definition zrem (member : string) (l : zset) : zset :=
  List.filter (fun y => negb (String.eqb (value y) member)) l.

(** ZADD key score member: a member already present gets the new score
    and moves to its new position. *)
Definition zadd (s : Z) (member : string) (l : zset) : zset :=
  insert {| value := member; score := s |} (zrem member l).

(** ZCARD key *)
Definition zcard (l : zset) : Z := Z.of_nat (length l).

(** ZSCORE key member *)
Definition zscore (member : string) (l : zset) : option Z :=
  score <$> List.find (fun y => String.eqb (value y) member) l.

(** The slice of [l] between two ranks, both inclusive; a negative rank
    counts from the end of the list ([-1] is the last element). *)
Definition range_by_rank (start stop : Z) (l : list scored) : list scored :=
  let llen := Z.of_nat (length l) in
  let start := if start <? 0 then llen + start else start in
  let stop := if stop <? 0 then llen + stop else stop in
  let start := if start <? 0 then 0 else start in
  if (stop <? start) || (llen <=? start) then []
  else
    let stop := if llen <=? stop then llen - 1 else stop in
    take (Z.to_nat (stop - start + 1)) (drop (Z.to_nat start) l).

(** ZRANGE key start stop REV WITHSCORES: ranks are taken in the reversed
    order, highest score first. *)
Definition zrange_rev (start stop : Z) (l : zset) : list scored :=
  range_by_rank start stop (reverse l).

Fixpoint index_of (member : string) (l : list scored) : option Z :=
  match l with
  | [] => None
  | y :: t =>
      if String.eqb (value y) member then Some 0
      else Z.succ <$> index_of member t
  end.

(** ZREVRANK key member: the 0-based rank counted from the highest score,
    nil when the member is not in the set. *)
Definition zrevrank (member : string) (l : zset) : option Z :=
  index_of member (reverse l).

End Redis.

(** ** RedisService ([src/services/RedisService.ts])

    The state is what the service keeps in Redis under its four keys:
    [global:leaderboard], [leaderboard:cache], [leaderboard:last_update]
    and the [user:] prefix.  Values written with [JSON.stringify] or
    [toString] and read back with [JSON.parse] or [parseInt] are kept as
    the values themselves. *)
Module RedisService.

Record t := {
  leaderboard : Redis.zset;
  leaderboard_cache : option LeaderboardUpdate;
  last_update : option Z;
  user_cache : gmap string User;
}.

Definition empty : t :=
  {| leaderboard := []; leaderboard_cache := None; last_update := None;
     user_cache := ∅ |}.

Definition addScore (playerId : string) (s : Z) (r : t) : t :=
  {| leaderboard := Redis.zadd s playerId (leaderboard r);
     leaderboard_cache := leaderboard_cache r;
     last_update := last_update r;
     user_cache := user_cache r |}.

Definition getTopPlayers (count : Z) (r : t) : list LeaderboardEntry :=
  let results := Redis.zrange_rev 0 (count - 1) (leaderboard r) in
  imap (fun index result =>
          {| player_id := Redis.value result;
             rank := Z.of_nat index + 1;
             score := Redis.score result |}) results.

Definition getPlayerRank (playerId : string) (r : t) : option Z :=
  match Redis.zrevrank playerId (leaderboard r) with
  | Some rank => Some (rank + 1)
  | None => None
  end.

Definition getPlayerScore (playerId : string) (r : t) : option Z :=
  Redis.zscore playerId (leaderboard r).

Definition cacheLeaderboard (lu : LeaderboardUpdate) (r : t) : t :=
  {| leaderboard := leaderboard r;
     leaderboard_cache := Some lu;
     last_update := last_update r;
     user_cache := user_cache r |}.

Definition getCachedLeaderboard (r : t) : option LeaderboardUpdate :=
  leaderboard_cache r.

Definition setLastUpdateTimestamp (ts : Z) (r : t) : t :=
  {| leaderboard := leaderboard r;
     leaderboard_cache := leaderboard_cache r;
     last_update := Some ts;
     user_cache := user_cache r |}.

Definition getLastUpdateTimestamp (r : t) : option Z := last_update r.

Definition cacheUser (userId : string) (userDetails : User) (r : t) : t :=
  {| leaderboard := leaderboard r;
     leaderboard_cache := leaderboard_cache r;
     last_update := last_update r;
     user_cache := <[userId := userDetails]> (user_cache r) |}.

Definition getCachedUser (userId : string) (r : t) : option User :=
  user_cache r !! userId.

Definition getTotalPlayers (r : t) : Z := Redis.zcard (leaderboard r).

Definition removePlayer (playerId : string) (r : t) : t :=
  {| leaderboard := Redis.zrem playerId (leaderboard r);
     leaderboard_cache := leaderboard_cache r;
     last_update := last_update r;
     user_cache := user_cache r |}.

End RedisService.

(** ** ScoreController.getTopPlayers ([src/controllers/ScoreController.ts])

    [parseInt(req.query.limit)] is a number or [NaN]; [None] stands for
    [NaN].  [x || 10] replaces [NaN] and [0] by [10]. *)
Module ScoreController.

Definition limit_of (parsed : option Z) : Z :=
  Z.min (match parsed with
         | Some v => if v =? 0 then 10 else v
         | None => 10
         end) 100.

Definition getTopPlayers (parsed : option Z) (r : RedisService.t)
  : list LeaderboardEntry :=
  RedisService.getTopPlayers (limit_of parsed) r.

End ScoreController.

(** ** SHA-256 ([crypto.createHash('sha256')], FIPS 180-4)

    Words are 32-bit integers in [Z]; additions wrap around. *)
Module SHA256.

Definition mask32 : Z := 0xffffffff.
Definition add32 (x y : Z) : Z := Z.land (x + y) mask32.
Definition rotr (n x : Z) : Z :=
  Z.lor (Z.shiftr x n) (Z.land (Z.shiftl x (32 - n)) mask32).
Definition not32 (x : Z) : Z := Z.lxor x mask32.

Definition Ch (x y z : Z) : Z := Z.lxor (Z.land x y) (Z.land (not32 x) z).
Definition Maj (x y z : Z) : Z :=
  Z.lxor (Z.lxor (Z.land x y) (Z.land x z)) (Z.land y z).
Definition bsig0 (x : Z) : Z := Z.lxor (Z.lxor (rotr 2 x) (rotr 13 x)) (rotr 22 x).
Definition bsig1 (x : Z) : Z := Z.lxor (Z.lxor (rotr 6 x) (rotr 11 x)) (rotr 25 x).
Definition ssig0 (x : Z) : Z := Z.lxor (Z.lxor (rotr 7 x) (rotr 18 x)) (Z.shiftr x 3).
Definition ssig1 (x : Z) : Z := Z.lxor (Z.lxor (rotr 17 x) (rotr 19 x)) (Z.shiftr x 10).

(** The round constants: the first 32 bits of the fractional parts of the
    cube roots of the first 64 primes. *)
Definition K : list Z :=
  [ 1116352408; 1899447441; 3049323471; 3921009573
  ; 961987163; 1508970993; 2453635748; 2870763221
  ; 3624381080; 310598401; 607225278; 1426881987
  ; 1925078388; 2162078206; 2614888103; 3248222580
  ; 3835390401; 4022224774; 264347078; 604807628
  ; 770255983; 1249150122; 1555081692; 1996064986
  ; 2554220882; 2821834349; 2952996808; 3210313671
  ; 3336571891; 3584528711; 113926993; 338241895
  ; 666307205; 773529912; 1294757372; 1396182291
  ; 1695183700; 1986661051; 2177026350; 2456956037
  ; 2730485921; 2820302411; 3259730800; 3345764771
  ; 3516065817; 3600352804; 4094571909; 275423344
  ; 430227734; 506948616; 659060556; 883997877
  ; 958139571; 1322822218; 1537002063; 1747873779
  ; 1955562222; 2024104815; 2227730452; 2361852424
  ; 2428436474; 2756734187; 3204031479; 3329325298 ].

Definition state : Type := Z * Z * Z * Z * Z * Z * Z * Z.

(** The initial hash value: the fractional parts of the square roots of the
    first 8 primes. *)
Definition H0 : state :=
  (1779033703, 3144134277, 1013904242, 2773480762,
   1359893119, 2600822924, 528734635, 1541459225).

Definition bytes_of (s : string) : list Z :=
  List.map (fun a => Z.of_N (N_of_ascii a)) (list_ascii_of_string s).

Definition be_bytes (n : nat) (x : Z) : list Z :=
  List.map (fun i => Z.land (Z.shiftr x (8 * Z.of_nat i)) 255) (rev (seq 0 n)).

(** The message, a [1] bit, zeros up to 56 bytes modulo 64, and the bit
    length on 8 bytes. *)
Definition pad (msg : list Z) : list Z :=
  let len := length msg in
  let zeros := ((64 - (len + 9) mod 64) mod 64)%nat in
  msg ++ [0x80] ++ List.repeat 0 zeros ++ be_bytes 8 (8 * Z.of_nat len).

Fixpoint words (bs : list Z) : list Z :=
  match bs with
  | b0 :: b1 :: b2 :: b3 :: t =>
      Z.lor (Z.shiftl b0 24) (Z.lor (Z.shiftl b1 16) (Z.lor (Z.shiftl b2 8) b3))
      :: words t
  | _ => []
  end.

Fixpoint blocks (n : nat) (ws : list Z) : list (list Z) :=
  match n, ws with
  | S n', _ :: _ => take 16 ws :: blocks n' (drop 16 ws)
  | _, _ => []
  end.

Fixpoint schedule (n : nat) (w : list Z) : list Z :=
  match n with
  | O => w
  | S n' =>
      let back k := List.nth (length w - k) w 0 in
      schedule n'
        (w ++ [add32 (add32 (ssig1 (back 2%nat)) (back 7%nat))
                     (add32 (ssig0 (back 15%nat)) (back 16%nat))])
  end.

Definition round (st : state) (kw : Z * Z) : state :=
  let '(a, b, c, d, e, f, g, h) := st in
  let '(k, w) := kw in
  let t1 := add32 (add32 (add32 (add32 h (bsig1 e)) (Ch e f g)) k) w in
  let t2 := add32 (bsig0 a) (Maj a b c) in
  (add32 t1 t2, a, b, c, add32 d t1, e, f, g).

Definition compress (hs : state) (block : list Z) : state :=
  let '(a, b, c, d, e, f, g, h) :=
    List.fold_left round (List.combine K (schedule 48 block)) hs in
  let '(h0, h1, h2, h3, h4, h5, h6, h7) := hs in
  (add32 h0 a, add32 h1 b, add32 h2 c, add32 h3 d,
   add32 h4 e, add32 h5 f, add32 h6 g, add32 h7 h).

Definition digest (msg : list Z) : list Z :=
  let ws := words (pad msg) in
  let '(h0, h1, h2, h3, h4, h5, h6, h7) :=
    List.fold_left compress (blocks (length ws) ws) H0 in
  List.flat_map (be_bytes 4) [h0; h1; h2; h3; h4; h5; h6; h7].

Definition hex_digit (n : Z) : ascii :=
  List.nth (Z.to_nat n) (list_ascii_of_string "0123456789abcdef") "0"%char.

Definition hex (bs : list Z) : string :=
  string_of_list_ascii
    (List.flat_map (fun b => [hex_digit (Z.shiftr b 4); hex_digit (Z.land b 15)]) bs).

(** [createHash('sha256').update(data).digest('hex')] *)
Definition hexdigest (data : string) : string := hex (digest (bytes_of data)).

End SHA256.

(** ** JavaScript strings

    A string of the program is held as its UTF-8 bytes, the form in which
    it reaches Redis and the hash.  JavaScript counts a string in UTF-16
    code units: a character of one to three bytes is one unit, a character
    of four bytes is two units (a surrogate pair).  The UTF-8 form of half
    a pair is the replacement character U+FFFD. *)
Module JSString.

Definition replacement : string :=
  String (ascii_of_N 239) (String (ascii_of_N 191) (String (ascii_of_N 189) EmptyString)).

(** The bytes of the first [units] code units of [s]; [pending] is the
    number of continuation bytes still owed to the character being
    copied. *)
Fixpoint take_units (units pending : nat) (s : string) : string :=
  match s with
  | EmptyString => EmptyString
  | String c rest =>
      let b := N_of_ascii c in
      if ((128 <=? b) && (b <? 192))%N then
        match pending with
        | S p => String c (take_units units p rest)
        | O =>
            match units with
            | O => EmptyString
            | S u => String c (take_units u 0 rest)
            end
        end
      else
        match units with
        | O => EmptyString
        | S u =>
            if (b <? 128)%N then String c (take_units u 0 rest)
            else if (b <? 224)%N then String c (take_units u 1 rest)
            else if (b <? 240)%N then String c (take_units u 2 rest)
            else if (b <? 248)%N then
              match u with
              | S u' => String c (take_units u' 3 rest)
              | O => replacement
              end
            else String c (take_units u 0 rest)
        end
  end.

(** [s.substring(0, n)] *)
Definition substring (n : nat) (s : string) : string := take_units n 0 s.

End JSString.

(** ** DatabaseService ([src/services/DatabaseService.ts])

    The service is the boundary to the database and to the dead letter
    file.  What the outside does is part of the state: [faults] scripts the
    coming [saveBatch] calls ([true]: the call throws), [fs_writable] says
    whether the dead letter file can be written, [user_table] is the users
    table and [clock] the reading of [new Date().toISOString()].  The
    mock in the repository never fails and finds a user for every id: it
    is the instance with no faults and [mock_user_table]; [saved] records
    the batches a call has accepted. *)
Module DatabaseService.

Record DeadLetterEntry := {
  dl_timestamp : string;
  count : Z;
  submissions : list ScoreSubmission;
}.

Record t := {
  faults : list bool;
  fs_writable : bool;
  user_table : string -> option User;
  clock : string;
  saved : list (list ScoreSubmission);
  dead_letter_queue : option (list DeadLetterEntry);
}.

(** [Ok] when the awaited call returns, [Throw] when it rejects. *)
Inductive result := Ok | Throw.

Definition with_faults (fl : list bool) (db : t) : t :=
  {| faults := fl; fs_writable := fs_writable db; user_table := user_table db;
     clock := clock db; saved := saved db;
     dead_letter_queue := dead_letter_queue db |}.

Definition with_saved (sv : list (list ScoreSubmission)) (db : t) : t :=
  {| faults := faults db; fs_writable := fs_writable db; user_table := user_table db;
     clock := clock db; saved := sv;
     dead_letter_queue := dead_letter_queue db |}.

Definition with_dead_letter_queue (q : list DeadLetterEntry) (db : t) : t :=
  {| faults := faults db; fs_writable := fs_writable db; user_table := user_table db;
     clock := clock db; saved := saved db;
     dead_letter_queue := Some q |}.

Definition saveBatch (subs : list ScoreSubmission) (db : t) : result * t :=
  match faults db with
  | true :: rest => (Throw, with_faults rest db)
  | false :: rest => (Ok, with_saved (saved db ++ [subs]) (with_faults rest db))
  | [] => (Ok, with_saved (saved db ++ [subs]) db)
  end.

(** The queue read from the dead letter file, empty when there is no file. *)
Definition read_queue (db : t) : list DeadLetterEntry :=
  match dead_letter_queue db with
  | Some content => content
  | None => []
  end.

Definition saveToDeadLetterQueue (subs : list ScoreSubmission) (db : t) : result * t :=
  let entry := {| dl_timestamp := clock db;
                  count := Z.of_nat (length subs);
                  submissions := subs |} in
  let queue := read_queue db in
  let queue := queue ++ [entry] in
  if fs_writable db then (Ok, with_dead_letter_queue queue db)
  else (Throw, db).

Definition getUser (userId : string) (db : t) : option User := user_table db userId.

(** The users table of the mock: every id has a user. *)
Definition mock_user_table (userId : string) : option User :=
  Some {| id := userId; username := "user_" +:+ JSString.substring 8 userId |}.

End DatabaseService.

(** ** KafkaService.publishLeaderboardUpdate ([src/services/KafkaService.ts]) *)
Module KafkaService.

Record RankChange := {
  c_player_id : string;
  oldRank : option Z;
  newRank : Z;
}.

(** The message on the [leaderboard_updates] topic. *)
Record LeaderboardData := {
  leaderboard : list EnhancedLeaderboardEntry;
  m_timestamp : Z;
  m_checksum : string;
  changedRankings : list RankChange;
}.

Record t := {
  producer : bool;
  leaderboard_updates : list LeaderboardData;
}.

(** [None]: 'Producer not initialized' is thrown. *)
Definition publishLeaderboardUpdate (leaderboardData : LeaderboardData) (k : t)
  : option t :=
  if producer k then
    Some {| producer := true;
            leaderboard_updates := leaderboard_updates k ++ [leaderboardData] |}
  else None.

End KafkaService.

(** ** LeaderboardProcessingService
    ([src/services/LeaderboardProcessingService.ts]) *)
Module LeaderboardProcessingService.

Import KafkaService.

(** The servers the service talks to. *)
Record World := {
  redis : RedisService.t;
  kafka : KafkaService.t;
  db : DatabaseService.t;
}.

(** The string the hash is computed over: [player_id:score] joined by [|]. *)
Definition checksum_data (leaderboard : list LeaderboardEntry) : string :=
  String.concat "|"
    (List.map (fun entry => player_id entry +:+ ":" +:+ pretty (score entry))
       leaderboard).

Definition generateChecksum (leaderboard : list LeaderboardEntry) : string :=
  SHA256.hexdigest (checksum_data leaderboard).

(** [user?.username || 'Unknown'] *)
Definition username_or_unknown (user : option User) : string :=
  match user with
  | Some u => if String.eqb (username u) "" then "Unknown" else username u
  | None => "Unknown"
  end.

(** One turn of the loop of [enhanceLeaderboardWithUserDetails]. *)
Definition enhance_entry (d : DatabaseService.t)
    (acc : list EnhancedLeaderboardEntry * RedisService.t) (entry : LeaderboardEntry)
  : list EnhancedLeaderboardEntry * RedisService.t :=
  let '(enhanced, r) := acc in
  let '(user, r) :=
    match RedisService.getCachedUser (player_id entry) r with
    | Some u => (Some u, r)
    | None =>
        match DatabaseService.getUser (player_id entry) d with
        | Some u => (Some u, RedisService.cacheUser (player_id entry) u r)
        | None => (None, r)
        end
    end in
  (enhanced ++ [ {| e_player_id := player_id entry;
                    e_rank := rank entry;
                    e_score := score entry;
                    e_username := username_or_unknown user |} ], r).

Definition enhanceLeaderboardWithUserDetails (d : DatabaseService.t)
    (leaderboard : list LeaderboardEntry) (r : RedisService.t)
  : list EnhancedLeaderboardEntry * RedisService.t :=
  List.fold_left (enhance_entry d) leaderboard ([], r).

(** [oldLeaderboard.forEach(entry => oldRankMap.set(entry.player_id, entry.rank))] *)
Definition oldRankMap (oldLeaderboard : list LeaderboardEntry) : gmap string Z :=
  List.fold_left (fun m entry => <[player_id entry := rank entry]> m)
    oldLeaderboard ∅.

(** [x || null] on a rank: [undefined] and [0] become [null]. *)
Definition or_null (x : option Z) : option Z :=
  match x with
  | Some v => if v =? 0 then None else Some v
  | None => None
  end.

Definition findChangedRankings (oldLeaderboard newLeaderboard : list LeaderboardEntry)
  : list RankChange :=
  let m := oldRankMap oldLeaderboard in
  List.fold_left
    (fun changes newEntry =>
       let old := or_null (m !! player_id newEntry) in
       if decide (old ≠ Some (rank newEntry)) then
         changes ++ [ {| c_player_id := player_id newEntry;
                         oldRank := old;
                         newRank := rank newEntry |} ]
       else changes)
    newLeaderboard [].

(** The change event taken from the [leaderboard_changes] topic;
    [None] is a missing [timestamp]. *)
Record ChangeMessage := { msg_timestamp : option Z }.

(** How a call ends: it returns early at the throttle check or at the
    checksum check, it publishes, or [publishLeaderboardUpdate] throws. *)
Inductive Outcome :=
| Throttled
| NoChange
| Published (update : LeaderboardData)
| PublishFailed.

(** [message.timestamp || Date.now()] *)
Definition current_time (message : ChangeMessage) (now : Z) : Z :=
  match msg_timestamp message with
  | Some ts => if ts =? 0 then now else ts
  | None => now
  end.

Definition processLeaderboardChange (throttleDuration : Z)
    (message : ChangeMessage) (now : Z) (w : World) : World * Outcome :=
  let currentTime := current_time message now in
  let lastUpdateTime := RedisService.getLastUpdateTimestamp (redis w) in
  if match lastUpdateTime with
     | Some last => currentTime - last <? throttleDuration
     | None => false
     end
  then (w, Throttled)
  else
    let top := RedisService.getTopPlayers 10 (redis w) in
    let sum := generateChecksum top in
    let cachedLeaderboard := RedisService.getCachedLeaderboard (redis w) in
    if match cachedLeaderboard with
       | Some cached => String.eqb (checksum cached) sum
       | None => false
       end
    then (w, NoChange)
    else
      let '(enhancedLeaderboard, r) :=
        enhanceLeaderboardWithUserDetails (db w) top (redis w) in
      let leaderboardUpdate :=
        {| top10 := top; timestamp := currentTime; checksum := sum |} in
      let r := RedisService.cacheLeaderboard leaderboardUpdate r in
      let r := RedisService.setLastUpdateTimestamp currentTime r in
      let changed :=
        findChangedRankings
          (match cachedLeaderboard with Some cached => top10 cached | None => [] end)
          top in
      let update :=
        {| leaderboard := enhancedLeaderboard;
           m_timestamp := currentTime;
           m_checksum := sum;
           changedRankings := changed |} in
      match publishLeaderboardUpdate update (kafka w) with
      | Some k => ({| redis := r; kafka := k; db := db w |}, Published update)
      | None => ({| redis := r; kafka := kafka w; db := db w |}, PublishFailed)
      end.

End LeaderboardProcessingService.

(** ** BatchSavingService ([src/services/BatchSavingService.ts]) *)
Module BatchSavingService.

Import DatabaseService.

Definition maxRetries : Z := 3.
Definition retryDelay : Z := 1000.

Record t := {
  batch : list ScoreSubmission;
  batchSize : Z;
  saveInProgress : bool;
}.

(** The database service, the delays slept and the batches reported on
    the console as 'CRITICAL: Lost batch data'. *)
Record Env := {
  dbService : DatabaseService.t;
  slept : list Z;
  lost : list (list ScoreSubmission);
}.

Definition with_db (d : DatabaseService.t) (e : Env) : Env :=
  {| dbService := d; slept := slept e; lost := lost e |}.

Definition sleep (ms : Z) (e : Env) : Env :=
  {| dbService := dbService e; slept := slept e ++ [ms]; lost := lost e |}.

Definition saveToDeadLetterQueue (b : list ScoreSubmission) (e : Env) : Env :=
  match DatabaseService.saveToDeadLetterQueue b (dbService e) with
  | (Ok, d) => with_db d e
  | (Throw, d) => {| dbService := d; slept := slept e; lost := lost e ++ [b] |}
  end.

(** The [while (attempt < this.maxRetries && !success)] loop.  A turn
    either succeeds, which ends the loop, or raises [attempt]; [fuel]
    bounds the number of turns and [None] is a loop cut short by it. *)
Fixpoint save_loop (fuel : nat) (attempt : Z) (batchToSave : list ScoreSubmission)
    (e : Env) : option Env :=
  match fuel with
  | O => None
  | S fuel' =>
      if attempt <? maxRetries then
        match saveBatch batchToSave (dbService e) with
        | (Ok, d) => Some (with_db d e)
        | (Throw, d) =>
            let e := with_db d e in
            let attempt := attempt + 1 in
            if attempt <? maxRetries then
              let delay := retryDelay * 2 ^ (attempt - 1) in
              save_loop fuel' attempt batchToSave (sleep delay e)
            else
              save_loop fuel' attempt batchToSave (saveToDeadLetterQueue batchToSave e)
        end
      else Some e
  end.

Definition flushBatch (s : t) (e : Env) : option (t * Env) :=
  if (length (batch s) =? 0)%nat || saveInProgress s then Some (s, e)
  else
    let batchToSave := batch s in
    match save_loop (S (Z.to_nat maxRetries)) 0 batchToSave e with
    | Some e' =>
        Some ({| batch := []; batchSize := batchSize s; saveInProgress := false |}, e')
    | None => None
    end.

Definition addToBatch (submission : ScoreSubmission) (s : t) (e : Env)
  : option (t * Env) :=
  let s := {| batch := batch s ++ [submission]; batchSize := batchSize s;
              saveInProgress := saveInProgress s |} in
  if batchSize s <=? Z.of_nat (length (batch s)) then flushBatch s e
  else Some (s, e).

Definition forceFlush (s : t) (e : Env) : option (t * Env) :=
  if (0 <? length (batch s))%nat then flushBatch s e else Some (s, e).

End BatchSavingService.

(** ** WebSocketService ([src/services/WebSocketService.ts])

    A client is a connection: [cid] is its identity, [readyState] the state
    of the socket and [send_throws] whether [client.send] raises.  The set
    [clients] is the list of its members in insertion order.  [forEach]
    visits every member present when it starts, and the callback deletes
    no member but the one it is visiting. *)
Module WebSocketService.

Inductive ReadyState := CONNECTING | OPEN | CLOSING | CLOSED.

Record WebSocket := {
  cid : nat;
  readyState : ReadyState;
  send_throws : bool;
}.

Definition is_open (c : WebSocket) : bool :=
  match readyState c with OPEN => true | _ => false end.

(** [this.clients.delete(client)] *)
Definition delete (c : WebSocket) (clients : list WebSocket) : list WebSocket :=
  List.filter (fun c' => negb (cid c' =? cid c)%nat) clients.

Record BroadcastResult := {
  clients_after : list WebSocket;
  successCount : Z;
  failCount : Z;
  sent_to : list nat;
}.

Definition broadcast_step (acc : BroadcastResult) (client : WebSocket)
  : BroadcastResult :=
  if is_open client then
    if send_throws client then
      {| clients_after := clients_after acc;
         successCount := successCount acc;
         failCount := failCount acc + 1;
         sent_to := sent_to acc |}
    else
      {| clients_after := clients_after acc;
         successCount := successCount acc + 1;
         failCount := failCount acc;
         sent_to := sent_to acc ++ [cid client] |}
  else
    {| clients_after := delete client (clients_after acc);
       successCount := successCount acc;
       failCount := failCount acc + 1;
       sent_to := sent_to acc |}.

(** [broadcast] returns nothing; the two counts are what it writes to the
    log when the loop is over. *)
Definition broadcast (clients : list WebSocket) : BroadcastResult :=
  List.fold_left broadcast_step clients
    {| clients_after := clients; successCount := 0; failCount := 0; sent_to := [] |}.

(** [sendHeartbeat]: the clients left in the set and the clients whose
    [send] was called. *)
Definition heartbeat_step (acc : list WebSocket * list nat) (client : WebSocket)
  : list WebSocket * list nat :=
  let '(clients, attempted) := acc in
  if is_open client then
    if send_throws client then (delete client clients, attempted ++ [cid client])
    else (clients, attempted ++ [cid client])
  else (delete client clients, attempted).

Definition sendHeartbeat (clients : list WebSocket) : list WebSocket * list nat :=
  List.fold_left heartbeat_step clients (clients, []).

End WebSocketService.

(** ** Histories of the ranked store

    The operations a client can apply to the store, and the store reached
    by a sequence of them (oldest first). *)
Module RankingStore.

Inductive Op :=
| Upsert (participant : string) (s : Z)
| Remove (participant : string).

#[global] Instance Op_eq_dec : EqDecision Op.
Proof. solve_decision. Defined.

Definition apply (r : RedisService.t) (o : Op) : RedisService.t :=
  match o with
  | Upsert p s => RedisService.addScore p s r
  | Remove p => RedisService.removePlayer p r
  end.

Definition run (ops : list Op) (r : RedisService.t) : RedisService.t :=
  List.fold_left apply ops r.

(** A store with a given number of players, [p0], [p1], ... *)
Definition populated (n : nat) : RedisService.t :=
  run (List.map (fun i => Upsert ("p" +:+ pretty i) (Z.of_nat i)) (seq 0 n))
    RedisService.empty.

End RankingStore.

(** ** Snapshots

    Notions the properties of the snapshots are stated with. *)
Module Snapshot.

(** The rank of a participant in a snapshot, none when it is not listed. *)
Definition rank_in (snapshot : list LeaderboardEntry) (p : string) : option Z :=
  rank <$> List.find (fun e => String.eqb (player_id e) p) snapshot.

(** The ordered (participant_id, score) pairs of a snapshot. *)
Definition content (snapshot : list LeaderboardEntry) : list (string * Z) :=
  (fun e => (player_id e, score e)) <$> snapshot.

(** The entry with another score. *)
Definition with_score (s : Z) (e : LeaderboardEntry) : LeaderboardEntry :=
  {| player_id := player_id e; rank := rank e; score := s |}.

(** A snapshot as the store produces it: no participant twice, no rank 0. *)
Definition well_formed (snapshot : list LeaderboardEntry) : Prop :=
  NoDup (player_id <$> snapshot) ∧ ∀ e, e ∈ snapshot → rank e ≠ 0.

(** An enhanced entry without its [username]. *)
Definition plain (x : EnhancedLeaderboardEntry) : LeaderboardEntry :=
  {| player_id := e_player_id x; rank := e_rank x; score := e_score x |}.

End Snapshot.

(** ** KafkaService: the two other topics ([src/services/KafkaService.ts])

    [score_submissions] holds the messages with their key, the player id;
    [leaderboard_changes] holds messages without a key.  [now] is the
    reading of [Date.now()] in the publisher. *)
Module KafkaTopics.

Inductive MessageType := SCORE_SUBMISSION | LEADERBOARD_CHANGE.

(** [KafkaMessage] of [src/types/index.ts], with the type of its [data]. *)
Record KafkaMessage (A : Type) := {
  type : MessageType;
  data : A;
  sent_at : Z;
}.
Arguments type {A} _.
Arguments data {A} _.
Arguments sent_at {A} _.

(** The [data] of a leaderboard change, built by the controller. *)
Record ChangeData := {
  change_player_id : string;
  change_score : Z;
  change_timestamp : Z;
}.

Record t := {
  service : KafkaService.t;
  score_submissions : list (string * KafkaMessage ScoreSubmission);
  leaderboard_changes : list (KafkaMessage ChangeData);
}.

(** [None]: 'Producer not initialized' is thrown. *)
Definition publishScoreSubmission (d : ScoreSubmission) (now : Z) (k : t) : option t :=
  if KafkaService.producer (service k) then
    let message := {| type := SCORE_SUBMISSION; data := d; sent_at := now |} in
    Some {| service := service k;
            score_submissions := score_submissions k ++ [(sub_player_id d, message)];
            leaderboard_changes := leaderboard_changes k |}
  else None.

Definition publishLeaderboardChange (d : ChangeData) (now : Z) (k : t) : option t :=
  if KafkaService.producer (service k) then
    let message := {| type := LEADERBOARD_CHANGE; data := d; sent_at := now |} in
    Some {| service := service k;
            score_submissions := score_submissions k;
            leaderboard_changes := leaderboard_changes k ++ [message] |}
  else None.

(** What [subscribeToLeaderboardChanges] hands to its handler: the whole
    message, of which [processLeaderboardChange] reads the [timestamp]. *)
Definition change_message (m : KafkaMessage ChangeData)
  : LeaderboardProcessingService.ChangeMessage :=
  {| LeaderboardProcessingService.msg_timestamp := Some (sent_at m) |}.

End KafkaTopics.

(** ** ScoreController: the other handlers
    ([src/controllers/ScoreController.ts])

    [validate] is the Joi schema applied to the request body: the error
    details, or the validated submission.  The three [now] are the
    readings of [Date.now()] in program order. *)
Module ScoreHandlers.

Inductive Response :=
| Accepted (player_id : string) (accepted_score : Z)
| ValidationFailed (details : list string)
| PlayerNotFound (playerId : string)
| PlayerStats (player_id : string) (player_rank player_score : Z)
| InternalServerError.

(** The HTTP status of a response. *)
Definition status (res : Response) : Z :=
  match res with
  | Accepted _ _ => 202
  | ValidationFailed _ => 400
  | PlayerNotFound _ => 404
  | PlayerStats _ _ _ => 200
  | InternalServerError => 500
  end.

Record World := {
  redis : RedisService.t;
  kafka : KafkaTopics.t;
}.

Definition submitScore {Body : Type} (validate : Body -> list string + ScoreSubmission)
    (body : Body) (now1 now2 now3 : Z) (w : World) : Response * World :=
  match validate body with
  | inl details => (ValidationFailed details, w)
  | inr submission =>
      let r := RedisService.addScore (sub_player_id submission) (sub_score submission)
                 (redis w) in
      match KafkaTopics.publishScoreSubmission submission now1 (kafka w) with
      | None => (InternalServerError, {| redis := r; kafka := kafka w |})
      | Some k =>
          let change :=
            {| KafkaTopics.change_player_id := sub_player_id submission;
               KafkaTopics.change_score := sub_score submission;
               KafkaTopics.change_timestamp := now2 |} in
          match KafkaTopics.publishLeaderboardChange change now3 k with
          | None => (InternalServerError, {| redis := r; kafka := k |})
          | Some k' =>
              (Accepted (sub_player_id submission) (sub_score submission),
               {| redis := r; kafka := k' |})
          end
      end
  end.

Definition getPlayerStats (playerId : string) (r : RedisService.t) : Response :=
  match RedisService.getPlayerRank playerId r, RedisService.getPlayerScore playerId r with
  | Some rank, Some score => PlayerStats playerId rank score
  | _, _ => PlayerNotFound playerId
  end.

(** The [data] of [GET /scores/stats]; [x || null] turns [0] and the empty
    string into [null]. *)
Record LeaderboardStats := {
  total_players : Z;
  last_update : option Z;
  stats_checksum : option string;
}.

Definition getLeaderboardStats (r : RedisService.t) : LeaderboardStats :=
  let totalPlayers := RedisService.getTotalPlayers r in
  let cachedLeaderboard := RedisService.getCachedLeaderboard r in
  {| total_players := totalPlayers;
     last_update :=
       match cachedLeaderboard with
       | Some cached => if timestamp cached =? 0 then None else Some (timestamp cached)
       | None => None
       end;
     stats_checksum :=
       match cachedLeaderboard with
       | Some cached =>
           if String.eqb (checksum cached) "" then None else Some (checksum cached)
       | None => None
       end |}.

End ScoreHandlers.

(** ** LeaderboardProcessingService.precacheUsers and [DatabaseService.getUsers]

    A JavaScript [Map] is the list of its entries in insertion order;
    [set] on a key that is present replaces the value in place. *)
Module LeaderboardQueries.

Definition map_set (k : string) (v : User) (m : list (string * User))
  : list (string * User) :=
  if existsb (fun kv => String.eqb (fst kv) k) m then
    List.map (fun kv => if String.eqb (fst kv) k then (k, v) else kv) m
  else m ++ [(k, v)].

(** [getUsers]: the mock sets, for each id in turn, the user it makes up
    for that id. *)
Definition getUsers (userIds : list string) (d : DatabaseService.t)
  : list (string * User) :=
  List.fold_left
    (fun users userId =>
       map_set userId
         {| id := userId; username := "user_" +:+ JSString.substring 8 userId |}
         users) userIds [].

(** [for (const [userId, user] of users) cacheUser(userId, user)] *)
Definition precacheUsers (userIds : list string) (d : DatabaseService.t)
    (r : RedisService.t) : RedisService.t :=
  List.fold_left (fun r kv => RedisService.cacheUser (fst kv) (snd kv) r)
    (getUsers userIds d) r.

End LeaderboardQueries.

(** ** BatchSavingService: a sequence of submissions *)
Module BatchRuns.

(** [addToBatch] called for each submission in turn, as the consumer of
    the [score_submissions] topic does. *)
Definition addAll (subs : list ScoreSubmission) (s : BatchSavingService.t)
    (e : BatchSavingService.Env)
  : option (BatchSavingService.t * BatchSavingService.Env) :=
  List.fold_left
    (fun acc sub =>
       match acc with
       | Some (s, e) => BatchSavingService.addToBatch sub s e
       | None => None
       end) subs (Some (s, e)).

(** Every submission the service and its sinks hold: saved, in a dead
    letter record, reported as lost, or waiting in the batch. *)
Definition held (s : BatchSavingService.t) (e : BatchSavingService.Env)
  : list ScoreSubmission :=
  concat (DatabaseService.saved (BatchSavingService.dbService e))
  ++ concat (DatabaseService.submissions
               <$> DatabaseService.read_queue (BatchSavingService.dbService e))
  ++ concat (BatchSavingService.lost e)
  ++ BatchSavingService.batch s.

End BatchRuns.

(** ** WebSocketService: the registry and [close] *)
Module WebSocketRegistry.

Import WebSocketService.

(** [this.clients.add(ws)]: a connection is in the set once. *)
Definition add (ws : WebSocket) (clients : list WebSocket) : list WebSocket :=
  if existsb (fun c => (cid c =? cid ws)%nat) clients then clients
  else clients ++ [ws].

Definition getClientCount (clients : list WebSocket) : Z :=
  Z.of_nat (length clients).

(** [close]: each client is sent the shutdown message and closed, unless
    its [send] raises, which skips its [close]; then the set is cleared.
    The result is the set and the clients that were closed. *)
Definition close (clients : list WebSocket) : list WebSocket * list nat :=
  ([], List.fold_left
         (fun closed client =>
            if send_throws client then closed else closed ++ [cid client])
         clients []).

(** A client that can be delivered to: open, with a [send] that works. *)
Definition healthy (c : WebSocket) : bool := is_open c && negb (send_throws c).

End WebSocketRegistry.

(** * Properties *)

(** ** The order of strings *)
Section StringOrder.

Lemma string_compare_refl (s : string) : String.compare s s = Eq.
Proof.
  induction s as [|a s IH]; simpl; [done|].
  unfold Ascii.compare. rewrite N.compare_refl. exact IH.
Qed.

Lemma string_ltb_irrefl (s : string) : String.ltb s s = false.
Proof. unfold String.ltb. by rewrite string_compare_refl. Qed.

Lemma string_ltb_leb (a b : string) : String.ltb a b = true → String.leb a b = true.
Proof. unfold String.ltb, String.leb. by destruct (String.compare a b). Qed.

Lemma string_ltb_asym (a b : string) :
  String.ltb a b = true → String.ltb b a = false.
Proof.
  unfold String.ltb. rewrite (String.compare_antisym b a).
  destruct (String.compare a b); simpl; congruence.
Qed.

Lemma string_ltb_total (a b : string) :
  String.ltb a b = false → a ≠ b → String.ltb b a = true.
Proof.
  unfold String.ltb. intros H Hne. rewrite (String.compare_antisym a b) in H.
  destruct (String.compare b a) eqn:E; simpl in H; try done.
  apply String.compare_eq_iff in E. congruence.
Qed.

Lemma string_ltb_trans (a b c : string) :
  String.ltb a b = true → String.ltb b c = true → String.ltb a c = true.
Proof.
  intros Hab Hbc.
  assert (String.le a c) as Hac.
  { transitivity b; unfold String.le; apply Is_true_true; by apply string_ltb_leb. }
  destruct (String.ltb a c) eqn:E; [done|].
  destruct (decide (a = c)) as [->|Hne].
  - apply string_ltb_asym in Hab. congruence.
  - apply string_ltb_total in E; [|done].
    unfold String.le in Hac. apply Is_true_true in Hac.
    unfold String.ltb, String.leb in *.
    rewrite (String.compare_antisym c a) in E.
    destruct (String.compare a c); simpl in *; congruence.
Qed.

End StringOrder.

(** ** The sorted set keeps its order *)
Section SortedSet.

Import Redis.

Lemma lt_trans (a b c : scored) : lt a b → lt b c → lt a c.
Proof.
  unfold lt, ltb. intros Hab Hbc.
  apply orb_true_iff in Hab as [Hab|Hab]; apply orb_true_iff in Hbc as [Hbc|Hbc];
    apply orb_true_iff.
  - left. lia.
  - apply andb_true_iff in Hbc as [Hbc _]. left. lia.
  - apply andb_true_iff in Hab as [Hab _]. left. lia.
  - apply andb_true_iff in Hab as [Hab Hab'].
    apply andb_true_iff in Hbc as [Hbc Hbc'].
    right. apply andb_true_iff. split; [lia|].
    by eapply string_ltb_trans.
Qed.

Lemma lt_total (a b : scored) : ltb a b = false → value a ≠ value b → lt b a.
Proof.
  unfold lt, ltb. intros H Hne.
  apply orb_false_iff in H as [H1 H2]. apply Z.ltb_ge in H1.
  apply orb_true_iff.
  destruct (Z.eq_dec (score a) (score b)) as [E|E].
  - right. apply andb_true_iff. split; [apply Z.eqb_eq; lia|].
    apply andb_false_iff in H2 as [H2|H2].
    + apply Z.eqb_neq in H2. lia.
    + apply string_ltb_total; [done|]. congruence.
  - left. apply Z.ltb_lt. lia.
Qed.

Lemma elem_of_insert (x z : scored) (l : zset) : z ∈ insert x l ↔ z = x ∨ z ∈ l.
Proof.
  induction l as [|y t IH]; simpl.
  - rewrite list_elem_of_singleton, elem_of_nil. naive_solver.
  - destruct (ltb x y); rewrite !elem_of_cons; [naive_solver|].
    rewrite IH. naive_solver.
Qed.

Lemma insert_sorted (x : scored) (l : zset) :
  sorted l → value x ∉ members l → sorted (insert x l).
Proof.
  unfold sorted, members. induction l as [|y t IH]; cbn [insert]; intros Hs Hx.
  - repeat constructor.
  - apply StronglySorted_cons in Hs as [Hy Ht].
    rewrite fmap_cons, not_elem_of_cons in Hx. destruct Hx as [Hxy Hxt].
    destruct (ltb x y) eqn:E.
    + apply StronglySorted_cons. split.
      * constructor; [done|].
        eapply Forall_impl; [exact Hy|]. intros z Hz. by eapply lt_trans.
      * by apply StronglySorted_cons.
    + apply StronglySorted_cons. split; [|by apply IH].
      apply Forall_forall. intros z Hz. apply elem_of_insert in Hz as [->|Hz].
      * by apply lt_total.
      * by eapply Forall_forall in Hy.
Qed.

Lemma elem_of_zrem (z : scored) (m : string) (l : zset) :
  z ∈ zrem m l ↔ z ∈ l ∧ value z ≠ m.
Proof.
  unfold zrem. rewrite !list_elem_of_In, filter_In, negb_true_iff.
  by rewrite String.eqb_neq.
Qed.

Lemma zrem_sorted (m : string) (l : zset) : sorted l → sorted (zrem m l).
Proof.
  unfold sorted. induction l as [|y t IH]; simpl; intros Hs; [constructor|].
  apply StronglySorted_cons in Hs as [Hy Ht].
  destruct (negb _); [|by apply IH].
  apply StronglySorted_cons. split; [|by apply IH].
  apply Forall_forall. intros z Hz. apply elem_of_zrem in Hz as [Hz _].
  by eapply Forall_forall in Hy.
Qed.

Lemma members_zrem (m p : string) (l : zset) :
  p ∈ members (zrem m l) ↔ p ∈ members l ∧ p ≠ m.
Proof.
  unfold members. rewrite !list_elem_of_fmap. split.
  - intros (z & -> & Hz). apply elem_of_zrem in Hz as [Hz Hne]. eauto.
  - intros [(z & -> & Hz) Hne]. exists z. split; [done|]. by apply elem_of_zrem.
Qed.

Lemma members_zadd (s : Z) (m p : string) (l : zset) :
  p ∈ members (zadd s m l) ↔ p = m ∨ p ∈ members l.
Proof.
  unfold zadd. unfold members at 1. rewrite list_elem_of_fmap. split.
  - intros (z & -> & Hz). apply elem_of_insert in Hz as [->|Hz]; [by left|].
    right. apply elem_of_zrem in Hz as [Hz _]. by apply list_elem_of_fmap_2.
  - destruct (decide (p = m)) as [->|Hne].
    + intros _. eexists. split; [|apply elem_of_insert; by left]. done.
    + intros [?|Hp]; [done|].
      apply list_elem_of_fmap in Hp as (z & -> & Hz).
      exists z. split; [done|]. apply elem_of_insert. right. by apply elem_of_zrem.
Qed.

Lemma zadd_sorted (s : Z) (m : string) (l : zset) : sorted l → sorted (zadd s m l).
Proof.
  intros Hs. apply insert_sorted; [by apply zrem_sorted|].
  simpl. rewrite members_zrem. tauto.
Qed.

Lemma reverse_sorted (l : zset) : sorted l → StronglySorted (flip lt) (reverse l).
Proof.
  unfold sorted. induction l as [|y t IH]; intros Hs; [constructor|].
  apply StronglySorted_cons in Hs as [Hy Ht].
  rewrite reverse_cons. apply StronglySorted_app. split_and!.
  - intros a b Ha Hb. apply list_elem_of_singleton in Hb as ->.
    rewrite elem_of_reverse in Ha. unfold flip.
    rewrite Forall_forall in Hy. by apply Hy.
  - by apply IH.
  - repeat constructor.
Qed.

Lemma range_by_rank_sorted {R : relation scored} (start stop : Z) (l : list scored) :
  StronglySorted R l → StronglySorted R (range_by_rank start stop l).
Proof.
  intros Hs. unfold range_by_rank. cbv zeta.
  destruct (_ || _); [constructor|].
  eapply StronglySorted_app_1_l. rewrite take_drop.
  eapply StronglySorted_app_1_r. by rewrite take_drop.
Qed.

Lemma sorted_lookup_lt {A} (R : relation A) (l : list A) (i j : nat) (a b : A) :
  StronglySorted R l → (i < j)%nat → l !! i = Some a → l !! j = Some b → R a b.
Proof.
  intros Hs. revert i j. induction Hs as [|x t Ht IH Hx]; intros i j Hij Hi Hj.
  - done.
  - destruct j as [|j]; [lia|]. destruct i as [|i]; simpl in *.
    + injection Hi as ->. eapply Forall_forall in Hx; [done|].
      by eapply list_elem_of_lookup_2.
    + eapply (IH i j); [lia|done..].
Qed.

End SortedSet.

(** ** RankingStore: top, rank and the histories of the store *)
Section RankingStoreFacts.

Import RedisService RankingStore.

Lemma run_snoc (ops : list Op) (o : Op) (r : RedisService.t) :
  run (ops ++ [o]) r = apply (run ops r) o.
Proof. unfold run. by rewrite fold_left_app. Qed.

Lemma run_sorted (ops : list Op) (r : RedisService.t) :
  Redis.sorted (leaderboard r) → Redis.sorted (leaderboard (run ops r)).
Proof.
  induction ops as [|o ops IH] using rev_ind; [done|].
  intros Hr. rewrite run_snoc. destruct o as [p s|p]; simpl.
  - by apply zadd_sorted, IH.
  - by apply zrem_sorted, IH.
Qed.

Lemma getTopPlayers_lookup (count : Z) (r : RedisService.t) (i : nat)
    (e : LeaderboardEntry) :
  getTopPlayers count r !! i = Some e →
  ∃ x, Redis.zrange_rev 0 (count - 1) (leaderboard r) !! i = Some x
       ∧ player_id e = Redis.value x ∧ rank e = Z.of_nat i + 1
       ∧ score e = Redis.score x.
Proof.
  unfold getTopPlayers. rewrite list_lookup_imap.
  destruct (_ !! i) as [x|]; [|done]. intros [= <-]. by exists x.
Qed.

Lemma range_from_zero (stop : Z) (l : list Redis.scored) :
  0 ≤ stop → Redis.range_by_rank 0 stop l = take (Z.to_nat (stop + 1)) l.
Proof.
  intros Hstop. unfold Redis.range_by_rank. cbv zeta.
  do 2 (change (0 <? 0) with false; cbv iota).
  do 2 (rewrite (proj2 (Z.ltb_ge stop 0)) by lia; cbv iota).
  change (Z.to_nat 0) with 0%nat. rewrite drop_0.
  destruct (Z.leb_spec (Z.of_nat (length l)) 0) as [H0|H0].
  - cbn [orb]. destruct l; [|simpl in H0; lia]. by rewrite take_nil.
  - cbn [orb].
    destruct (Z.leb_spec (Z.of_nat (length l)) stop) as [H1|H1].
    + rewrite !take_ge by lia. done.
    + f_equal. lia.
Qed.

Lemma range_by_rank_length (k : Z) (l : list Redis.scored) :
  1 ≤ k →
  Z.of_nat (length (Redis.range_by_rank 0 (k - 1) l)) = Z.min k (Z.of_nat (length l)).
Proof.
  intros Hk. rewrite range_from_zero, length_take by lia. lia.
Qed.

Lemma getTopPlayers_length (k : Z) (r : RedisService.t) :
  1 ≤ k →
  Z.of_nat (length (getTopPlayers k r)) = Z.min k (getTotalPlayers r).
Proof.
  intros Hk. unfold getTopPlayers, getTotalPlayers, Redis.zrange_rev, Redis.zcard.
  rewrite length_imap, range_by_rank_length by done.
  by rewrite length_reverse.
Qed.

Lemma index_of_None (m : string) (l : list Redis.scored) :
  Redis.index_of m l = None ↔ m ∉ Redis.members l.
Proof.
  unfold Redis.members. induction l as [|y t IH]; simpl.
  - split; [intros _; apply not_elem_of_nil|done].
  - rewrite not_elem_of_cons. destruct (String.eqb_spec (Redis.value y) m) as [E|E].
    + split; [done|]. intros [? _]. congruence.
    + destruct (Redis.index_of m t); simpl.
      * split; [done|]. intros [_ H]. by apply IH in H.
      * split; [|done]. intros _. split; [congruence|]. by apply IH.
Qed.

Lemma getPlayerRank_None (p : string) (r : RedisService.t) :
  getPlayerRank p r = None ↔ p ∉ Redis.members (leaderboard r).
Proof.
  unfold getPlayerRank, Redis.zrevrank.
  destruct (Redis.index_of p (reverse (leaderboard r))) eqn:E.
  - split; [done|]. intros H. exfalso.
    assert (Redis.index_of p (reverse (leaderboard r)) = None); [|congruence].
    apply index_of_None. unfold Redis.members. by rewrite fmap_reverse, elem_of_reverse.
  - split; [|done]. intros _. apply index_of_None in E.
    unfold Redis.members in *. by rewrite fmap_reverse, elem_of_reverse in E.
Qed.

(** A participant is in the store exactly when one of its upserts has no
    later remove. *)
Lemma members_run (p : string) (ops : list Op) :
  p ∈ Redis.members (leaderboard (run ops empty)) ↔
  ∃ pre s post, ops = pre ++ Upsert p s :: post ∧ Remove p ∉ post.
Proof.
  induction ops as [|o ops IH] using rev_ind.
  - split.
    + intros H. by apply elem_of_nil in H.
    + intros (pre & s & post & H & _). by destruct pre.
  - rewrite run_snoc. destruct o as [q s|q]; simpl.
    + rewrite members_zadd, IH. split.
      * intros [->|(pre & s' & post & -> & Hpost)].
        -- exists ops, s, []. split; [done|]. apply not_elem_of_nil.
        -- exists pre, s', (post ++ [Upsert q s]). split.
           ++ by rewrite <- app_assoc.
           ++ rewrite elem_of_app, list_elem_of_singleton. naive_solver.
      * intros (pre & s' & post & Heq & Hpost).
        destruct post as [|o post _] using rev_ind.
        -- apply app_inj_tail in Heq as [_ [= -> _]]. by left.
        -- right. exists pre, s', post.
           rewrite app_comm_cons, app_assoc in Heq.
           apply app_inj_tail in Heq as [-> _]. split; [done|].
           rewrite elem_of_app in Hpost. naive_solver.
    + rewrite members_zrem, IH. split.
      * intros [(pre & s' & post & -> & Hpost) Hne].
        exists pre, s', (post ++ [Remove q]). split.
        -- by rewrite <- app_assoc.
        -- rewrite elem_of_app, list_elem_of_singleton. naive_solver.
      * intros (pre & s' & post & Heq & Hpost).
        destruct post as [|o post _] using rev_ind.
        -- by apply app_inj_tail in Heq as [_ [=]].
        -- rewrite app_comm_cons, app_assoc in Heq.
           apply app_inj_tail in Heq as [-> <-].
           rewrite elem_of_app, list_elem_of_singleton in Hpost.
           split; [|naive_solver].
           exists pre, s', post. naive_solver.
Qed.

Lemma insert_Permutation (x : Redis.scored) (l : Redis.zset) :
  Redis.insert x l ≡ₚ x :: l.
Proof.
  induction l as [|y t IH]; simpl; [done|].
  destruct (Redis.ltb x y); [done|]. rewrite IH. apply Permutation_swap.
Qed.

Lemma zrem_sublist (m : string) (l : Redis.zset) : Redis.zrem m l `sublist_of` l.
Proof.
  unfold Redis.zrem. induction l as [|y t IH]; simpl; [done|].
  destruct (negb _); by constructor.
Qed.

Lemma zadd_NoDup (s : Z) (m : string) (l : Redis.zset) :
  NoDup (Redis.members l) → NoDup (Redis.members (Redis.zadd s m l)).
Proof.
  intros Hnd. unfold Redis.zadd, Redis.members.
  rewrite insert_Permutation, fmap_cons. apply NoDup_cons. split.
  - simpl. change (m ∉ Redis.members (Redis.zrem m l)). rewrite members_zrem. tauto.
  - eapply sublist_NoDup; [exact Hnd|apply fmap_sublist, zrem_sublist].
Qed.

(** The store never lists a participant twice. *)
Lemma run_NoDup (ops : list Op) :
  NoDup (Redis.members (leaderboard (run ops empty))).
Proof.
  induction ops as [|o ops IH] using rev_ind; [constructor|].
  rewrite run_snoc. destruct o as [p s|p]; simpl.
  - by apply zadd_NoDup.
  - eapply sublist_NoDup; [exact IH|apply fmap_sublist, zrem_sublist].
Qed.

Lemma range_by_rank_sublist (start stop : Z) (l : list Redis.scored) :
  Redis.range_by_rank start stop l `sublist_of` l.
Proof.
  unfold Redis.range_by_rank. cbv zeta. destruct (_ || _); [apply sublist_nil_l|].
  etransitivity; [apply sublist_take|apply sublist_drop].
Qed.

Lemma getTopPlayers_ids (count : Z) (r : RedisService.t) :
  player_id <$> getTopPlayers count r
  = Redis.value <$> Redis.zrange_rev 0 (count - 1) (leaderboard r).
Proof.
  unfold getTopPlayers. apply list_eq. intros i.
  rewrite !list_lookup_fmap, list_lookup_imap.
  by destruct (_ !! i).
Qed.

(** The snapshots of the store are well formed. *)
Lemma getTopPlayers_well_formed (ops : list Op) (count : Z) :
  Snapshot.well_formed (getTopPlayers count (run ops empty)).
Proof.
  split.
  - rewrite getTopPlayers_ids. unfold Redis.zrange_rev.
    eapply sublist_NoDup; [|apply fmap_sublist, range_by_rank_sublist].
    rewrite fmap_reverse, reverse_Permutation. apply run_NoDup.
  - intros e He. apply list_elem_of_lookup in He as [i Hi].
    apply getTopPlayers_lookup in Hi as (_ & _ & _ & Hr & _). lia.
Qed.

End RankingStoreFacts.

(** ** Claims on the ranked store *)
Section RankingStoreClaims.

Import RedisService RankingStore.

(** C1, the claim as stated, fails on ties: after [a] and [b] are both
    upserted with score 100, [top(10)] lists [b] before [a], so two
    entries of equal score are not in ascending order of participant. *)
Lemma top_ties_not_ascending :
  let snapshot := getTopPlayers 10 (run [Upsert "a" 100; Upsert "b" 100] empty) in
  snapshot = [ {| player_id := "b"; rank := 1; score := 100 |};
               {| player_id := "a"; rank := 2; score := 100 |} ]
  ∧ ¬ (∀ i j ei ej, (i < j)%nat →
         snapshot !! i = Some ei → snapshot !! j = Some ej →
         score ei = score ej →
         String.ltb (player_id ei) (player_id ej) = true).
Proof.
  split; [reflexivity|]. intros H.
  specialize (H 0%nat 1%nat _ _ (Nat.lt_0_succ 0) eq_refl eq_refl eq_refl).
  discriminate H.
Qed.

(** C1, as amended.  For every history of upserts and removes and every
    [count], the snapshot [getTopPlayers count] has ranks 1, 2, 3, ... in
    this order; of two entries the later one has the larger rank and a
    score that is not larger, and when the two scores are equal the later
    entry has the smaller participant id (ties are in descending order of
    the id).  After upserting (alice, 1000), (bob, 2000), (carol, 1500),
    [top(10)] is [bob:1:2000, carol:2:1500, alice:3:1000]. *)
Theorem top_ranked_descending (ops : list Op) (count : Z) :
  let snapshot := getTopPlayers count (run ops empty) in
  (∀ i e, snapshot !! i = Some e → rank e = Z.of_nat i + 1)
  ∧ (∀ i j ei ej, (i < j)%nat →
       snapshot !! i = Some ei → snapshot !! j = Some ej →
       rank ei < rank ej
       ∧ score ej ≤ score ei
       ∧ (score ei = score ej →
          String.ltb (player_id ej) (player_id ei) = true))
  ∧ getTopPlayers 10
      (run [Upsert "alice" 1000; Upsert "bob" 2000; Upsert "carol" 1500] empty)
    = [ {| player_id := "bob"; rank := 1; score := 2000 |};
        {| player_id := "carol"; rank := 2; score := 1500 |};
        {| player_id := "alice"; rank := 3; score := 1000 |} ].
Proof.
  intros snapshot. split_and!; [| |reflexivity].
  - intros i e He. by apply getTopPlayers_lookup in He as (x & _ & _ & Hr & _).
  - intros i j ei ej Hij Hi Hj.
    apply getTopPlayers_lookup in Hi as (xi & Hxi & Hpi & Hri & Hsi).
    apply getTopPlayers_lookup in Hj as (xj & Hxj & Hpj & Hrj & Hsj).
    assert (Redis.lt xj xi) as Hlt.
    { eapply (sorted_lookup_lt (flip Redis.lt)); [|exact Hij|exact Hxi|exact Hxj].
      apply range_by_rank_sorted, reverse_sorted, run_sorted. constructor. }
    unfold Redis.lt, Redis.ltb in Hlt. rewrite Hri, Hrj, Hsi, Hsj, Hpi, Hpj.
    apply orb_true_iff in Hlt as [Hlt|Hlt].
    + split_and!; lia.
    + apply andb_true_iff in Hlt as [Hs Hv]. split_and!; [lia|lia|done].
Qed.

Lemma top_ranked_descending_witness :
  let eb := {| player_id := "b"; rank := 1; score := 100 |} in
  let ea := {| player_id := "a"; rank := 2; score := 100 |} in
  rank eb < rank ea
  ∧ score ea ≤ score eb
  ∧ (score eb = score ea → String.ltb (player_id ea) (player_id eb) = true).
Proof.
  intros eb ea.
  destruct (top_ranked_descending [Upsert "a" 100; Upsert "b" 100] 10)
    as (_ & H & _).
  exact (H 0%nat 1%nat eb ea (Nat.lt_0_succ 0) eq_refl eq_refl).
Defined.

(** C4, the claim as stated, fails: [getTopPlayers] passes [count - 1] to
    the range query as it is.  With [count = 0] the stop rank is [-1], the
    last element, and the whole board is returned; with 101 players
    [getTopPlayers 101] has 101 entries.  The limit of 100 is applied by
    the controller, which turns a limit of [0] into the default [10]. *)
Lemma top_clamp_counterexample :
  getTopPlayers 0 (run [Upsert "alice" 1000] empty)
    = [ {| player_id := "alice"; rank := 1; score := 1000 |} ]
  ∧ ScoreController.getTopPlayers (Some 0) (run [Upsert "alice" 1000] empty)
    = [ {| player_id := "alice"; rank := 1; score := 1000 |} ]
  ∧ length (getTopPlayers 101 (populated 101)) = 101%nat.
Proof. split_and!; by vm_compute. Qed.

(** C4, as amended.  For every [k >= 1], [getTopPlayers k] returns
    [min k size] entries, with no upper bound on [k] of its own; the
    controller of [GET /scores/top] clamps the limit to 100, so for
    [k >= 1] its answer has [min (min k 100) size] entries, at most 100;
    a limit of [0] or one that does not parse is replaced by [10]. *)
Theorem top_length (r : RedisService.t) (k : Z) :
  1 ≤ k →
  Z.of_nat (length (getTopPlayers k r)) = Z.min k (getTotalPlayers r)
  ∧ Z.of_nat (length (ScoreController.getTopPlayers (Some k) r))
    = Z.min (Z.min k 100) (getTotalPlayers r)
  ∧ Z.of_nat (length (ScoreController.getTopPlayers (Some k) r)) ≤ 100
  ∧ ScoreController.getTopPlayers (Some 0) r = getTopPlayers 10 r
  ∧ ScoreController.getTopPlayers None r = getTopPlayers 10 r.
Proof.
  intros Hk. split; [by apply getTopPlayers_length|].
  assert (Z.of_nat (length (ScoreController.getTopPlayers (Some k) r))
          = Z.min (Z.min k 100) (getTotalPlayers r)) as Hc.
  { unfold ScoreController.getTopPlayers, ScoreController.limit_of.
    rewrite (proj2 (Z.eqb_neq k 0)) by lia.
    rewrite getTopPlayers_length by lia. done. }
  split_and!; [done|lia|done|done].
Qed.

Lemma top_length_witness :
  Z.of_nat (length (getTopPlayers 2
    (run [Upsert "alice" 1000; Upsert "bob" 2000; Upsert "carol" 1500] empty))) = 2.
Proof.
  destruct (top_length
    (run [Upsert "alice" 1000; Upsert "bob" 2000; Upsert "carol" 1500] empty) 2)
    as [H _]; [lia|].
  exact H.
Defined.

(** C9, the claim as stated, fails: after (alice, 1000) is upserted and
    alice is removed, [rankOf alice] is none although alice has submitted
    a score. *)
Lemma rankOf_none_after_remove :
  let ops := [Upsert "alice" 1000; Remove "alice"] in
  getPlayerRank "alice" (run ops empty) = None
  ∧ Upsert "alice" 1000 ∈ ops.
Proof. split; [reflexivity|]. apply elem_of_cons. by left. Qed.

(** C9, as amended.  For every participant and every history of upserts
    and removes, [rankOf] is none exactly when the participant is not in
    the store at that time, that is when each of its upserts is followed
    by a remove of it; in particular it is none for a participant that was
    never upserted. *)
Theorem rankOf_none_iff (p : string) (ops : list Op) :
  (getPlayerRank p (run ops empty) = None ↔
     ∀ pre s post, ops = pre ++ Upsert p s :: post → Remove p ∈ post)
  ∧ ((∀ s, Upsert p s ∉ ops) → getPlayerRank p (run ops empty) = None).
Proof.
  assert (getPlayerRank p (run ops empty) = None ↔
     ∀ pre s post, ops = pre ++ Upsert p s :: post → Remove p ∈ post) as Hiff.
  { rewrite getPlayerRank_None, members_run. split.
    - intros Hn pre s post Heq.
      destruct (decide (Remove p ∈ post)) as [|Hnot]; [done|].
      exfalso. apply Hn. by exists pre, s, post.
    - intros H (pre & s & post & Heq & Hnot). apply Hnot. by eapply H. }
  split; [exact Hiff|].
  intros Hnever. apply Hiff. intros pre s post ->.
  exfalso. apply (Hnever s). apply elem_of_app. right. apply elem_of_cons. by left.
Qed.

Lemma rankOf_none_iff_witness :
  getPlayerRank "bob" (run [Upsert "alice" 1000] empty) = None.
Proof.
  apply (rankOf_none_iff "bob" [Upsert "alice" 1000]).
  intros s H. apply list_elem_of_singleton in H. discriminate H.
Defined.

End RankingStoreClaims.

(** ** The diff of two snapshots *)
Section ChangedRankings.

Import KafkaService LeaderboardProcessingService Snapshot.

(** The entry of [changes] that a turn of the loop adds for [newEntry]. *)
Let change_of (m : gmap string Z) (newEntry : LeaderboardEntry) : option RankChange :=
  let old := or_null (m !! player_id newEntry) in
  if decide (old ≠ Some (rank newEntry)) then
    Some {| c_player_id := player_id newEntry; oldRank := old;
            newRank := rank newEntry |}
  else None.

Lemma changes_fold (m : gmap string Z) (l : list LeaderboardEntry)
    (acc : list RankChange) :
  List.fold_left
    (fun changes newEntry =>
       let old := or_null (m !! player_id newEntry) in
       if decide (old ≠ Some (rank newEntry)) then
         changes ++ [ {| c_player_id := player_id newEntry; oldRank := old;
                         newRank := rank newEntry |} ]
       else changes) l acc
  = acc ++ omap (change_of m) l.
Proof.
  revert acc. induction l as [|e l IH]; intros acc; simpl.
  - by rewrite app_nil_r.
  - rewrite IH. unfold change_of at 2. cbv zeta.
    destruct (decide _); [|done]. by rewrite <- app_assoc.
Qed.

Lemma oldRankMap_snoc (l : list LeaderboardEntry) (e : LeaderboardEntry) :
  oldRankMap (l ++ [e]) = <[player_id e := rank e]> (oldRankMap l).
Proof. unfold oldRankMap. by rewrite fold_left_app. Qed.

Lemma find_app_None {A} (f : A → bool) (l1 l2 : list A) :
  List.find f l1 = None → List.find f (l1 ++ l2) = List.find f l2.
Proof.
  induction l1 as [|x l1 IH]; simpl; [done|]. destruct (f x); [done|exact IH].
Qed.

Lemma find_app_Some {A} (f : A → bool) (l1 l2 : list A) (x : A) :
  List.find f l1 = Some x → List.find f (l1 ++ l2) = Some x.
Proof.
  induction l1 as [|y l1 IH]; simpl; [done|]. destruct (f y); [done|exact IH].
Qed.

Lemma rank_in_None (l : list LeaderboardEntry) (p : string) :
  p ∉ player_id <$> l → rank_in l p = None.
Proof.
  unfold rank_in. induction l as [|e l IH]; simpl; [done|].
  rewrite not_elem_of_cons. intros [Hne Hl].
  destruct (String.eqb_spec (player_id e) p); [congruence|]. by apply IH.
Qed.

Lemma oldRankMap_lookup (l : list LeaderboardEntry) (p : string) :
  NoDup (player_id <$> l) → oldRankMap l !! p = rank_in l p.
Proof.
  induction l as [|e l IH] using rev_ind; intros Hnd; [done|].
  rewrite fmap_app in Hnd. apply NoDup_app in Hnd as (Hl & Hdis & _).
  rewrite oldRankMap_snoc. destruct (decide (player_id e = p)) as [<-|Hne].
  - rewrite lookup_insert_eq. unfold rank_in.
    assert (player_id e ∉ player_id <$> l) as Hnot.
    { intros Hin. apply (Hdis _ Hin). simpl. apply elem_of_cons. by left. }
    apply rank_in_None in Hnot. unfold rank_in in Hnot.
    destruct (List.find _ l) eqn:E; [done|].
    rewrite find_app_None by done. simpl. by rewrite String.eqb_refl.
  - rewrite lookup_insert_ne by done. rewrite IH by done. unfold rank_in.
    destruct (List.find (λ e0, String.eqb (player_id e0) p) l) eqn:E.
    + by erewrite find_app_Some.
    + rewrite find_app_None by done. simpl.
      by destruct (String.eqb_spec (player_id e) p).
Qed.

Lemma rank_in_nonzero (l : list LeaderboardEntry) (p : string) :
  (∀ e, e ∈ l → rank e ≠ 0) → or_null (rank_in l p) = rank_in l p.
Proof.
  intros Hr. unfold rank_in.
  destruct (List.find _ l) as [e|] eqn:E; simpl; [|done].
  apply find_some in E as [Hin _]. apply list_elem_of_In, Hr in Hin.
  by rewrite (proj2 (Z.eqb_neq _ _) Hin).
Qed.

(** C3, the claim as stated, fails for a participant that leaves the
    board: alice is third in the previous snapshot and absent from the
    current one, her rank differs, and [changed] is empty. *)
Lemma changed_omits_leavers :
  let board :=
    RankingStore.run [RankingStore.Upsert "alice" 1000; RankingStore.Upsert "bob" 2000;
                      RankingStore.Upsert "carol" 1500] RedisService.empty in
  let previous := RedisService.getTopPlayers 10 board in
  let current := RedisService.getTopPlayers 10 (RedisService.removePlayer "alice" board) in
  rank_in previous "alice" = Some 3
  ∧ rank_in current "alice" = None
  ∧ findChangedRankings previous current = [].
Proof. split_and!; by vm_compute. Qed.

(** C3, as amended.  For every well-formed previous snapshot and every
    current snapshot, [changed] lists exactly the entries of the current
    snapshot whose rank differs from the rank of the same participant in
    the previous snapshot, with that previous rank as [oldRank] (none for a
    new entrant) and the current rank as [newRank]; every listed
    participant is in the current snapshot, so one that is only in the
    previous snapshot is not listed, and no entry with an unchanged rank
    is listed. *)
Theorem changed_rankings_exact (previous current : list LeaderboardEntry) :
  well_formed previous →
  (∀ c, c ∈ findChangedRankings previous current ↔
        ∃ e, e ∈ current
             ∧ c = {| c_player_id := player_id e;
                      oldRank := rank_in previous (player_id e);
                      newRank := rank e |}
             ∧ rank_in previous (player_id e) ≠ Some (rank e))
  ∧ (∀ c, c ∈ findChangedRankings previous current →
          c_player_id c ∈ player_id <$> current)
  ∧ (∀ e, e ∈ current → rank_in previous (player_id e) = Some (rank e) →
          ∀ c, c ∈ findChangedRankings previous current →
               c_player_id c = player_id e → newRank c ≠ rank e).
Proof.
  intros [Hnd Hr].
  assert (∀ c, c ∈ findChangedRankings previous current ↔
        ∃ e, e ∈ current
             ∧ c = {| c_player_id := player_id e;
                      oldRank := rank_in previous (player_id e);
                      newRank := rank e |}
             ∧ rank_in previous (player_id e) ≠ Some (rank e)) as Hiff.
  { intros c. unfold findChangedRankings. cbv zeta.
    rewrite changes_fold, app_nil_l, list_elem_of_omap.
    split; intros (e & He & Hc); exists e; (split; [done|]).
    - unfold change_of in Hc. cbv zeta in Hc.
      rewrite oldRankMap_lookup, rank_in_nonzero in Hc by done.
      destruct (decide _) as [Hd|]; [|done]. by injection Hc as <-.
    - destruct Hc as [-> Hd]. unfold change_of. cbv zeta.
      rewrite oldRankMap_lookup, rank_in_nonzero by done.
      by rewrite decide_True. }
  split_and!; [exact Hiff| |].
  - intros c Hc. apply Hiff in Hc as (e & He & -> & _). simpl.
    by apply list_elem_of_fmap_2.
  - intros e He Hsame c Hc Hid Hnew.
    apply Hiff in Hc as (e' & He' & -> & Hd). simpl in *.
    rewrite Hid, Hsame in Hd. congruence.
Qed.

Lemma changed_rankings_exact_witness :
  let before := [RankingStore.Upsert "alice" 1000; RankingStore.Upsert "bob" 2000] in
  let previous := RedisService.getTopPlayers 10
                    (RankingStore.run before RedisService.empty) in
  let current := RedisService.getTopPlayers 10
                   (RankingStore.run (before ++ [RankingStore.Upsert "carol" 3000])
                      RedisService.empty) in
  {| c_player_id := "carol"; oldRank := None; newRank := 1 |}
    ∈ findChangedRankings previous current.
Proof.
  intros before previous current.
  apply (changed_rankings_exact previous current
           (getTopPlayers_well_formed before 10)).
  exists {| player_id := "carol"; rank := 1; score := 3000 |}.
  split_and!; [apply elem_of_cons; by left|done|done].
Defined.

End ChangedRankings.

(** ** The checksum *)
Section Checksum.

Import LeaderboardProcessingService Snapshot.

Lemma string_app_nil_r (s : string) : s +:+ "" = s.
Proof. induction s as [|a s IH]; simpl; [done|]. unfold String.app. simpl. by f_equal. Qed.

Lemma string_app_assoc (a b c : string) : (a +:+ b) +:+ c = a +:+ (b +:+ c).
Proof. induction a as [|x a IH]; [done|]. unfold String.app in *. simpl. by f_equal. Qed.

Lemma string_app_length (a b : string) :
  String.length (a +:+ b) = (String.length a + String.length b)%nat.
Proof. induction a as [|x a IH]; [done|]. unfold String.app in *. simpl. by f_equal. Qed.

Lemma string_app_inv_tail (a b c : string) : a +:+ c = b +:+ c → a = b.
Proof.
  revert b. induction a as [|x a IH]; intros [|y b] H.
  - done.
  - apply (f_equal String.length) in H. rewrite !string_app_length in H.
    simpl in H. lia.
  - apply (f_equal String.length) in H. rewrite !string_app_length in H.
    simpl in H. lia.
  - unfold String.app in H. simpl in H. injection H as -> H. f_equal. by apply IH.
Qed.

(** What an entry contributes to the hashed string. *)
Let item (entry : LeaderboardEntry) : string :=
  player_id entry +:+ ":" +:+ pretty (score entry).

Lemma checksum_data_content (l1 l2 : list LeaderboardEntry) :
  content l1 = content l2 → checksum_data l1 = checksum_data l2.
Proof.
  intros H. unfold checksum_data. f_equal.
  revert l2 H. induction l1 as [|e1 l1 IH]; intros [|e2 l2] H; try done.
  unfold content in H. rewrite !fmap_cons in H. injection H as Hp Hs Hl.
  simpl. rewrite Hp, Hs. f_equal. by apply IH.
Qed.

Lemma concat_cons_cons (sep x y : string) (l : list string) :
  String.concat sep (x :: y :: l) = x +:+ sep +:+ String.concat sep (y :: l).
Proof. done. Qed.

(** A joined string around one of its items. *)
Lemma concat_middle (sep : string) (xs ys : list string) :
  ∃ before after, ∀ x,
    String.concat sep (xs ++ x :: ys) = before +:+ x +:+ after.
Proof.
  induction xs as [|y xs (before & after & IH)].
  - exists "". destruct ys as [|y ys].
    + exists "". intros x. simpl. by rewrite string_app_nil_r.
    + exists (sep +:+ String.concat sep (y :: ys)). intros x.
      by rewrite app_nil_l, concat_cons_cons.
  - exists (y +:+ sep +:+ before), after. intros x.
    rewrite <- app_comm_cons.
    destruct (xs ++ x :: ys) as [|z zs] eqn:E; [by destruct xs|].
    rewrite concat_cons_cons, <- E, IH. by rewrite !string_app_assoc.
Qed.

(** The hashed string around the item of one entry. *)
Lemma checksum_data_middle (l1 l2 : list LeaderboardEntry) :
  ∃ before after, ∀ e,
    checksum_data (l1 ++ e :: l2) = before +:+ item e +:+ after.
Proof.
  destruct (concat_middle "|" (List.map item l1) (List.map item l2))
    as (before & after & H).
  exists before, after. intros e. unfold checksum_data.
  rewrite map_app. simpl. exact (H (item e)).
Qed.

Lemma checksum_data_score (l : list LeaderboardEntry) (i : nat)
    (e : LeaderboardEntry) (s : Z) :
  l !! i = Some e → s ≠ score e →
  checksum_data (<[i := with_score s e]> l) ≠ checksum_data l.
Proof.
  intros Hi Hs.
  rewrite insert_take_drop by (by eapply lookup_lt_Some).
  rewrite <- (take_drop_middle l i e Hi) at 3.
  destruct (checksum_data_middle (take i l) (drop (S i) l)) as (before & after & H).
  rewrite !H. unfold item. simpl. intros Heq.
  apply (inj (String.app before)) in Heq.
  rewrite <- !string_app_assoc in Heq. apply string_app_inv_tail in Heq.
  rewrite !string_app_assoc in Heq.
  apply (inj (String.app (player_id e))) in Heq.
  apply (inj (String.app ":")) in Heq.
  by apply (inj pretty) in Heq.
Qed.

(** X30.  The checksum reads the ordered (participant_id, score) pairs
    and nothing else: two snapshots with the same pairs in the same order
    have the same checksum, whatever their ranks and whenever it is
    computed; and changing one score of a snapshot, whatever the ids,
    changes the string that is hashed. *)
Theorem checksum_reads_content_only (l1 l2 l : list LeaderboardEntry) (i : nat)
    (e : LeaderboardEntry) (s : Z) :
  (content l1 = content l2 → generateChecksum l1 = generateChecksum l2)
  ∧ (l !! i = Some e → s ≠ score e →
     checksum_data (<[i := with_score s e]> l) ≠ checksum_data l).
Proof.
  split.
  - intros H. unfold generateChecksum. by rewrite (checksum_data_content l1 l2).
  - intros Hi Hs. by apply checksum_data_score.
Qed.

(** The hash function on the test vectors of FIPS 180-4. *)
Example sha256_abc :
  SHA256.hexdigest "abc"
  = "ba7816bf8f01cfea414140de5dae2223b00361a396177a9cb410ff61f20015ad".
Proof. by vm_compute. Qed.

Example sha256_two_blocks :
  SHA256.hexdigest "abcdbcdecdefdefgefghfghighijhijkijkljklmklmnlmnomnopnopq"
  = "248d6a61d20638b8e5c026930c3e6039a33ce45964ff2167f6ecedd419db06c1".
Proof. by vm_compute. Qed.

Example checksum_of_board :
  generateChecksum [ {| player_id := "bob"; rank := 1; score := 2000 |};
                     {| player_id := "carol"; rank := 2; score := 1500 |};
                     {| player_id := "alice"; rank := 3; score := 1000 |} ]
  = "514978d358aa655b39f6a3406349f112e0edd9d0dcae45fbd14fc611a2f9e644".
Proof. by vm_compute. Qed.

End Checksum.

(** ** Enrichment with user details *)
Section Enrichment.

Import LeaderboardProcessingService Snapshot.

(** The entry the loop pushes for [entry] when [user] was found or not. *)
Let enhanced_of (entry : LeaderboardEntry) (user : option User)
  : EnhancedLeaderboardEntry :=
  {| e_player_id := player_id entry; e_rank := rank entry; e_score := score entry;
     e_username := username_or_unknown user |}.

Lemma enhance_entry_spec (d : DatabaseService.t) (acc : list EnhancedLeaderboardEntry)
    (r : RedisService.t) (entry : LeaderboardEntry) :
  ∃ user r',
    enhance_entry d (acc, r) entry = (acc ++ [enhanced_of entry user], r')
    ∧ (RedisService.getCachedUser (player_id entry) r = None →
       DatabaseService.getUser (player_id entry) d = None → user = None)
    ∧ (∀ p, DatabaseService.getUser p d = None →
            RedisService.getCachedUser p r' = RedisService.getCachedUser p r).
Proof.
  unfold enhance_entry.
  destruct (RedisService.getCachedUser (player_id entry) r) as [u|] eqn:Ec.
  - exists (Some u), r. by split_and!.
  - destruct (DatabaseService.getUser (player_id entry) d) as [u|] eqn:Ed.
    + exists (Some u), (RedisService.cacheUser (player_id entry) u r).
      split_and!; [done|done|]. intros p Hp.
      unfold RedisService.getCachedUser, RedisService.cacheUser. simpl.
      apply lookup_insert_ne. congruence.
    + exists None, r. by split_and!.
Qed.

Lemma enhance_fold (d : DatabaseService.t) (l : list LeaderboardEntry)
    (acc : list EnhancedLeaderboardEntry) (r : RedisService.t) :
  ∃ es r',
    List.fold_left (enhance_entry d) l (acc, r) = (acc ++ es, r')
    ∧ plain <$> es = l
    ∧ (∀ p, DatabaseService.getUser p d = None →
            RedisService.getCachedUser p r' = RedisService.getCachedUser p r)
    ∧ (∀ i e, l !! i = Some e →
         RedisService.getCachedUser (player_id e) r = None →
         DatabaseService.getUser (player_id e) d = None →
         es !! i = Some (enhanced_of e None)).
Proof.
  revert acc r. induction l as [|x l IH]; intros acc r.
  - exists [], r. rewrite app_nil_r. by split_and!.
  - destruct (enhance_entry_spec d acc r x) as (user & r1 & Hx & Hnone & Hc1).
    destruct (IH (acc ++ [enhanced_of x user]) r1) as (es & r2 & Hl & Hp & Hc2 & Hu).
    exists (enhanced_of x user :: es), r2. split_and!.
    + cbn [List.fold_left]. rewrite Hx, Hl. by rewrite <- app_assoc.
    + rewrite fmap_cons, Hp. by destruct x.
    + intros p Hd. by rewrite Hc2, Hc1.
    + intros [|i] e Hi Hc Hd; simpl in *.
      * injection Hi as ->. by rewrite Hnone.
      * apply Hu; [done| |done]. by rewrite Hc1.
Qed.

Lemma enhance_entry_board (d : DatabaseService.t)
    (acc : list EnhancedLeaderboardEntry * RedisService.t) (entry : LeaderboardEntry) :
  RedisService.leaderboard (enhance_entry d acc entry).2
  = RedisService.leaderboard acc.2.
Proof.
  destruct acc as [acc r]. unfold enhance_entry.
  destruct (RedisService.getCachedUser (player_id entry) r); [done|].
  by destruct (DatabaseService.getUser (player_id entry) d).
Qed.

(** The enrichment writes to the user cache only: the board is as before. *)
Lemma enhance_keeps_board (d : DatabaseService.t) (l : list LeaderboardEntry)
    (r : RedisService.t) :
  RedisService.leaderboard (enhanceLeaderboardWithUserDetails d l r).2
  = RedisService.leaderboard r.
Proof.
  unfold enhanceLeaderboardWithUserDetails.
  change r with (@nil EnhancedLeaderboardEntry, r).2 at 2.
  generalize (@nil EnhancedLeaderboardEntry, r) as acc.
  induction l as [|x l IH]; intros acc; [done|].
  cbn [List.fold_left]. by rewrite IH, enhance_entry_board.
Qed.

(** C10.  For every input snapshot the enrichment returns a list of the
    same length, in the same order, whose entries keep the [player_id], the
    [rank] and the [score] of the input and add a [username]; an entry for
    which neither the user cache nor the database has a user gets the
    username 'Unknown', its other fields unchanged. *)
Theorem enhance_preserves_entries (d : DatabaseService.t)
    (leaderboard : list LeaderboardEntry) (r : RedisService.t) :
  let enhanced := (enhanceLeaderboardWithUserDetails d leaderboard r).1 in
  length enhanced = length leaderboard
  ∧ plain <$> enhanced = leaderboard
  ∧ (∀ i e, leaderboard !! i = Some e →
       RedisService.getCachedUser (player_id e) r = None →
       DatabaseService.getUser (player_id e) d = None →
       enhanced !! i = Some {| e_player_id := player_id e; e_rank := rank e;
                               e_score := score e; e_username := "Unknown" |}).
Proof.
  unfold enhanceLeaderboardWithUserDetails.
  destruct (enhance_fold d leaderboard [] r) as (es & r' & -> & Hp & _ & Hu).
  simpl. split_and!; [|done|exact Hu].
  by rewrite <- Hp, length_fmap.
Qed.

Lemma enhance_preserves_entries_witness :
  let d := {| DatabaseService.faults := []; DatabaseService.fs_writable := true;
              DatabaseService.user_table := fun _ => None;
              DatabaseService.clock := "2025-11-08T12:00:00.000Z";
              DatabaseService.saved := [];
              DatabaseService.dead_letter_queue := None |} in
  let r := RedisService.cacheUser "bob" {| id := "bob"; username := "Bob" |}
             RedisService.empty in
  let leaderboard := [ {| player_id := "bob"; rank := 1; score := 2000 |};
                       {| player_id := "alice"; rank := 2; score := 1000 |} ] in
  (enhanceLeaderboardWithUserDetails d leaderboard r).1 !! 1%nat
  = Some {| e_player_id := "alice"; e_rank := 2; e_score := 1000;
            e_username := "Unknown" |}.
Proof.
  intros d r leaderboard.
  destruct (enhance_preserves_entries d leaderboard r) as (_ & _ & H).
  exact (H 1%nat {| player_id := "alice"; rank := 2; score := 1000 |}
           eq_refl eq_refl eq_refl).
Defined.

End Enrichment.

(** ** Throttling and content dedup *)
Section Throttle.

Import KafkaService LeaderboardProcessingService.

(** The checksum of the board as it is now. *)
Let fresh (w : World) : string :=
  generateChecksum (RedisService.getTopPlayers 10 (redis w)).

Lemma process_throttled (throttle : Z) (message : ChangeMessage) (now : Z)
    (w : World) (last : Z) :
  RedisService.last_update (redis w) = Some last →
  current_time message now - last < throttle →
  processLeaderboardChange throttle message now w = (w, Throttled).
Proof.
  intros Hl Hlt. unfold processLeaderboardChange. cbv zeta.
  unfold RedisService.getLastUpdateTimestamp. rewrite Hl.
  by rewrite (proj2 (Z.ltb_lt _ _) Hlt).
Qed.

Lemma process_no_change (throttle : Z) (message : ChangeMessage) (now : Z)
    (w : World) (cached : LeaderboardUpdate) :
  (∀ last, RedisService.last_update (redis w) = Some last →
           throttle ≤ current_time message now - last) →
  RedisService.leaderboard_cache (redis w) = Some cached →
  checksum cached = fresh w →
  processLeaderboardChange throttle message now w = (w, NoChange).
Proof.
  intros Hl Hc Hs. unfold processLeaderboardChange. cbv zeta.
  unfold RedisService.getLastUpdateTimestamp, RedisService.getCachedLeaderboard.
  rewrite Hc. unfold fresh in Hs. rewrite Hs, String.eqb_refl.
  destruct (RedisService.last_update (redis w)) as [last|]; [|done].
  by rewrite (proj2 (Z.ltb_ge _ _) (Hl last eq_refl)).
Qed.

(** What a call that publishes has passed and what it leaves behind. *)
Lemma process_published (throttle : Z) (message : ChangeMessage) (now : Z)
    (w w' : World) (update : LeaderboardData) :
  processLeaderboardChange throttle message now w = (w', Published update) →
  (∀ last, RedisService.last_update (redis w) = Some last →
           throttle ≤ current_time message now - last)
  ∧ (∀ cached, RedisService.leaderboard_cache (redis w) = Some cached →
               checksum cached ≠ fresh w)
  ∧ leaderboard_updates (kafka w') = leaderboard_updates (kafka w) ++ [update]
  ∧ m_checksum update = fresh w
  ∧ m_timestamp update = current_time message now
  ∧ RedisService.last_update (redis w') = Some (current_time message now)
  ∧ RedisService.leaderboard (redis w') = RedisService.leaderboard (redis w)
  ∧ ∃ cached', RedisService.leaderboard_cache (redis w') = Some cached'
               ∧ checksum cached' = fresh w.
Proof.
  unfold processLeaderboardChange. cbv zeta.
  unfold RedisService.getLastUpdateTimestamp, RedisService.getCachedLeaderboard.
  fold (fresh w).
  destruct (match RedisService.last_update (redis w) with
            | Some last => current_time message now - last <? throttle
            | None => false end) eqn:Et; [done|].
  destruct (match RedisService.leaderboard_cache (redis w) with
            | Some cached => String.eqb (checksum cached) (fresh w)
            | None => false end) eqn:Ec; [done|].
  destruct (enhanceLeaderboardWithUserDetails _ _ _) as [enhanced r] eqn:Ee.
  assert (RedisService.leaderboard r = RedisService.leaderboard (redis w)) as Hboard.
  { rewrite <- (enhance_keeps_board (db w)
       (RedisService.getTopPlayers 10 (redis w)) (redis w)). by rewrite Ee. }
  unfold publishLeaderboardUpdate.
  destruct (producer (kafka w)); [|done]. intros [= <- <-]. simpl.
  split_and!; try done.
  - intros last Hl. rewrite Hl in Et. by apply Z.ltb_ge.
  - intros cached Hc. rewrite Hc in Ec. by apply String.eqb_neq.
  - by eexists.
Qed.

(** C2.  A call publishes only if both gates pass: no update was published
    before or at least the throttle window has passed since the last one,
    and nothing is cached or the cached checksum differs from the checksum
    of the fresh snapshot; the update it returns is then the last message
    on the topic.  After a call that published at time [t], and as long as
    no other call has published, a call within the window returns nothing
    whatever the board has become, and a call outside the window returns
    nothing when the (participant_id, score) pairs of the snapshot are
    those of the published one. *)
Theorem publish_needs_both_gates (throttle : Z) (message : ChangeMessage) (now : Z)
    (w w' : World) (update : LeaderboardData) :
  processLeaderboardChange throttle message now w = (w', Published update) →
  ((RedisService.last_update (redis w) = None
    ∨ ∃ last, RedisService.last_update (redis w) = Some last
              ∧ throttle ≤ current_time message now - last)
   ∧ (RedisService.leaderboard_cache (redis w) = None
      ∨ ∃ cached, RedisService.leaderboard_cache (redis w) = Some cached
                  ∧ checksum cached
                    ≠ generateChecksum (RedisService.getTopPlayers 10 (redis w)))
   ∧ last (leaderboard_updates (kafka w')) = Some update)
  ∧ (∀ w2 message2 now2,
       RedisService.last_update (redis w2) = RedisService.last_update (redis w') →
       current_time message2 now2 - current_time message now < throttle →
       processLeaderboardChange throttle message2 now2 w2 = (w2, Throttled))
  ∧ (∀ w2 message2 now2,
       RedisService.last_update (redis w2) = RedisService.last_update (redis w') →
       RedisService.leaderboard_cache (redis w2)
         = RedisService.leaderboard_cache (redis w') →
       Snapshot.content (RedisService.getTopPlayers 10 (redis w2))
         = Snapshot.content (RedisService.getTopPlayers 10 (redis w)) →
       throttle ≤ current_time message2 now2 - current_time message now →
       processLeaderboardChange throttle message2 now2 w2 = (w2, NoChange)).
Proof.
  intros H.
  apply process_published in H
    as (Hgate1 & Hgate2 & Hk & Hsum & Hts & Hlast & Hboard & cached' & Hc' & Hs').
  split_and!.
  - destruct (RedisService.last_update (redis w)) as [last|]; [right|by left].
    exists last. split; [done|]. by apply Hgate1.
  - destruct (RedisService.leaderboard_cache (redis w)) as [cached|]; [right|by left].
    exists cached. split; [done|]. by apply Hgate2.
  - rewrite Hk. apply last_snoc.
  - intros w2 message2 now2 Hl2 Hlt.
    eapply process_throttled; [|exact Hlt]. by rewrite Hl2.
  - intros w2 message2 now2 Hl2 Hc2 Hsame Hge.
    eapply process_no_change.
    + intros last' Hl'. rewrite Hl2, Hlast in Hl'. by injection Hl' as <-.
    + rewrite Hc2. exact Hc'.
    + rewrite Hs'. unfold fresh, generateChecksum.
      by rewrite (checksum_data_content _ _ Hsame).
Qed.

Lemma publish_needs_both_gates_witness :
  let w0 :=
    {| redis := RankingStore.run
                  [RankingStore.Upsert "alice" 1000; RankingStore.Upsert "bob" 2000;
                   RankingStore.Upsert "carol" 1500] RedisService.empty;
       kafka := {| producer := true; leaderboard_updates := [] |};
       db := {| DatabaseService.faults := []; DatabaseService.fs_writable := true;
                DatabaseService.user_table := DatabaseService.mock_user_table;
                DatabaseService.clock := "2025-11-08T12:00:00.000Z";
                DatabaseService.saved := [];
                DatabaseService.dead_letter_queue := None |} |} in
  let first := processLeaderboardChange 500 {| msg_timestamp := Some 1000 |} 0 w0 in
  (∃ update, first.2 = Published update)
  ∧ processLeaderboardChange 500 {| msg_timestamp := Some 1100 |} 0 first.1
    = (first.1, Throttled)
  ∧ processLeaderboardChange 500 {| msg_timestamp := Some 1600 |} 0 first.1
    = (first.1, NoChange).
Proof.
  intros w0 first.
  set (update := match first.2 with
                 | Published u => u
                 | _ => {| leaderboard := []; m_timestamp := 0; m_checksum := "";
                           changedRankings := [] |}
                 end).
  assert (processLeaderboardChange 500 {| msg_timestamp := Some 1000 |} 0 w0
          = (first.1, Published update)) as Hfirst by (by vm_compute).
  destruct (publish_needs_both_gates 500 {| msg_timestamp := Some 1000 |} 0
              w0 first.1 update Hfirst) as (_ & Hin & Hout).
  split_and!.
  - exists update. by vm_compute.
  - apply Hin; [done|by vm_compute].
  - apply Hout; [done|done|by vm_compute|by vm_compute].
Defined.

End Throttle.

(** ** Flushing a batch: retries and the dead letter queue *)
Section Flush.

Import DatabaseService BatchSavingService.

(** The record [saveToDeadLetterQueue] appends for a batch. *)
Let dead_letter_of (b : list ScoreSubmission) (e : Env) : DeadLetterEntry :=
  {| dl_timestamp := clock (dbService e);
     count := Z.of_nat (length b);
     submissions := b |}.

(** The loop ends after one to three calls of the sink, and the batch is
    saved, or in the dead letter file, or reported as lost. *)
Lemma save_loop_resolves (b : list ScoreSubmission) (e : Env) :
  ∃ e', save_loop (S (Z.to_nat maxRetries)) 0 b e = Some e'
    ∧ (∃ calls, (1 ≤ calls ≤ 3)%nat
                ∧ faults (dbService e') = drop calls (faults (dbService e)))
    ∧ ((saved (dbService e') = saved (dbService e) ++ [b]
        ∧ dead_letter_queue (dbService e') = dead_letter_queue (dbService e)
        ∧ lost e' = lost e)
       ∨ (saved (dbService e') = saved (dbService e)
          ∧ dead_letter_queue (dbService e')
            = Some (read_queue (dbService e) ++ [dead_letter_of b e])
          ∧ lost e' = lost e)
       ∨ (saved (dbService e') = saved (dbService e)
          ∧ dead_letter_queue (dbService e') = dead_letter_queue (dbService e)
          ∧ lost e' = lost e ++ [b])).
Proof.
  destruct e as [[fl fw ut cl sv dq] sl lo].
  destruct fl as [|[] [|[] [|[] fl]]];
    try (eexists; split; [reflexivity|]; split; [|by left];
         first [ exists 1%nat; split; [lia|reflexivity]
               | exists 2%nat; split; [lia|reflexivity]
               | exists 3%nat; split; [lia|reflexivity] ]).
  destruct fw; (eexists; split; [reflexivity|]);
    (split; [exists 3%nat; split; [lia|reflexivity]|]);
    [right; by left|right; by right].
Qed.

(** Three failed calls of the sink, and the dead letter file can be written. *)
Lemma save_loop_exhausted (b : list ScoreSubmission) (e : Env) (rest : list bool) :
  faults (dbService e) = true :: true :: true :: rest →
  fs_writable (dbService e) = true →
  ∃ e', save_loop (S (Z.to_nat maxRetries)) 0 b e = Some e'
        ∧ saved (dbService e') = saved (dbService e)
        ∧ dead_letter_queue (dbService e') = Some (read_queue (dbService e) ++ [dead_letter_of b e])
        ∧ lost e' = lost e
        ∧ faults (dbService e') = rest
        ∧ slept e' = slept e ++ [1000; 2000].
Proof.
  destruct e as [[fl fw ut cl sv dq] sl lo]. simpl. intros -> ->.
  eexists. split; [reflexivity|]. simpl. split_and!; try done.
  by rewrite <- app_assoc.
Qed.

(** C6, the claim as stated, fails on [attempt_count]: the record written
    to the dead letter file has a timestamp, the submissions and [count],
    the number of submissions.  For a batch of one submission that failed
    three times the record is the one below, with [count] 1; the number of
    attempts is not recorded.  And when the dead letter file cannot be
    written, the three failures produce no record at all. *)
Lemma dead_letter_counts_submissions :
  let sub := {| sub_player_id := "alice"; sub_score := 1000;
                sub_timestamp := "2025-11-08T12:00:00.000Z" |} in
  let s := {| batch := [sub]; batchSize := 100; saveInProgress := false |} in
  let d := fun writable =>
    {| faults := [true; true; true]; fs_writable := writable;
       user_table := mock_user_table; clock := "2025-11-08T12:00:07.000Z";
       saved := []; dead_letter_queue := None |} in
  let e := fun writable => {| dbService := d writable; slept := []; lost := [] |} in
  (∃ s' e' r,
      flushBatch s (e true) = Some (s', e')
      ∧ dead_letter_queue (dbService e') = Some [r]
      ∧ r = {| dl_timestamp := "2025-11-08T12:00:07.000Z"; count := 1;
               submissions := [sub] |}
      ∧ count r ≠ maxRetries)
  ∧ (∃ s' e',
      flushBatch s (e false) = Some (s', e')
      ∧ dead_letter_queue (dbService e') = None).
Proof.
  split.
  - eexists _, _, _. split_and!; [reflexivity|reflexivity|reflexivity|done].
  - eexists _, _. split; reflexivity.
Qed.

(** C6, as amended.  For every batch whose sink calls fail three times
    ([maxRetries]), when the dead letter file can be written: the flush
    calls the sink three times, sleeps 1000 and 2000 ms between the calls,
    and appends exactly one record to the dead letter file; the record
    holds all the submissions of the batch in their order, their number
    as [count] and the time of the write.  Nothing is saved to the
    database, nothing is reported as lost, and the batch of the service
    is empty afterwards. *)
Theorem three_failures_one_dead_letter (s : BatchSavingService.t) (e : Env)
    (rest : list bool) :
  batch s ≠ [] → saveInProgress s = false →
  faults (dbService e) = true :: true :: true :: rest →
  fs_writable (dbService e) = true →
  ∃ s' e',
    flushBatch s e = Some (s', e')
    ∧ dead_letter_queue (dbService e')
      = Some (read_queue (dbService e) ++ [ {| dl_timestamp := clock (dbService e);
                                 count := Z.of_nat (length (batch s));
                                 submissions := batch s |} ])
    ∧ saved (dbService e') = saved (dbService e)
    ∧ lost e' = lost e
    ∧ faults (dbService e') = rest
    ∧ slept e' = slept e ++ [1000; 2000]
    ∧ batch s' = [] ∧ saveInProgress s' = false.
Proof.
  intros Hb Hp Hf Hw. unfold flushBatch. rewrite Hp, orb_false_r.
  destruct (batch s) as [|sub b] eqn:E; [done|]. cbn [length Nat.eqb].
  destruct (save_loop_exhausted (sub :: b) e rest Hf Hw)
    as (e' & -> & Hsv & Hdl & Hlo & Hfl & Hsl).
  eexists _, e'. split; [reflexivity|]. by split_and!.
Qed.

Lemma three_failures_one_dead_letter_witness :
  let sub1 := {| sub_player_id := "alice"; sub_score := 1000;
                 sub_timestamp := "2025-11-08T12:00:00.000Z" |} in
  let sub2 := {| sub_player_id := "bob"; sub_score := 2000;
                 sub_timestamp := "2025-11-08T12:00:01.000Z" |} in
  let s := {| batch := [sub1; sub2]; batchSize := 100; saveInProgress := false |} in
  let e := {| dbService := {| faults := [true; true; true]; fs_writable := true;
                              user_table := mock_user_table;
                              clock := "2025-11-08T12:00:07.000Z";
                              saved := []; dead_letter_queue := None |};
              slept := []; lost := [] |} in
  ∃ s' e',
    flushBatch s e = Some (s', e')
    ∧ dead_letter_queue (dbService e')
      = Some [ {| dl_timestamp := "2025-11-08T12:00:07.000Z"; count := 2;
                  submissions := [sub1; sub2] |} ].
Proof.
  intros sub1 sub2 s e.
  destruct (three_failures_one_dead_letter s e [])
    as (s' & e' & Hf & Hd & _); [done..|].
  by exists s', e'.
Defined.

(** C7, the claim as stated, fails when the dead letter file cannot be
    written: after three failed calls of the sink the batch is neither
    saved nor retried nor in a dead letter record; it is written to the
    console only ('CRITICAL: Lost batch data'). *)
Lemma batch_lost_when_dead_letter_fails :
  let sub := {| sub_player_id := "alice"; sub_score := 1000;
                sub_timestamp := "2025-11-08T12:00:00.000Z" |} in
  let s := {| batch := [sub]; batchSize := 100; saveInProgress := false |} in
  let e := {| dbService := {| faults := [true; true; true]; fs_writable := false;
                              user_table := mock_user_table;
                              clock := "2025-11-08T12:00:07.000Z";
                              saved := []; dead_letter_queue := None |};
              slept := []; lost := [] |} in
  flushBatch s e
  = Some ({| batch := []; batchSize := 100; saveInProgress := false |},
          {| dbService := {| faults := []; fs_writable := false;
                             user_table := mock_user_table;
                             clock := "2025-11-08T12:00:07.000Z";
                             saved := []; dead_letter_queue := None |};
             slept := [1000; 2000]; lost := [[sub]] |}).
Proof. reflexivity. Qed.

(** The three ways the loop ends, each with the condition under which it
    ends that way: fewer than three failed calls in a row and the batch is
    saved; three failed calls and the dead letter file takes the batch;
    three failed calls and the dead letter write fails, and the batch is
    reported as lost. *)
Lemma save_loop_cases (b : list ScoreSubmission) (e : Env) :
  ∃ e', save_loop (S (Z.to_nat maxRetries)) 0 b e = Some e'
    ∧ (∃ calls, (1 ≤ calls ≤ 3)%nat
                ∧ faults (dbService e') = drop calls (faults (dbService e)))
    ∧ ((saved (dbService e') = saved (dbService e) ++ [b]
        ∧ dead_letter_queue (dbService e') = dead_letter_queue (dbService e)
        ∧ lost e' = lost e
        ∧ ∃ k rest, (k < 3)%nat
                    ∧ faults (dbService e) = replicate k true ++ rest
                    ∧ head rest ≠ Some true)
       ∨ (saved (dbService e') = saved (dbService e)
          ∧ dead_letter_queue (dbService e')
            = Some (read_queue (dbService e) ++ [dead_letter_of b e])
          ∧ lost e' = lost e
          ∧ fs_writable (dbService e) = true
          ∧ ∃ rest, faults (dbService e) = true :: true :: true :: rest)
       ∨ (saved (dbService e') = saved (dbService e)
          ∧ dead_letter_queue (dbService e') = dead_letter_queue (dbService e)
          ∧ lost e' = lost e ++ [b]
          ∧ fs_writable (dbService e) = false
          ∧ ∃ rest, faults (dbService e) = true :: true :: true :: rest)).
Proof.
  destruct e as [[fl fw ut cl sv dq] sl lo].
  destruct fl as [|[] [|[] [|[] fl]]];
    try (eexists; split; [reflexivity|];
         first [ split; [exists 1%nat; split; [lia|reflexivity]|];
                 left; split_and!; [done..|];
                 exists 0%nat; eexists; split_and!; [lia|reflexivity|done]
               | split; [exists 2%nat; split; [lia|reflexivity]|];
                 left; split_and!; [done..|];
                 exists 1%nat; eexists; split_and!; [lia|reflexivity|done]
               | split; [exists 3%nat; split; [lia|reflexivity]|];
                 left; split_and!; [done..|];
                 exists 2%nat; eexists; split_and!; [lia|reflexivity|done] ]).
  destruct fw; (eexists; split; [reflexivity|]);
    (split; [exists 3%nat; split; [lia|reflexivity]|]).
  - right; left. split_and!; try done. by exists fl.
  - right; right. split_and!; try done. by exists fl.
Qed.

(** C7, as amended.  Every flush of a non-empty batch ends, after one to
    three calls of the sink, in one of three states: the batch is saved,
    which is the case when fewer than three calls in a row fail; or, after
    three failed calls, it is appended to the dead letter file as one
    record; or, after three failed calls and only when that write fails,
    it is reported on the console as lost.  It is never dropped without a
    trace, and the service is left with an empty batch and no save in
    progress. *)
Theorem flush_resolves (s : BatchSavingService.t) (e : Env) :
  batch s ≠ [] → saveInProgress s = false →
  ∃ s' e',
    flushBatch s e = Some (s', e')
    ∧ batch s' = [] ∧ saveInProgress s' = false
    ∧ (∃ calls, (1 ≤ calls ≤ 3)%nat
                ∧ faults (dbService e') = drop calls (faults (dbService e)))
    ∧ ((saved (dbService e') = saved (dbService e) ++ [batch s]
        ∧ dead_letter_queue (dbService e') = dead_letter_queue (dbService e)
        ∧ lost e' = lost e
        ∧ ∃ k rest, (k < 3)%nat
                    ∧ faults (dbService e) = replicate k true ++ rest
                    ∧ head rest ≠ Some true)
       ∨ (saved (dbService e') = saved (dbService e)
          ∧ dead_letter_queue (dbService e')
            = Some (read_queue (dbService e) ++ [ {| dl_timestamp := clock (dbService e);
                                       count := Z.of_nat (length (batch s));
                                       submissions := batch s |} ])
          ∧ lost e' = lost e
          ∧ fs_writable (dbService e) = true
          ∧ ∃ rest, faults (dbService e) = true :: true :: true :: rest)
       ∨ (saved (dbService e') = saved (dbService e)
          ∧ dead_letter_queue (dbService e') = dead_letter_queue (dbService e)
          ∧ lost e' = lost e ++ [batch s]
          ∧ fs_writable (dbService e) = false
          ∧ ∃ rest, faults (dbService e) = true :: true :: true :: rest)).
Proof.
  intros Hb Hp. unfold flushBatch. rewrite Hp, orb_false_r.
  destruct (batch s) as [|sub b] eqn:E; [done|]. cbn [length Nat.eqb].
  destruct (save_loop_cases (sub :: b) e) as (e' & -> & Hcalls & Hr).
  eexists _, e'. split; [reflexivity|]. by split_and!.
Qed.

Lemma flush_resolves_witness :
  let sub := {| sub_player_id := "alice"; sub_score := 1000;
                sub_timestamp := "2025-11-08T12:00:00.000Z" |} in
  let s := {| batch := [sub]; batchSize := 100; saveInProgress := false |} in
  let e := {| dbService := {| faults := [true; false]; fs_writable := true;
                              user_table := mock_user_table;
                              clock := "2025-11-08T12:00:07.000Z";
                              saved := []; dead_letter_queue := None |};
              slept := []; lost := [] |} in
  ∃ s' e', flushBatch s e = Some (s', e') ∧ batch s' = []
           ∧ saved (dbService e') = [[sub]] ∧ lost e' = [].
Proof.
  intros sub s e.
  destruct (flush_resolves s e) as (s' & e' & Hf & Hb & _ & _ & Hr); [done..|].
  exists s', e'. split; [exact Hf|]. split; [exact Hb|].
  destruct Hr as [(Hs & _ & Hl & _)|[(_ & _ & _ & _ & rest & Hr)|(_ & _ & _ & _ & rest & Hr)]].
  - split; [exact Hs|exact Hl].
  - discriminate Hr.
  - discriminate Hr.
Defined.

End Flush.

(** ** Broadcast to the connected clients *)
Section Broadcast.

Import WebSocketService.

Lemma broadcast_fold_counts (l : list WebSocket) (acc : BroadcastResult) :
  let res := List.fold_left broadcast_step l acc in
  successCount res + failCount res
  = successCount acc + failCount acc + Z.of_nat (length l).
Proof.
  revert acc. induction l as [|c l IH]; intros acc; cbn [List.fold_left length].
  - lia.
  - cbv zeta in IH. rewrite IH. unfold broadcast_step.
    destruct (is_open c); [destruct (send_throws c)|]; simpl; lia.
Qed.

(** Every client registered when the call starts is counted once. *)
Lemma broadcast_counts (clients : list WebSocket) :
  successCount (broadcast clients) + failCount (broadcast clients)
  = Z.of_nat (length clients).
Proof.
  unfold broadcast.
  pose proof (broadcast_fold_counts clients
    {| clients_after := clients; successCount := 0; failCount := 0; sent_to := [] |}) as H.
  cbv zeta in H. simpl in H. lia.
Qed.

Lemma elem_of_delete (c c' : WebSocket) (clients : list WebSocket) :
  c' ∈ delete c clients ↔ c' ∈ clients ∧ cid c' ≠ cid c.
Proof.
  unfold delete. rewrite !list_elem_of_In, filter_In, negb_true_iff.
  by rewrite Nat.eqb_neq.
Qed.

Lemma broadcast_fold_clients (l : list WebSocket) (acc : BroadcastResult)
    (c' : WebSocket) :
  c' ∈ clients_after (List.fold_left broadcast_step l acc) ↔
  c' ∈ clients_after acc ∧ ∀ c, c ∈ l → is_open c = false → cid c' ≠ cid c.
Proof.
  revert acc. induction l as [|c l IH]; intros acc; cbn [List.fold_left].
  - split; [|by intros [? _]]. intros H. split; [done|].
    intros c Hc. by apply elem_of_nil in Hc.
  - rewrite IH. unfold broadcast_step.
    destruct (is_open c) eqn:Eo; [destruct (send_throws c)|]; simpl.
    + split; intros [H1 H2]; (split; [done|]).
      * intros c0 Hc0. apply elem_of_cons in Hc0 as [->|Hc0]; [congruence|by apply H2].
      * intros c0 Hc0. apply H2, elem_of_cons. by right.
    + split; intros [H1 H2]; (split; [done|]).
      * intros c0 Hc0. apply elem_of_cons in Hc0 as [->|Hc0]; [congruence|by apply H2].
      * intros c0 Hc0. apply H2, elem_of_cons. by right.
    + rewrite elem_of_delete. split.
      * intros [[H1 Hne] H2]. split; [done|].
        intros c0 Hc0. apply elem_of_cons in Hc0 as [->|Hc0]; [done|by apply H2].
      * intros [H1 H2]. split_and!; [done| |].
        -- apply H2; [apply elem_of_cons; by left|done].
        -- intros c0 Hc0. apply H2, elem_of_cons. by right.
Qed.

(** After a broadcast the set holds the clients that were registered, less
    the connections found not open; a client whose [send] raised stays. *)
Lemma broadcast_clients_after (clients : list WebSocket) (c' : WebSocket) :
  c' ∈ clients_after (broadcast clients) ↔
  c' ∈ clients ∧ ∀ c, c ∈ clients → is_open c = false → cid c' ≠ cid c.
Proof. unfold broadcast. by rewrite broadcast_fold_clients. Qed.

(** C8.  Three open clients, the second with a [send] that raises:
    [broadcast] counts two deliveries and one failure, which covers the
    three clients, but the failed client is still registered afterwards,
    and the next heartbeat calls its [send] again (and only then removes
    it). *)
Theorem broadcast_keeps_client_whose_send_raises :
  let c1 := {| cid := 1; readyState := OPEN; send_throws := false |} in
  let c2 := {| cid := 2; readyState := OPEN; send_throws := true |} in
  let c3 := {| cid := 3; readyState := OPEN; send_throws := false |} in
  let result := broadcast [c1; c2; c3] in
  successCount result = 2
  ∧ failCount result = 1
  ∧ clients_after result = [c1; c2; c3]
  ∧ sendHeartbeat (clients_after result) = ([c1; c3], [1; 2; 3]%nat).
Proof. by split_and!. Qed.

(** A connection that is not open is failed and removed in the same call. *)
Example broadcast_removes_closed_client :
  let c1 := {| cid := 1; readyState := OPEN; send_throws := false |} in
  let c2 := {| cid := 2; readyState := CLOSED; send_throws := false |} in
  let c3 := {| cid := 3; readyState := OPEN; send_throws := false |} in
  let result := broadcast [c1; c2; c3] in
  successCount result = 2
  ∧ failCount result = 1
  ∧ clients_after result = [c1; c3]
  ∧ sendHeartbeat (clients_after result) = ([c1; c3], [1; 3]%nat).
Proof. by split_and!. Qed.

End Broadcast.

(** ** More on the ranked store: scores, ranks and the shape of the board *)
Section RankingStoreScores.

Import RedisService RankingStore.

Lemma find_insert_miss (f : Redis.scored → bool) (x : Redis.scored) (l : Redis.zset) :
  f x = false → List.find f (Redis.insert x l) = List.find f l.
Proof.
  intros Hx. induction l as [|y t IH]; simpl; [by rewrite Hx|].
  destruct (Redis.ltb x y); simpl; [by rewrite Hx|]. by rewrite IH.
Qed.

Lemma find_insert_hit (f : Redis.scored → bool) (x : Redis.scored) (l : Redis.zset) :
  f x = true → List.find f l = None → List.find f (Redis.insert x l) = Some x.
Proof.
  intros Hx. induction l as [|y t IH]; simpl; [by rewrite Hx|].
  destruct (f y) eqn:Ey; [done|]. intros Hl.
  destruct (Redis.ltb x y); simpl; [by rewrite Hx|]. rewrite Ey. by apply IH.
Qed.

Lemma find_zrem_same (m : string) (l : Redis.zset) :
  List.find (fun y => String.eqb (Redis.value y) m) (Redis.zrem m l) = None.
Proof.
  unfold Redis.zrem. induction l as [|y t IH]; simpl; [done|].
  destruct (String.eqb (Redis.value y) m) eqn:E; simpl; [done|]. by rewrite E.
Qed.

Lemma find_zrem_other (m q : string) (l : Redis.zset) :
  q ≠ m →
  List.find (fun y => String.eqb (Redis.value y) q) (Redis.zrem m l)
  = List.find (fun y => String.eqb (Redis.value y) q) l.
Proof.
  intros Hne. unfold Redis.zrem. induction l as [|y t IH]; simpl; [done|].
  destruct (String.eqb_spec (Redis.value y) m) as [E|E]; simpl.
  - destruct (String.eqb_spec (Redis.value y) q); [congruence|done].
  - by destruct (String.eqb (Redis.value y) q).
Qed.

Lemma zscore_zadd_same (s : Z) (m : string) (l : Redis.zset) :
  Redis.zscore m (Redis.zadd s m l) = Some s.
Proof.
  unfold Redis.zscore, Redis.zadd.
  rewrite find_insert_hit; [done| |apply find_zrem_same].
  simpl. apply String.eqb_refl.
Qed.

Lemma zscore_zadd_other (s : Z) (m q : string) (l : Redis.zset) :
  q ≠ m → Redis.zscore q (Redis.zadd s m l) = Redis.zscore q l.
Proof.
  intros Hne. unfold Redis.zscore, Redis.zadd.
  rewrite find_insert_miss; [by rewrite find_zrem_other|].
  simpl. apply String.eqb_neq. congruence.
Qed.

Lemma zscore_zrem_same (m : string) (l : Redis.zset) :
  Redis.zscore m (Redis.zrem m l) = None.
Proof. unfold Redis.zscore. by rewrite find_zrem_same. Qed.

Lemma zscore_zrem_other (m q : string) (l : Redis.zset) :
  q ≠ m → Redis.zscore q (Redis.zrem m l) = Redis.zscore q l.
Proof. intros Hne. unfold Redis.zscore. by rewrite find_zrem_other. Qed.

(** X1.  [getPlayerScore] returns the score of the most recent upsert of
    the participant, provided no remove of it came later: it is [s]
    exactly when the history ends with an upsert of [p] with [s] followed
    by operations on other participants only. *)
Theorem score_is_last_write (p : string) (s : Z) (ops : list Op) :
  getPlayerScore p (run ops empty) = Some s ↔
  ∃ pre post, ops = pre ++ Upsert p s :: post
              ∧ ∀ o, o ∈ post → (∀ s', o ≠ Upsert p s') ∧ o ≠ Remove p.
Proof.
  unfold getPlayerScore.
  induction ops as [|o ops IH] using rev_ind.
  - split; [done|]. intros (pre & post & H & _). by destruct pre.
  - rewrite run_snoc. destruct o as [q s0|q]; simpl.
    + destruct (decide (q = p)) as [->|Hne].
      * rewrite zscore_zadd_same. split.
        -- intros [= ->]. exists ops, []. split; [done|].
           intros o Ho. by apply elem_of_nil in Ho.
        -- intros (pre & post & Heq & Hpost).
           destruct post as [|o post _] using rev_ind.
           ++ by apply app_inj_tail in Heq as [_ [= ->]].
           ++ rewrite app_comm_cons, app_assoc in Heq.
              apply app_inj_tail in Heq as [_ <-].
              destruct (Hpost (Upsert p s0)) as [Hu _].
              { apply elem_of_app. right. apply elem_of_cons. by left. }
              by destruct (Hu s0).
      * rewrite zscore_zadd_other by congruence. rewrite IH. split.
        -- intros (pre & post & -> & Hpost).
           exists pre, (post ++ [Upsert q s0]). split; [by rewrite <- app_assoc|].
           intros o Ho. apply elem_of_app in Ho as [Ho|Ho]; [by apply Hpost|].
           apply list_elem_of_singleton in Ho as ->. split; [|done].
           intros s' [= ? _]. done.
        -- intros (pre & post & Heq & Hpost).
           destruct post as [|o post _] using rev_ind.
           ++ apply app_inj_tail in Heq as [_ [= ? _]]. done.
           ++ rewrite app_comm_cons, app_assoc in Heq.
              apply app_inj_tail in Heq as [-> <-].
              exists pre, post. split; [done|].
              intros o Ho. apply Hpost, elem_of_app. by left.
    + destruct (decide (q = p)) as [->|Hne].
      * rewrite zscore_zrem_same. split; [done|].
        intros (pre & post & Heq & Hpost).
        destruct post as [|o post _] using rev_ind.
        -- by apply app_inj_tail in Heq as [_ [=]].
        -- rewrite app_comm_cons, app_assoc in Heq.
           apply app_inj_tail in Heq as [_ <-].
           destruct (Hpost (Remove p)) as [_ Hr]; [|done].
           apply elem_of_app. right. apply elem_of_cons. by left.
      * rewrite zscore_zrem_other by congruence. rewrite IH. split.
        -- intros (pre & post & -> & Hpost).
           exists pre, (post ++ [Remove q]). split; [by rewrite <- app_assoc|].
           intros o Ho. apply elem_of_app in Ho as [Ho|Ho]; [by apply Hpost|].
           apply list_elem_of_singleton in Ho as ->. split; [done|].
           intros [= ?]. done.
        -- intros (pre & post & Heq & Hpost).
           destruct post as [|o post _] using rev_ind.
           ++ by apply app_inj_tail in Heq as [_ [=]].
           ++ rewrite app_comm_cons, app_assoc in Heq.
              apply app_inj_tail in Heq as [-> <-].
              exists pre, post. split; [done|].
              intros o Ho. apply Hpost, elem_of_app. by left.
Qed.

Lemma index_of_lookup (l : list Redis.scored) (i : nat) (x : Redis.scored) :
  NoDup (Redis.members l) → l !! i = Some x →
  Redis.index_of (Redis.value x) l = Some (Z.of_nat i).
Proof.
  unfold Redis.members. revert i. induction l as [|y t IH]; intros i Hnd Hi; [done|].
  rewrite fmap_cons in Hnd. apply NoDup_cons in Hnd as [Hy Ht].
  destruct i as [|i]; simpl in *.
  - injection Hi as ->. by rewrite String.eqb_refl.
  - destruct (String.eqb_spec (Redis.value y) (Redis.value x)) as [E|E].
    + exfalso. apply Hy. rewrite E. apply list_elem_of_fmap_2.
      by eapply list_elem_of_lookup_2.
    + rewrite (IH i Ht Hi). simpl. f_equal. lia.
Qed.

Lemma zscore_elem_of (l : list Redis.scored) (x : Redis.scored) :
  NoDup (Redis.members l) → x ∈ l →
  Redis.zscore (Redis.value x) l = Some (Redis.score x).
Proof.
  unfold Redis.members, Redis.zscore. induction l as [|y t IH]; intros Hnd Hx.
  - by apply elem_of_nil in Hx.
  - rewrite fmap_cons in Hnd. apply NoDup_cons in Hnd as [Hy Ht].
    apply elem_of_cons in Hx as [->|Hx]; simpl.
    + by rewrite String.eqb_refl.
    + destruct (String.eqb_spec (Redis.value y) (Redis.value x)) as [E|E].
      * exfalso. apply Hy. rewrite E. by apply list_elem_of_fmap_2.
      * by apply IH.
Qed.

(** A range that starts at rank 0 is a prefix of the list. *)
Lemma range_zero_take (stop : Z) (l : list Redis.scored) :
  Redis.range_by_rank 0 stop l
  = take (Z.to_nat ((if stop <? 0 then Z.of_nat (length l) + stop else stop) + 1)) l.
Proof.
  destruct (Z.ltb_spec stop 0) as [Hneg|Hpos]; [|by apply range_from_zero].
  unfold Redis.range_by_rank. cbv zeta.
  do 2 (change (0 <? 0) with false; cbv iota).
  repeat (rewrite (proj2 (Z.ltb_lt stop 0)) by lia; cbv iota).
  change (Z.to_nat 0) with 0%nat. rewrite drop_0.
  destruct (Z.ltb_spec (Z.of_nat (length l) + stop) 0) as [H0|H0]; cbn [orb].
  - replace (Z.to_nat _) with 0%nat by lia. done.
  - destruct (Z.leb_spec (Z.of_nat (length l)) 0) as [H1|H1]; [lia|].
    rewrite (proj2 (Z.leb_gt _ _)) by lia. f_equal. lia.
Qed.

(** X2.  The rank and the score queries agree with the listing: an entry
    that [getTopPlayers] returns for a participant carries the rank that
    [getPlayerRank] gives and the score that [getPlayerScore] gives. *)
Theorem top_entry_is_rank_and_score (ops : list Op) (count : Z) (i : nat)
    (e : LeaderboardEntry) :
  getTopPlayers count (run ops empty) !! i = Some e →
  getPlayerRank (player_id e) (run ops empty) = Some (rank e)
  ∧ getPlayerScore (player_id e) (run ops empty) = Some (score e).
Proof.
  intros He. apply getTopPlayers_lookup in He as (x & Hx & -> & -> & ->).
  unfold Redis.zrange_rev in Hx. rewrite range_zero_take in Hx.
  apply lookup_take_Some in Hx as [Hx _].
  pose proof (run_NoDup ops) as Hnd. split.
  - unfold getPlayerRank, Redis.zrevrank.
    rewrite (index_of_lookup _ i x); [done| |done].
    unfold Redis.members. rewrite fmap_reverse, reverse_Permutation. exact Hnd.
  - unfold getPlayerScore. apply zscore_elem_of; [done|].
    apply elem_of_reverse. by eapply list_elem_of_lookup_2.
Qed.

Lemma top_entry_is_rank_and_score_witness :
  let ops := [Upsert "alice" 1000; Upsert "bob" 2000; Upsert "carol" 1500] in
  getPlayerRank "carol" (run ops empty) = Some 2
  ∧ getPlayerScore "carol" (run ops empty) = Some 1500.
Proof.
  intros ops.
  exact (top_entry_is_rank_and_score ops 10 1
           {| player_id := "carol"; rank := 2; score := 1500 |} eq_refl).
Defined.

Lemma insert_length (x : Redis.scored) (l : Redis.zset) :
  length (Redis.insert x l) = S (length l).
Proof. by rewrite insert_Permutation. Qed.

Lemma zrem_absent (m : string) (l : Redis.zset) :
  m ∉ Redis.members l → Redis.zrem m l = l.
Proof.
  unfold Redis.members, Redis.zrem. induction l as [|y t IH]; [done|].
  rewrite fmap_cons, not_elem_of_cons. intros [Hy Ht]. simpl.
  destruct (String.eqb_spec (Redis.value y) m); [congruence|]. simpl.
  by rewrite IH.
Qed.

Lemma zrem_present_length (m : string) (l : Redis.zset) :
  NoDup (Redis.members l) → m ∈ Redis.members l →
  S (length (Redis.zrem m l)) = length l.
Proof.
  unfold Redis.members. induction l as [|y t IH]; intros Hnd Hm.
  - by apply elem_of_nil in Hm.
  - rewrite fmap_cons in Hnd, Hm. apply NoDup_cons in Hnd as [Hy Ht].
    unfold Redis.zrem. simpl.
    destruct (String.eqb_spec (Redis.value y) m) as [E|E]; simpl.
    + f_equal. fold (Redis.zrem m t). rewrite zrem_absent; [done|]. by rewrite <- E.
    + f_equal. apply IH; [done|]. apply elem_of_cons in Hm as [?|?]; [congruence|done].
Qed.

(** X3.  [getTotalPlayers] counts the participants that are in the store:
    an upsert of a participant that has no rank adds one, an upsert of a
    ranked participant leaves the count as it is, and the removal of a
    ranked participant takes one off. *)
Theorem total_counts_participants (ops : list Op) (p : string) (s : Z) :
  let r := run ops empty in
  (getPlayerRank p r = None →
     getTotalPlayers (addScore p s r) = getTotalPlayers r + 1
     ∧ getTotalPlayers (removePlayer p r) = getTotalPlayers r)
  ∧ (getPlayerRank p r ≠ None →
     getTotalPlayers (addScore p s r) = getTotalPlayers r
     ∧ getTotalPlayers (removePlayer p r) = getTotalPlayers r - 1).
Proof.
  intros r. pose proof (run_NoDup ops) as Hnd. fold r in Hnd.
  unfold getTotalPlayers, Redis.zcard, addScore, removePlayer, Redis.zadd. simpl.
  rewrite insert_length. split; intros Hp.
  - apply getPlayerRank_None in Hp. rewrite zrem_absent by done. lia.
  - assert (p ∈ Redis.members (leaderboard r)) as Hin.
    { destruct (decide (p ∈ Redis.members (leaderboard r))) as [|Hn]; [done|].
      by apply getPlayerRank_None in Hn. }
    pose proof (zrem_present_length p (leaderboard r) Hnd Hin). lia.
Qed.

Lemma zrem_insert_same (s : Z) (m : string) (l : Redis.zset) :
  Redis.zrem m (Redis.insert {| Redis.value := m; Redis.score := s |} l)
  = Redis.zrem m l.
Proof.
  unfold Redis.zrem. induction l as [|y t IH]; simpl.
  - by rewrite String.eqb_refl.
  - destruct (Redis.ltb _ y); simpl.
    + by rewrite String.eqb_refl.
    + by rewrite IH.
Qed.

Lemma zrem_zrem (m : string) (l : Redis.zset) :
  Redis.zrem m (Redis.zrem m l) = Redis.zrem m l.
Proof.
  apply zrem_absent. rewrite members_zrem. tauto.
Qed.

(** X5.  Writes are idempotent: an upsert repeated with the same score,
    or a remove repeated, leaves the store as the first one left it, and
    the removal of a participant that has no rank changes nothing. *)
Theorem writes_are_idempotent (r : RedisService.t) (p : string) (s : Z) :
  addScore p s (addScore p s r) = addScore p s r
  ∧ removePlayer p (removePlayer p r) = removePlayer p r
  ∧ (getPlayerRank p r = None → removePlayer p r = r).
Proof.
  destruct r as [board cache last users].
  unfold addScore, removePlayer. simpl. split_and!.
  - f_equal. unfold Redis.zadd. by rewrite zrem_insert_same, zrem_zrem.
  - f_equal. apply zrem_zrem.
  - intros Hp. apply getPlayerRank_None in Hp. simpl in Hp.
    f_equal. by apply zrem_absent.
Qed.

Lemma imap_take {A B} (f : nat → A → B) (n : nat) (l : list A) :
  imap f (take n l) = take n (imap f l).
Proof.
  apply list_eq. intros i. rewrite list_lookup_imap, !lookup_take.
  case_decide; [by rewrite list_lookup_imap|done].
Qed.

(** The whole board as [getTopPlayers] lists it. *)
Let ranking (r : RedisService.t) : list LeaderboardEntry :=
  imap (fun index result =>
          {| player_id := Redis.value result;
             rank := Z.of_nat index + 1;
             score := Redis.score result |}) (reverse (leaderboard r)).

Lemma getTopPlayers_take (count : Z) (r : RedisService.t) :
  getTopPlayers count r
  = take (Z.to_nat ((if count - 1 <? 0 then getTotalPlayers r + (count - 1)
                     else count - 1) + 1)) (ranking r).
Proof.
  unfold getTopPlayers, Redis.zrange_rev, ranking, getTotalPlayers, Redis.zcard.
  by rewrite range_zero_take, imap_take, length_reverse.
Qed.

Lemma ranking_length (r : RedisService.t) :
  Z.of_nat (length (ranking r)) = getTotalPlayers r.
Proof.
  unfold ranking, getTotalPlayers, Redis.zcard.
  by rewrite length_imap, length_reverse.
Qed.

(** X6.  A shorter listing is the beginning of a longer one: for
    [1 <= k <= k'], [getTopPlayers k] is the first [k] entries of
    [getTopPlayers k'].  A count that is not positive does not give an
    empty list: [count = 0] gives the whole board and [count < 0] the
    whole board without its last [-count] entries. *)
Theorem top_is_prefix (r : RedisService.t) (k k' count : Z) :
  (1 ≤ k ≤ k' →
     getTopPlayers k r = take (Z.to_nat k) (getTopPlayers k' r))
  ∧ (count ≤ 0 →
     getTopPlayers count r
     = take (Z.to_nat (getTotalPlayers r + count))
         (getTopPlayers (getTotalPlayers r) r)).
Proof.
  pose proof (ranking_length r) as Hlen. split.
  - intros [Hk Hk']. rewrite !getTopPlayers_take.
    rewrite !(proj2 (Z.ltb_ge _ _)) by lia.
    rewrite take_take. f_equal. lia.
  - intros Hc. rewrite !getTopPlayers_take.
    rewrite (proj2 (Z.ltb_lt (count - 1) 0)) by lia.
    rewrite take_take.
    destruct (Z.ltb_spec (getTotalPlayers r - 1) 0) as [H0|H0].
    + rewrite !take_ge by lia. done.
    + f_equal. lia.
Qed.

Lemma ltb_irrefl (a : Redis.scored) : Redis.ltb a a = false.
Proof.
  unfold Redis.ltb. rewrite Z.ltb_irrefl, string_ltb_irrefl.
  by rewrite andb_false_r.
Qed.

Lemma elem_of_zscore (l : list Redis.scored) (x : Redis.scored) :
  NoDup (Redis.members l) →
  x ∈ l ↔ Redis.zscore (Redis.value x) l = Some (Redis.score x).
Proof.
  intros Hnd. split; [by apply zscore_elem_of|].
  unfold Redis.zscore. intros H.
  destruct (List.find _ l) as [y|] eqn:E; [|done].
  apply find_some in E as [Hy Hv]. apply String.eqb_eq in Hv.
  injection H as Hs. apply list_elem_of_In in Hy.
  destruct x, y. simpl in *. by subst.
Qed.

Lemma run_other_fields (ops : list Op) (r : RedisService.t) :
  leaderboard_cache (run ops r) = leaderboard_cache r
  ∧ last_update (run ops r) = last_update r
  ∧ user_cache (run ops r) = user_cache r.
Proof.
  induction ops as [|o ops IH] using rev_ind; [done|].
  rewrite run_snoc. by destruct o.
Qed.

(** X4.  The store is determined by the scores it holds, not by the
    history that produced them: two histories after which every
    participant has the same score (or none) leave the same store, so
    every listing and every rank agree. *)
Theorem store_is_canonical (ops1 ops2 : list Op) :
  (∀ p, getPlayerScore p (run ops1 empty) = getPlayerScore p (run ops2 empty)) →
  run ops1 empty = run ops2 empty.
Proof.
  intros Hscores.
  assert (leaderboard (run ops1 empty) = leaderboard (run ops2 empty)) as Hboard.
  { pose proof (run_NoDup ops1) as Hnd1. pose proof (run_NoDup ops2) as Hnd2.
    apply (StronglySorted_unique_strong Redis.lt).
    - intros x1 x2 _ _ H12 H21. exfalso.
      pose proof (lt_trans _ _ _ H12 H21) as H. unfold Redis.lt in H.
      by rewrite ltb_irrefl in H.
    - apply run_sorted. constructor.
    - apply run_sorted. constructor.
    - apply NoDup_Permutation.
      + by eapply NoDup_fmap_1.
      + by eapply NoDup_fmap_1.
      + intros x. rewrite !elem_of_zscore by done.
        unfold getPlayerScore in Hscores. by rewrite Hscores. }
  destruct (run_other_fields ops1 empty) as (Hc1 & Hl1 & Hu1).
  destruct (run_other_fields ops2 empty) as (Hc2 & Hl2 & Hu2).
  destruct (run ops1 empty), (run ops2 empty). simpl in *. congruence.
Qed.

Lemma store_is_canonical_witness :
  run [Upsert "a" 1; Upsert "b" 2] empty
  = run [Upsert "b" 2; Upsert "a" 5; Upsert "a" 1] empty.
Proof.
  apply store_is_canonical. intros p. reflexivity.
Defined.

Lemma index_of_Some (m : string) (l : list Redis.scored) (z : Z) :
  Redis.index_of m l = Some z →
  ∃ i x, z = Z.of_nat i ∧ l !! i = Some x ∧ Redis.value x = m.
Proof.
  revert z. induction l as [|y t IH]; intros z; simpl; [done|].
  destruct (String.eqb_spec (Redis.value y) m) as [E|E].
  - intros [= <-]. by exists 0%nat, y.
  - destruct (Redis.index_of m t) as [z'|]; [|done]. simpl. intros [= <-].
    destruct (IH z' eq_refl) as (i & x & -> & Hi & Hx).
    exists (S i), x. split_and!; [lia|done|done].
Qed.

(** The listing of as many entries as there are players is the whole board. *)
Lemma full_listing_lookup (r : RedisService.t) (i : nat) (e : LeaderboardEntry) :
  getTopPlayers (getTotalPlayers r) r !! i = Some e ↔
  ∃ x, reverse (leaderboard r) !! i = Some x
       ∧ e = {| player_id := Redis.value x; rank := Z.of_nat i + 1;
                score := Redis.score x |}.
Proof.
  rewrite getTopPlayers_take. pose proof (ranking_length r) as Hlen.
  rewrite take_ge.
  - unfold ranking. rewrite list_lookup_imap.
    destruct (reverse (leaderboard r) !! i) as [x|]; simpl.
    + split; [intros [= <-]; by exists x|]. by intros (x' & [= <-] & ->).
    + split; [done|]. by intros (x' & ? & _).
  - destruct (Z.ltb_spec (getTotalPlayers r - 1) 0); lia.
Qed.

End RankingStoreScores.

(** ** The handlers of the controller *)
Section Controller.

Import RedisService RankingStore ScoreHandlers.

Lemma members_reverse_NoDup (ops : list Op) :
  NoDup (Redis.members (reverse (leaderboard (run ops empty)))).
Proof.
  unfold Redis.members. rewrite fmap_reverse, reverse_Permutation.
  apply run_NoDup.
Qed.

(** X7.  [GET /scores/player/:playerId] answers with the entry of the
    player in the whole board, its rank and its score, and with 404
    exactly when the player is not on the board. *)
Theorem player_stats_is_board_entry (ops : list Op) (p : string) :
  let r := run ops empty in
  let board := getTopPlayers (getTotalPlayers r) r in
  (∀ k s, getPlayerStats p r = PlayerStats p k s ↔
          {| player_id := p; rank := k; score := s |} ∈ board)
  ∧ (getPlayerStats p r = PlayerNotFound p ↔ p ∉ player_id <$> board).
Proof.
  intros r board.
  pose proof (run_NoDup ops) as Hnd. pose proof (members_reverse_NoDup ops) as Hrev.
  fold r in Hnd, Hrev.
  assert (∀ i x, reverse (leaderboard r) !! i = Some x →
            getPlayerStats (Redis.value x) r
            = PlayerStats (Redis.value x) (Z.of_nat i + 1) (Redis.score x)) as Hhit.
  { intros i x Hx. unfold getPlayerStats, getPlayerRank, getPlayerScore, Redis.zrevrank.
    rewrite (index_of_lookup _ i x Hrev Hx).
    rewrite (zscore_elem_of _ x Hnd); [done|].
    apply elem_of_reverse. by eapply list_elem_of_lookup_2. }
  split.
  - intros k s. unfold board. rewrite list_elem_of_lookup. split.
    + intros Hs.
      assert (∃ i x, reverse (leaderboard r) !! i = Some x ∧ Redis.value x = p)
        as (i & x & Hx & <-).
      { unfold getPlayerStats, getPlayerRank, Redis.zrevrank in Hs.
        destruct (Redis.index_of p (reverse (leaderboard r))) as [z|] eqn:Ez; [|done].
        apply index_of_Some in Ez as (i & x & _ & Hx & Hv). eauto. }
      rewrite (Hhit i x Hx) in Hs. injection Hs as <- <-.
      exists i. apply full_listing_lookup. by exists x.
    + intros (i & Hi). apply full_listing_lookup in Hi as (x & Hx & [= -> -> ->]).
      by apply Hhit.
  - split.
    + intros Hnf Hin. apply list_elem_of_fmap in Hin as (e & -> & He).
      apply list_elem_of_lookup in He as (i & Hi).
      apply full_listing_lookup in Hi as (x & Hx & ->). simpl in Hnf.
      by rewrite (Hhit i x Hx) in Hnf.
    + intros Hnot. unfold getPlayerStats.
      destruct (getPlayerRank p r) as [k|] eqn:Ek; [|done]. exfalso.
      unfold getPlayerRank, Redis.zrevrank in Ek.
      destruct (Redis.index_of p (reverse (leaderboard r))) as [z|] eqn:Ez; [|done].
      apply index_of_Some in Ez as (i & x & -> & Hx & <-).
      apply Hnot. apply list_elem_of_fmap.
      exists {| player_id := Redis.value x; rank := Z.of_nat i + 1;
                score := Redis.score x |}.
      split; [done|]. apply list_elem_of_lookup. exists i.
      apply full_listing_lookup. by exists x.
Qed.

(** X8.  [POST /scores]: a body that fails validation is answered 400 and
    changes nothing.  A valid submission is first written to the ranked
    store; when the producer is not initialised the answer is 500, nothing
    is published, and the score stays in the store; otherwise the answer
    is 202 and one message is appended to each of the two topics, the
    submission under the player id as key and the change event. *)
Theorem submit_score_outcomes {Body : Type}
    (validate : Body → list string + ScoreSubmission) (body : Body)
    (now1 now2 now3 : Z) (w : World) :
  let result := submitScore validate body now1 now2 now3 w in
  (∀ details, validate body = inl details →
     result = (ValidationFailed details, w) ∧ status result.1 = 400)
  ∧ (∀ sub, validate body = inr sub →
       KafkaService.producer (KafkaTopics.service (kafka w)) = false →
       result.1 = InternalServerError ∧ status result.1 = 500
       ∧ getPlayerScore (sub_player_id sub) (redis result.2) = Some (sub_score sub)
       ∧ kafka result.2 = kafka w)
  ∧ (∀ sub, validate body = inr sub →
       KafkaService.producer (KafkaTopics.service (kafka w)) = true →
       result.1 = Accepted (sub_player_id sub) (sub_score sub)
       ∧ status result.1 = 202
       ∧ getPlayerScore (sub_player_id sub) (redis result.2) = Some (sub_score sub)
       ∧ KafkaTopics.score_submissions (kafka result.2)
         = KafkaTopics.score_submissions (kafka w)
           ++ [(sub_player_id sub,
                {| KafkaTopics.type := KafkaTopics.SCORE_SUBMISSION;
                   KafkaTopics.data := sub; KafkaTopics.sent_at := now1 |})]
       ∧ KafkaTopics.leaderboard_changes (kafka result.2)
         = KafkaTopics.leaderboard_changes (kafka w)
           ++ [ {| KafkaTopics.type := KafkaTopics.LEADERBOARD_CHANGE;
                   KafkaTopics.data :=
                     {| KafkaTopics.change_player_id := sub_player_id sub;
                        KafkaTopics.change_score := sub_score sub;
                        KafkaTopics.change_timestamp := now2 |};
                   KafkaTopics.sent_at := now3 |} ]).
Proof.
  intros result. unfold result, submitScore. split_and!.
  - by intros details ->.
  - intros sub -> Hp. unfold KafkaTopics.publishScoreSubmission. rewrite Hp. simpl.
    split_and!; [done|done| |done]. apply zscore_zadd_same.
  - intros sub -> Hp.
    unfold KafkaTopics.publishScoreSubmission, KafkaTopics.publishLeaderboardChange.
    rewrite Hp. simpl. rewrite Hp. simpl.
    split_and!; [done|done| |done|done]. apply zscore_zadd_same.
Qed.

End Controller.

(** ** The format of the checksum *)
Section ChecksumFormat.

Import LeaderboardProcessingService.

Lemma string_of_list_ascii_length (l : list ascii) :
  String.length (string_of_list_ascii l) = length l.
Proof. induction l as [|a l IH]; simpl; [done|]. by rewrite IH. Qed.

Lemma flat_map_length_const {A B} (f : A → list B) (n : nat) (l : list A) :
  (∀ x, length (f x) = n) → length (List.flat_map f l) = (n * length l)%nat.
Proof.
  intros Hf. induction l as [|x l IH]; simpl; [lia|].
  rewrite length_app, Hf, IH. lia.
Qed.

Lemma be_bytes_length (n : nat) (x : Z) : length (SHA256.be_bytes n x) = n.
Proof. unfold SHA256.be_bytes. by rewrite length_map, length_rev, length_seq. Qed.

Lemma be_bytes_range (n : nat) (x b : Z) :
  In b (SHA256.be_bytes n x) → 0 ≤ b < 256.
Proof.
  unfold SHA256.be_bytes. rewrite in_map_iff. intros (i & <- & _).
  change 255 with (Z.ones 8). rewrite Z.land_ones by lia.
  apply Z.mod_pos_bound. lia.
Qed.

Lemma digest_bytes (msg : list Z) :
  length (SHA256.digest msg) = 32%nat
  ∧ ∀ b, In b (SHA256.digest msg) → 0 ≤ b < 256.
Proof.
  unfold SHA256.digest. cbv zeta.
  destruct (List.fold_left _ _ _) as [[[[[[[h0 h1] h2] h3] h4] h5] h6] h7].
  split.
  - by rewrite (flat_map_length_const _ 4) by apply be_bytes_length.
  - intros b Hb. apply in_flat_map in Hb as (h & _ & Hb).
    by eapply be_bytes_range.
Qed.

Lemma hex_digit_is_hex (n : Z) :
  0 ≤ n < 16 →
  In (SHA256.hex_digit n) (list_ascii_of_string "0123456789abcdef").
Proof.
  intros Hn. unfold SHA256.hex_digit. apply nth_In. simpl. lia.
Qed.

Lemma hexdigest_length (data : string) : String.length (SHA256.hexdigest data) = 64%nat.
Proof.
  unfold SHA256.hexdigest, SHA256.hex.
  destruct (digest_bytes (SHA256.bytes_of data)) as [Hlen _].
  rewrite string_of_list_ascii_length.
  rewrite (flat_map_length_const _ 2) by done. by rewrite Hlen.
Qed.

(** X17.  The checksum of any leaderboard is a string of 64 characters,
    each one a lower-case hexadecimal digit. *)
Theorem checksum_is_64_hex_digits (leaderboard : list LeaderboardEntry) :
  String.length (generateChecksum leaderboard) = 64%nat
  ∧ ∀ c, In c (list_ascii_of_string (generateChecksum leaderboard)) →
         In c (list_ascii_of_string "0123456789abcdef").
Proof.
  unfold generateChecksum, SHA256.hexdigest, SHA256.hex.
  destruct (digest_bytes (SHA256.bytes_of (checksum_data leaderboard)))
    as [Hlen Hrange].
  split.
  - rewrite string_of_list_ascii_length.
    rewrite (flat_map_length_const _ 2) by done. by rewrite Hlen.
  - intros c. rewrite list_ascii_of_string_of_list_ascii.
    intros Hc. apply in_flat_map in Hc as (b & Hb & Hc).
    apply Hrange in Hb.
    destruct Hc as [<-|[<-|[]]]; apply hex_digit_is_hex.
    + rewrite Z.shiftr_div_pow2 by lia. change (2 ^ 4) with 16.
      split; [apply Z.div_pos; lia|apply Z.div_lt_upper_bound; lia].
    + change 15 with (Z.ones 4). rewrite Z.land_ones by lia.
      apply Z.mod_pos_bound. lia.
Qed.

End ChecksumFormat.

(** ** When the hashed string determines the content *)
Section ChecksumContent.

Import LeaderboardProcessingService Snapshot.

(** The characters of a string. *)
Let chars (s : string) : list ascii := list_ascii_of_string s.

Lemma chars_app (a b : string) : chars (a +:+ b) = chars a ++ chars b.
Proof.
  unfold chars. induction a as [|x a IH]; [done|].
  unfold String.app in *. simpl. by rewrite IH.
Qed.

(** A string is cut at the first occurrence of a character in one way. *)
Lemma string_cut_unique (c : ascii) (a a' b b' : string) :
  ¬ In c (chars a) → ¬ In c (chars a') →
  a +:+ String c b = a' +:+ String c b' → a = a' ∧ b = b'.
Proof.
  unfold chars. revert a'. induction a as [|x a IH]; intros [|x' a'] Ha Ha' H;
    unfold String.app in *; simpl in *.
  - by injection H as ->.
  - injection H as -> _. tauto.
  - injection H as -> _. tauto.
  - injection H as -> H. destruct (IH a') as [-> ->]; [tauto|tauto|done|done].
Qed.

Lemma pretty_N_go_chars (P : ascii → Prop) (x : N) (s : string) :
  (∀ d, (d < 10)%N → P (pretty_N_char d)) →
  Forall P (chars s) → Forall P (chars (pretty_N_go x s)).
Proof.
  intros Hd. revert s. induction (N.lt_wf_0 x) as [x _ IH]; intros s Hs.
  destruct (decide (x = 0%N)) as [->|Hx]; [by rewrite pretty_N_go_0|].
  rewrite pretty_N_go_step by lia. apply IH.
  - apply N.div_lt; lia.
  - unfold chars. simpl. constructor; [|done]. apply Hd. by apply N.mod_lt.
Qed.

(** The decimal form of an integer has digits and a sign only. *)
Lemma pretty_Z_chars (z : Z) (c : ascii) :
  In c (chars (pretty z)) → c ≠ ":"%char ∧ c ≠ "|"%char.
Proof.
  set (P := fun c : ascii => c ≠ ":"%char ∧ c ≠ "|"%char).
  assert (∀ d, (d < 10)%N → P (pretty_N_char d)) as Hd.
  { intros d _. unfold pretty_N_char, P. by repeat case_match. }
  assert (∀ n : N, Forall P (chars (pretty n))) as HN.
  { intros n. unfold pretty, pretty_N. case_decide.
    - by repeat constructor.
    - apply pretty_N_go_chars; [done|constructor]. }
  assert (Forall P (chars (pretty z))) as Hz.
  { destruct z as [|q|q]; unfold pretty, pretty_Z.
    - by repeat constructor.
    - apply HN.
    - rewrite chars_app. apply Forall_app. split; [by repeat constructor|apply HN]. }
  intros Hc. rewrite Forall_forall in Hz. apply Hz. by apply list_elem_of_In.
Qed.

(** What an entry contributes to the hashed string. *)
Let item (entry : LeaderboardEntry) : string :=
  player_id entry +:+ ":" +:+ pretty (score entry).

(** The participant id has no [:] and no [|]. *)
Let clean (entry : LeaderboardEntry) : Prop :=
  ¬ In ":"%char (chars (player_id entry)) ∧ ¬ In "|"%char (chars (player_id entry)).

Lemma item_no_bar (e : LeaderboardEntry) : clean e → ¬ In "|"%char (chars (item e)).
Proof.
  intros [_ Hbar]. unfold item. rewrite !chars_app, !in_app_iff.
  intros [H|[H|H]]; [done| |].
  - simpl in H. by destruct H as [H|[]].
  - apply pretty_Z_chars in H. tauto.
Qed.

Lemma item_inj (e1 e2 : LeaderboardEntry) :
  clean e1 → clean e2 → item e1 = item e2 →
  player_id e1 = player_id e2 ∧ score e1 = score e2.
Proof.
  intros [H1 _] [H2 _] H. unfold item in H.
  apply (string_cut_unique ":"%char) in H as [Hp Hs]; [|done|done].
  split; [done|]. by apply (inj pretty) in Hs.
Qed.

Lemma joined_inj (xs ys : list string) :
  (∀ x, x ∈ xs ++ ys → x ≠ "" ∧ ¬ In "|"%char (chars x)) →
  String.concat "|" xs = String.concat "|" ys → xs = ys.
Proof.
  revert ys. induction xs as [|x xs IH]; intros ys Hall H.
  - destruct ys as [|y ys]; [done|]. exfalso.
    destruct (Hall y) as [Hy _]; [apply elem_of_cons; by left|].
    destruct ys; simpl in H; [congruence|].
    destruct y; [done|]. unfold String.app in H. simpl in H. done.
  - destruct ys as [|y ys].
    + exfalso. destruct (Hall x) as [Hx _]; [apply elem_of_cons; by left|].
      destruct xs; simpl in H; [congruence|].
      destruct x; [done|]. unfold String.app in H. simpl in H. done.
    + destruct (Hall x) as [_ Hx]; [apply elem_of_cons; by left|].
      destruct (Hall y) as [_ Hy].
      { apply elem_of_app. right. apply elem_of_cons. by left. }
      destruct xs as [|x' xs], ys as [|y' ys].
      * simpl in H. by subst.
      * exfalso. rewrite concat_cons_cons in H. simpl in H. subst x.
        apply Hx. rewrite chars_app, in_app_iff. right.
        rewrite chars_app, in_app_iff. left. simpl. by left.
      * exfalso. rewrite concat_cons_cons in H. simpl in H. subst y.
        apply Hy. rewrite chars_app, in_app_iff. right.
        rewrite chars_app, in_app_iff. left. simpl. by left.
      * rewrite !concat_cons_cons in H.
        apply (string_cut_unique "|"%char) in H as [-> H]; [|done|done].
        f_equal. apply IH; [|done].
        intros z Hz. apply Hall. set_solver.
Qed.

(** X18.  For leaderboards whose participant ids contain neither [:] nor
    [|], the string that is hashed determines the ordered
    (participant_id, score) pairs: two such leaderboards with the same
    hashed string have the same pairs in the same order. *)
Theorem hashed_string_determines_content (l1 l2 : list LeaderboardEntry) :
  (∀ e, e ∈ l1 ++ l2 →
        ¬ In ":"%char (list_ascii_of_string (player_id e))
        ∧ ¬ In "|"%char (list_ascii_of_string (player_id e))) →
  checksum_data l1 = checksum_data l2 →
  content l1 = content l2.
Proof.
  intros Hclean H. unfold checksum_data in H.
  apply joined_inj in H.
  - unfold content. revert l2 Hclean H.
    induction l1 as [|e1 l1 IH]; intros [|e2 l2] Hclean H; try done.
    simpl in H. injection H as He Hl.
    apply item_inj in He as [Hp Hs].
    + rewrite !fmap_cons, Hp, Hs. f_equal. apply IH; [|done].
      intros e He. apply Hclean. set_solver.
    + apply Hclean. set_solver.
    + apply Hclean. set_solver.
  - intros x Hx. rewrite <- map_app in Hx.
    apply list_elem_of_In, in_map_iff in Hx as (e & <- & He).
    apply list_elem_of_In, Hclean in He. split.
    + intros Hempty. apply (f_equal String.length) in Hempty.
      rewrite !string_app_length in Hempty. simpl in Hempty. lia.
    + by apply item_no_bar.
Qed.

Lemma hashed_string_determines_content_witness :
  content [ {| player_id := "bob"; rank := 1; score := 2000 |};
            {| player_id := "alice"; rank := 2; score := 1000 |} ]
  = content [ {| player_id := "bob"; rank := 7; score := 2000 |};
              {| player_id := "alice"; rank := 9; score := 1000 |} ].
Proof.
  apply hashed_string_determines_content; [|reflexivity].
  intros e He. simpl in He.
  repeat (apply elem_of_cons in He as [->|He]);
    [| | | |by apply elem_of_nil in He];
    (split; simpl; intros H; repeat (destruct H as [H|H]; [discriminate H|]); done).
Defined.

Lemma concat_merge (sep x y : string) (xs ys : list string) :
  String.concat sep (xs ++ x :: y :: ys)
  = String.concat sep (xs ++ (x +:+ sep +:+ y) :: ys).
Proof.
  induction xs as [|w xs IH].
  - rewrite !app_nil_l, concat_cons_cons. destruct ys as [|z zs]; [done|].
    by rewrite !concat_cons_cons, !string_app_assoc.
  - rewrite <- !app_comm_cons.
    destruct (xs ++ x :: y :: ys) as [|a l1] eqn:E1; [by destruct xs|].
    destruct (xs ++ (x +:+ sep +:+ y) :: ys) as [|b l2] eqn:E2; [by destruct xs|].
    by rewrite !concat_cons_cons, IH.
Qed.

(** X19.  Without that condition the checksum takes different boards for
    the same one, with no collision of SHA-256 involved: two adjacent
    entries anywhere on a board can be replaced by one entry whose id is
    the first id, [:], the first score, [|] and the second id, with the
    second score, and the hashed string and so the checksum stay the
    same, although the content differs. *)
Theorem checksum_confuses_boards (before after : list LeaderboardEntry)
    (e1 e2 : LeaderboardEntry) (k : Z) :
  let merged :=
    {| player_id := player_id e1 +:+ ":" +:+ pretty (score e1) +:+ "|" +:+ player_id e2;
       rank := k; score := score e2 |} in
  content (before ++ e1 :: e2 :: after) ≠ content (before ++ merged :: after)
  ∧ checksum_data (before ++ e1 :: e2 :: after)
    = checksum_data (before ++ merged :: after)
  ∧ generateChecksum (before ++ e1 :: e2 :: after)
    = generateChecksum (before ++ merged :: after).
Proof.
  intros merged.
  assert (checksum_data (before ++ e1 :: e2 :: after)
          = checksum_data (before ++ merged :: after)) as Hdata.
  { unfold checksum_data. rewrite !map_app. cbn [List.map].
    rewrite concat_merge. do 3 f_equal. subst merged. cbn [player_id score].
    by rewrite !string_app_assoc. }
  split_and!; [|done|].
  - intros H. apply (f_equal length) in H. unfold content in H.
    rewrite !length_fmap, !length_app in H. simpl in H. lia.
  - unfold generateChecksum. by rewrite Hdata.
Qed.

End ChecksumContent.

(** ** More on the processing of change events *)
Section ProcessingMore.

Import KafkaService LeaderboardProcessingService Snapshot.

Lemma omap_all_None {A B} (f : A → option B) (l : list A) :
  (∀ x, x ∈ l → f x = None) → omap f l = [].
Proof.
  induction l as [|x l IH]; intros H; [done|]. simpl.
  rewrite (H x) by (apply elem_of_cons; by left).
  apply IH. intros y Hy. apply H, elem_of_cons. by right.
Qed.

Lemma omap_all_Some {A B} (f : A → option B) (g : A → B) (l : list A) :
  (∀ x, x ∈ l → f x = Some (g x)) → omap f l = g <$> l.
Proof.
  induction l as [|x l IH]; intros H; [done|]. simpl.
  rewrite (H x) by (apply elem_of_cons; by left). simpl. f_equal.
  apply IH. intros y Hy. apply H, elem_of_cons. by right.
Qed.

Lemma rank_in_elem (l : list LeaderboardEntry) (e : LeaderboardEntry) :
  NoDup (player_id <$> l) → e ∈ l → rank_in l (player_id e) = Some (rank e).
Proof.
  unfold rank_in. induction l as [|x l IH]; intros Hnd He.
  - by apply elem_of_nil in He.
  - rewrite fmap_cons in Hnd. apply NoDup_cons in Hnd as [Hx Hl].
    apply elem_of_cons in He as [->|He]; simpl.
    + by rewrite String.eqb_refl.
    + destruct (String.eqb_spec (player_id x) (player_id e)) as [E|E].
      * exfalso. apply Hx. rewrite E. by apply list_elem_of_fmap_2.
      * by apply IH.
Qed.

(** X10.  The diff of a well-formed snapshot with itself is empty: when
    nothing moved, no ranking is reported as changed. *)
Theorem no_changes_in_same_snapshot (snapshot : list LeaderboardEntry) :
  well_formed snapshot → findChangedRankings snapshot snapshot = [].
Proof.
  intros [Hnd Hr]. unfold findChangedRankings. cbv zeta.
  rewrite changes_fold, app_nil_l. apply omap_all_None.
  intros e He. cbv zeta.
  rewrite oldRankMap_lookup, rank_in_nonzero, (rank_in_elem _ e) by done.
  by rewrite decide_False by (by intros []).
Qed.

Lemma no_changes_in_same_snapshot_witness :
  let snapshot :=
    RedisService.getTopPlayers 10
      (RankingStore.run [RankingStore.Upsert "alice" 1000;
                         RankingStore.Upsert "bob" 2000] RedisService.empty) in
  findChangedRankings snapshot snapshot = [].
Proof.
  intros snapshot. apply no_changes_in_same_snapshot.
  apply getTopPlayers_well_formed.
Defined.

Lemma changes_from_nothing (new : list LeaderboardEntry) :
  findChangedRankings [] new
  = (fun e => {| c_player_id := player_id e; oldRank := None; newRank := rank e |})
    <$> new.
Proof.
  unfold findChangedRankings. cbv zeta. rewrite changes_fold, app_nil_l.
  apply omap_all_Some. intros e _. cbv zeta. unfold oldRankMap. simpl.
  by rewrite lookup_empty.
Qed.

(** What a call that passed both gates has written to Redis. *)
Lemma process_passed (throttle : Z) (message : ChangeMessage) (now : Z)
    (w w' : World) (o : Outcome) :
  processLeaderboardChange throttle message now w = (w', o) →
  o ≠ Throttled → o ≠ NoChange →
  let top := RedisService.getTopPlayers 10 (redis w) in
  RedisService.leaderboard_cache (redis w')
    = Some {| top10 := top; timestamp := current_time message now;
              checksum := generateChecksum top |}
  ∧ RedisService.last_update (redis w') = Some (current_time message now)
  ∧ RedisService.leaderboard (redis w') = RedisService.leaderboard (redis w)
  ∧ (o = PublishFailed → kafka w' = kafka w ∧ producer (kafka w) = false).
Proof.
  unfold processLeaderboardChange. cbv zeta.
  destruct (match RedisService.getLastUpdateTimestamp (redis w) with
            | Some last => current_time message now - last <? throttle
            | None => false end); [by intros [= <- <-]|].
  destruct (match RedisService.getCachedLeaderboard (redis w) with
            | Some cached => String.eqb (checksum cached) _
            | None => false end); [by intros [= <- <-]|].
  pose proof (enhance_keeps_board (db w)
    (RedisService.getTopPlayers 10 (redis w)) (redis w)) as Hboard.
  destruct (enhanceLeaderboardWithUserDetails _ _ _) as [enhanced r].
  unfold publishLeaderboardUpdate.
  destruct (producer (kafka w)) eqn:Ep; intros [= <- <-] _ _; simpl; by split_and!.
Qed.

(** X11.  A publish that fails is not made up for: when the producer is
    not initialised the update is computed, the cache and the timestamp
    are written, and the exception leaves the topic as it was; the calls
    that follow on the same board are throttled or find the checksum
    unchanged, so the update is never published. *)
Theorem failed_publish_is_not_retried (throttle : Z) (message : ChangeMessage)
    (now : Z) (w w' : World) :
  processLeaderboardChange throttle message now w = (w', PublishFailed) →
  kafka w' = kafka w
  ∧ ∀ message2 now2,
      processLeaderboardChange throttle message2 now2 w' = (w', Throttled)
      ∨ processLeaderboardChange throttle message2 now2 w' = (w', NoChange).
Proof.
  intros H. apply process_passed in H as (Hc & Hl & Hb & Hk); [|done..].
  destruct (Hk eq_refl) as [Hkafka _]. split; [done|].
  intros message2 now2.
  destruct (Z.lt_ge_cases (current_time message2 now2 - current_time message now)
              throttle) as [Hlt|Hge].
  - left. by eapply process_throttled.
  - right. eapply process_no_change; [|exact Hc|].
    + intros last Hlast. rewrite Hl in Hlast. by injection Hlast as <-.
    + simpl. unfold RedisService.getTopPlayers. by rewrite Hb.
Qed.

Lemma failed_publish_is_not_retried_witness :
  let w0 :=
    {| redis := RankingStore.run [RankingStore.Upsert "alice" 1000] RedisService.empty;
       kafka := {| producer := false; leaderboard_updates := [] |};
       db := {| DatabaseService.faults := []; DatabaseService.fs_writable := true;
                DatabaseService.user_table := DatabaseService.mock_user_table;
                DatabaseService.clock := "2025-11-08T12:00:00.000Z";
                DatabaseService.saved := [];
                DatabaseService.dead_letter_queue := None |} |} in
  let first := processLeaderboardChange 500 {| msg_timestamp := Some 1000 |} 0 w0 in
  first.2 = PublishFailed ∧ kafka first.1 = kafka w0.
Proof.
  intros w0 first.
  assert (processLeaderboardChange 500 {| msg_timestamp := Some 1000 |} 0 w0
          = (first.1, PublishFailed)) as Hfirst by (by vm_compute).
  split; [by vm_compute|].
  exact (proj1 (failed_publish_is_not_retried 500 {| msg_timestamp := Some 1000 |} 0
                  w0 first.1 Hfirst)).
Defined.

(** X9.  The first call on a Redis that holds no timestamp and no cached
    leaderboard publishes, whatever the throttle window and the time: the
    update carries the snapshot with its user names, the time of the call
    and the checksum, it lists every entry as a new entrant, and the
    snapshot and the time are written to Redis. *)
Theorem first_call_publishes (throttle : Z) (message : ChangeMessage) (now : Z)
    (w : World) :
  RedisService.last_update (redis w) = None →
  RedisService.leaderboard_cache (redis w) = None →
  producer (kafka w) = true →
  let top := RedisService.getTopPlayers 10 (redis w) in
  ∃ w' update,
    processLeaderboardChange throttle message now w = (w', Published update)
    ∧ plain <$> leaderboard update = top
    ∧ m_timestamp update = current_time message now
    ∧ m_checksum update = generateChecksum top
    ∧ changedRankings update
      = (fun e => {| c_player_id := player_id e; oldRank := None;
                     newRank := rank e |}) <$> top
    ∧ RedisService.leaderboard_cache (redis w')
      = Some {| top10 := top; timestamp := current_time message now;
                checksum := generateChecksum top |}
    ∧ RedisService.last_update (redis w') = Some (current_time message now).
Proof.
  intros Hl Hc Hp top. unfold processLeaderboardChange. cbv zeta.
  unfold RedisService.getLastUpdateTimestamp, RedisService.getCachedLeaderboard.
  rewrite Hl, Hc. fold top. unfold enhanceLeaderboardWithUserDetails.
  destruct (enhance_fold (db w) top [] (redis w)) as (es & r & -> & Hplain & _).
  unfold publishLeaderboardUpdate. rewrite Hp.
  eexists _, _. split; [reflexivity|]. simpl.
  split_and!; try done. apply changes_from_nothing.
Qed.

Lemma first_call_publishes_witness :
  let w0 :=
    {| redis := RankingStore.run [RankingStore.Upsert "alice" 1000] RedisService.empty;
       kafka := {| producer := true; leaderboard_updates := [] |};
       db := {| DatabaseService.faults := []; DatabaseService.fs_writable := true;
                DatabaseService.user_table := DatabaseService.mock_user_table;
                DatabaseService.clock := "2025-11-08T12:00:00.000Z";
                DatabaseService.saved := [];
                DatabaseService.dead_letter_queue := None |} |} in
  ∃ w' update,
    processLeaderboardChange 500 {| msg_timestamp := None |} 42 w0
    = (w', Published update)
    ∧ m_timestamp update = 42.
Proof.
  intros w0.
  destruct (first_call_publishes 500 {| msg_timestamp := None |} 42 w0
              eq_refl eq_refl eq_refl)
    as (w' & update & H & _ & Ht & _).
  by exists w', update.
Defined.

End ProcessingMore.

(** ** The statistics endpoint after a processing pass *)
Section Statistics.

Import KafkaService LeaderboardProcessingService ScoreHandlers.

Lemma checksum_not_empty (l : list LeaderboardEntry) :
  String.eqb (generateChecksum l) "" = false.
Proof.
  apply String.eqb_neq. intros H.
  pose proof (hexdigest_length (checksum_data l)) as Hlen.
  unfold generateChecksum in H. rewrite H in Hlen. discriminate Hlen.
Qed.

(** X12.  After a call of the processing service that passed the throttle
    and the checksum comparison, whether or not its publish succeeded, the
    statistics endpoint reports the number of ranked players, the checksum
    of the snapshot of that call (never null), and the time of that call,
    or null when that time is 0. *)
Theorem stats_after_processing (throttle : Z) (message : ChangeMessage) (now : Z)
    (w w' : LeaderboardProcessingService.World) (o : Outcome) :
  processLeaderboardChange throttle message now w = (w', o) →
  o ≠ Throttled → o ≠ NoChange →
  getLeaderboardStats (LeaderboardProcessingService.redis w')
  = {| total_players := RedisService.getTotalPlayers (LeaderboardProcessingService.redis w);
       last_update :=
         if current_time message now =? 0 then None
         else Some (current_time message now);
       stats_checksum :=
         Some (generateChecksum
                 (RedisService.getTopPlayers 10 (LeaderboardProcessingService.redis w))) |}.
Proof.
  intros H Ht Hn. apply process_passed in H as (Hc & _ & Hb & _); [|done..].
  unfold getLeaderboardStats, RedisService.getCachedLeaderboard,
    RedisService.getTotalPlayers. cbv zeta.
  rewrite Hc, Hb. simpl. by rewrite checksum_not_empty.
Qed.

Lemma stats_after_processing_witness :
  let w0 :=
    {| LeaderboardProcessingService.redis :=
         RankingStore.run [RankingStore.Upsert "alice" 1000] RedisService.empty;
       LeaderboardProcessingService.kafka :=
         {| producer := true; leaderboard_updates := [] |};
       db := {| DatabaseService.faults := []; DatabaseService.fs_writable := true;
                DatabaseService.user_table := DatabaseService.mock_user_table;
                DatabaseService.clock := "2025-11-08T12:00:00.000Z";
                DatabaseService.saved := [];
                DatabaseService.dead_letter_queue := None |} |} in
  let after := (processLeaderboardChange 500 {| msg_timestamp := Some 0 |} 42 w0).1 in
  total_players (getLeaderboardStats (LeaderboardProcessingService.redis after)) = 1
  ∧ ScoreHandlers.last_update
      (getLeaderboardStats (LeaderboardProcessingService.redis after)) = Some 42.
Proof.
  intros w0 after.
  destruct (processLeaderboardChange 500 {| msg_timestamp := Some 0 |} 42 w0)
    as [w' o] eqn:E.
  assert (o ≠ Throttled ∧ o ≠ NoChange) as [Ht Hn].
  { revert E. vm_compute. intros [= _ <-]. by split. }
  subst after. cbn [fst].
  rewrite (stats_after_processing 500 {| msg_timestamp := Some 0 |} 42 w0 w' o E Ht Hn).
  by vm_compute.
Defined.

End Statistics.

(** ** The first code units of a string *)
Section JavaScriptStrings.

(** On a string of ASCII characters a code unit is a byte. *)
Lemma substring_ascii (n : nat) (s : string) :
  (∀ c, In c (list_ascii_of_string s) → (N_of_ascii c < 128)%N) →
  JSString.substring n s = String.substring 0 n s.
Proof.
  unfold JSString.substring. revert n. induction s as [|c s IH]; intros n H.
  - by destruct n.
  - assert ((N_of_ascii c < 128)%N) as Hc by (apply H; by left).
    cbn [JSString.take_units].
    replace ((128 <=? N_of_ascii c)%N) with false
      by (symmetry; apply N.leb_gt; exact Hc).
    cbn [andb]. destruct n as [|n]; [done|].
    replace ((N_of_ascii c <? 128)%N) with true
      by (symmetry; apply N.ltb_lt; exact Hc).
    cbn [String.substring]. f_equal. apply IH. intros c' Hc'. apply H. by right.
Qed.

(** Characters of two and three bytes are one code unit each. *)
Example substring_two_byte_characters :
  JSString.substring 8 "ééééééééé" = "éééééééé"
  ∧ JSString.substring 8 "中文排行榜玩家一二三" = "中文排行榜玩家一".
Proof. by split. Qed.

(** A character of four bytes is two code units; cut in the middle, its
    first half is kept. *)
Example substring_four_byte_characters :
  JSString.substring 8 "123456😀x" = "123456😀"
  ∧ JSString.substring 8 "1234567😀x" = "1234567" +:+ JSString.replacement.
Proof. by split. Qed.

Example mock_user_of_accented_id :
  DatabaseService.mock_user_table "ééééééééé"
  = Some {| id := "ééééééééé"; username := "user_éééééééé" |}.
Proof. reflexivity. Qed.

End JavaScriptStrings.

(** ** The user names of the enrichment and the user cache *)
Section UserCache.

Import LeaderboardProcessingService LeaderboardQueries.

(** The user the loop finds for an id: the cached one, else the one of
    the database. *)
Let user_of (d : DatabaseService.t) (r : RedisService.t) (p : string) : option User :=
  match RedisService.getCachedUser p r with
  | Some u => Some u
  | None => DatabaseService.getUser p d
  end.

Let named (d : DatabaseService.t) (r : RedisService.t) (entry : LeaderboardEntry)
  : EnhancedLeaderboardEntry :=
  {| e_player_id := player_id entry; e_rank := rank entry; e_score := score entry;
     e_username := username_or_unknown (user_of d r (player_id entry)) |}.

(** The fields of Redis other than the user cache. *)
Let same_board (r r' : RedisService.t) : Prop :=
  RedisService.leaderboard r' = RedisService.leaderboard r
  ∧ RedisService.leaderboard_cache r' = RedisService.leaderboard_cache r
  ∧ RedisService.last_update r' = RedisService.last_update r.

Lemma redis_eq (r r' : RedisService.t) :
  RedisService.leaderboard r' = RedisService.leaderboard r →
  RedisService.leaderboard_cache r' = RedisService.leaderboard_cache r →
  RedisService.last_update r' = RedisService.last_update r →
  (∀ p, RedisService.getCachedUser p r' = RedisService.getCachedUser p r) →
  r' = r.
Proof.
  destruct r, r'. unfold RedisService.getCachedUser. simpl.
  intros -> -> -> H. f_equal. by apply map_eq.
Qed.

Lemma enhance_entry_lookup (d : DatabaseService.t)
    (acc : list EnhancedLeaderboardEntry) (r : RedisService.t)
    (entry : LeaderboardEntry) :
  ∃ r',
    enhance_entry d (acc, r) entry = (acc ++ [named d r entry], r')
    ∧ same_board r r'
    ∧ ∀ p, RedisService.getCachedUser p r'
           = if decide (p = player_id entry) then user_of d r p
             else RedisService.getCachedUser p r.
Proof.
  unfold enhance_entry, named, user_of, same_board.
  destruct (RedisService.getCachedUser (player_id entry) r) as [u|] eqn:Ec.
  - exists r. split_and!; try done. intros p. case_decide; [|done]. subst p.
    by rewrite Ec.
  - destruct (DatabaseService.getUser (player_id entry) d) as [u|] eqn:Ed.
    + exists (RedisService.cacheUser (player_id entry) u r).
      split_and!; try done. intros p.
      unfold RedisService.getCachedUser, RedisService.cacheUser. simpl.
      case_decide as Hp.
      * subst p. rewrite lookup_insert_eq.
        unfold RedisService.getCachedUser in Ec. by rewrite Ec, Ed.
      * by rewrite lookup_insert_ne.
    + exists r. split_and!; try done. intros p. case_decide; [|done]. subst p.
      by rewrite Ec, Ed.
Qed.

Lemma user_of_stable (d : DatabaseService.t) (r r' : RedisService.t) (q : string) :
  (∀ p, RedisService.getCachedUser p r'
        = if decide (p = q) then user_of d r p else RedisService.getCachedUser p r) →
  ∀ p, user_of d r' p = user_of d r p.
Proof.
  intros H p. unfold user_of in *. rewrite H. case_decide; [|done].
  destruct (RedisService.getCachedUser p r); [done|].
  by destruct (DatabaseService.getUser p d).
Qed.

Lemma enhance_fold_lookup (d : DatabaseService.t) (l : list LeaderboardEntry)
    (acc : list EnhancedLeaderboardEntry) (r : RedisService.t) :
  ∃ r',
    List.fold_left (enhance_entry d) l (acc, r) = (acc ++ (named d r <$> l), r')
    ∧ same_board r r'
    ∧ (∀ p, user_of d r' p = user_of d r p)
    ∧ ∀ p, RedisService.getCachedUser p r'
           = if decide (p ∈ player_id <$> l) then user_of d r p
             else RedisService.getCachedUser p r.
Proof.
  revert acc r. induction l as [|x l IH]; intros acc r.
  - exists r. rewrite app_nil_r. by split_and!.
  - destruct (enhance_entry_lookup d acc r x) as (r1 & Hx & (Hb1 & Hb2 & Hb3) & Hc1).
    pose proof (user_of_stable d r r1 _ Hc1) as Hu1.
    destruct (IH (acc ++ [named d r x]) r1) as (r2 & Hl & (Hb4 & Hb5 & Hb6) & Hu2 & Hc2).
    exists r2. split_and!.
    + cbn [List.fold_left]. rewrite Hx, Hl, <- app_assoc, fmap_cons.
      do 2 f_equal. change ([named d r x] ++ ?t) with (named d r x :: t). f_equal.
      apply list_fmap_ext. intros _ e _. unfold named. by rewrite Hu1.
    + unfold same_board. by rewrite Hb4, Hb5, Hb6.
    + intros p. by rewrite Hu2.
    + intros p. rewrite Hc2, Hu1, Hc1, fmap_cons.
      destruct (decide (p ∈ player_id <$> l)) as [Hin|Hnin].
      * rewrite decide_True; [done|]. apply elem_of_cons. by right.
      * destruct (decide (p = player_id x)) as [->|Hne].
        -- rewrite decide_True; [done|]. apply elem_of_cons. by left.
        -- rewrite decide_False; [done|]. rewrite not_elem_of_cons. by split.
Qed.

(** X13.  The enrichment reads the user cache first: each entry gets the
    name of the cached user of its id, however stale, and only without one
    the name of the database user; afterwards the cache holds, for each id
    of the snapshot, the user that was found, and is unchanged for every
    other id, as are the board, the cached leaderboard and the timestamp. *)
Theorem enrichment_reads_cache_first (d : DatabaseService.t)
    (leaderboard : list LeaderboardEntry) (r : RedisService.t) :
  let found p :=
    match RedisService.getCachedUser p r with
    | Some u => Some u
    | None => DatabaseService.getUser p d
    end in
  let result := enhanceLeaderboardWithUserDetails d leaderboard r in
  result.1
  = (fun entry =>
       {| e_player_id := player_id entry; e_rank := rank entry;
          e_score := score entry;
          e_username := username_or_unknown (found (player_id entry)) |})
    <$> leaderboard
  ∧ (∀ p, RedisService.getCachedUser p result.2
          = if decide (p ∈ player_id <$> leaderboard) then found p
            else RedisService.getCachedUser p r)
  ∧ RedisService.leaderboard result.2 = RedisService.leaderboard r
  ∧ RedisService.leaderboard_cache result.2 = RedisService.leaderboard_cache r
  ∧ RedisService.last_update result.2 = RedisService.last_update r.
Proof.
  intros found result. subst result. unfold enhanceLeaderboardWithUserDetails.
  destruct (enhance_fold_lookup d leaderboard [] r)
    as (r' & -> & (Hb1 & Hb2 & Hb3) & _ & Hc).
  simpl. by split_and!.
Qed.

(** X14.  Enriching the same snapshot a second time gives the same entries
    and leaves Redis as the first pass left it: the first pass has cached
    every user the second one looks for. *)
Theorem enrichment_is_idempotent (d : DatabaseService.t)
    (leaderboard : list LeaderboardEntry) (r : RedisService.t) :
  let first := enhanceLeaderboardWithUserDetails d leaderboard r in
  enhanceLeaderboardWithUserDetails d leaderboard first.2 = first.
Proof.
  intros first. subst first. unfold enhanceLeaderboardWithUserDetails.
  destruct (enhance_fold_lookup d leaderboard [] r)
    as (r1 & -> & _ & Hu1 & Hc1).
  cbn [snd].
  destruct (enhance_fold_lookup d leaderboard [] r1)
    as (r2 & -> & (Hb1 & Hb2 & Hb3) & _ & Hc2).
  simpl. f_equal.
  - apply list_fmap_ext. intros _ e _. unfold named. by rewrite Hu1.
  - apply redis_eq; try done. intros p. rewrite Hc2, Hu1.
    case_decide as Hin; [|done]. rewrite Hc1. by rewrite decide_True.
Qed.

(** [Map.set] on the list of entries. *)
Lemma map_set_keys (k : string) (v : User) (m : list (string * User)) :
  NoDup m.*1 → NoDup (map_set k v m).*1.
Proof.
  intros Hnd. unfold map_set.
  destruct (existsb _ m) eqn:E.
  - match goal with |- NoDup ?x => assert (x = m.*1) as ->; [|done] end.
    clear. induction m as [|[k' v'] m IH]; [done|]. simpl.
    destruct (String.eqb_spec k' k) as [->|]; simpl; f_equal; exact IH.
  - rewrite fmap_app. apply NoDup_app. split_and!; [done| |apply NoDup_singleton].
    intros x Hx Hk. apply list_elem_of_singleton in Hk. subst x.
    apply list_elem_of_fmap in Hx as ([k' v'] & Heq & Hin). simpl in Heq. subst k'.
    assert (existsb (fun kv => String.eqb kv.1 k) m = true) as Ht; [|congruence].
    apply existsb_exists. exists (k, v'). split; [by apply list_elem_of_In|].
    apply String.eqb_refl.
Qed.

Lemma map_set_elem (k : string) (v : User) (m : list (string * User))
    (k' : string) (v' : User) :
  (k', v') ∈ map_set k v m ↔ (k' = k ∧ v' = v) ∨ (k' ≠ k ∧ (k', v') ∈ m).
Proof.
  unfold map_set. destruct (existsb _ m) eqn:E.
  - apply existsb_exists in E as ([k0 v0] & Hin & Hk).
    apply String.eqb_eq in Hk. simpl in Hk. subst k0.
    apply list_elem_of_In in Hin.
    change (List.map ?f m) with (f <$> m). rewrite list_elem_of_fmap. split.
    + intros ([k1 v1] & Heq & H1). simpl in Heq.
      destruct (String.eqb_spec k1 k) as [->|Hne].
      * left. by injection Heq as -> ->.
      * right. injection Heq as -> ->. by split.
    + intros [[-> ->]|[Hne H1]].
      * exists (k, v0). split; [|done]. simpl. by rewrite String.eqb_refl.
      * exists (k', v'). split; [|done]. simpl.
        by destruct (String.eqb_spec k' k).
  - rewrite elem_of_app, list_elem_of_singleton. split.
    + intros [H1|[= -> ->]]; [|by left]. right. split; [|done]. intros ->.
      assert (existsb (fun kv => String.eqb kv.1 k) m = true) as Ht; [|congruence].
      apply existsb_exists. exists (k, v'). split; [by apply list_elem_of_In|].
      apply String.eqb_refl.
    + intros [[-> ->]|[_ H1]]; [by right|by left].
Qed.

Lemma getUsers_snoc (userIds : list string) (userId : string) (d : DatabaseService.t) :
  getUsers (userIds ++ [userId]) d
  = map_set userId
      {| id := userId; username := "user_" +:+ JSString.substring 8 userId |}
      (getUsers userIds d).
Proof. unfold getUsers. by rewrite fold_left_app. Qed.

Lemma getUsers_keys (userIds : list string) (d : DatabaseService.t) :
  NoDup (getUsers userIds d).*1.
Proof.
  induction userIds as [|x l IH] using rev_ind; [apply NoDup_nil_2|].
  rewrite getUsers_snoc. by apply map_set_keys.
Qed.

Lemma getUsers_elem (userIds : list string) (d : DatabaseService.t)
    (k : string) (u : User) :
  (k, u) ∈ getUsers userIds d
  ↔ k ∈ userIds ∧ DatabaseService.mock_user_table k = Some u.
Proof.
  induction userIds as [|x l IH] using rev_ind.
  - split; [intros H; by apply elem_of_nil in H|intros [H _]; by apply elem_of_nil in H].
  - rewrite getUsers_snoc, map_set_elem, IH, elem_of_app, list_elem_of_singleton.
    unfold DatabaseService.mock_user_table. split.
    + intros [[-> ->]|[Hne [Hin Hu]]]; [by split; [right|]|by split; [left|]].
    + intros [[Hin| ->] Hu].
      * destruct (decide (k = x)) as [->|Hne]; [left|right; by split_and!].
        split; [done|]. by injection Hu as <-.
      * left. split; [done|]. by injection Hu as <-.
Qed.

Lemma cache_all_lookup (m : list (string * User)) (r : RedisService.t) :
  NoDup m.*1 →
  let r' := List.fold_left (fun r kv => RedisService.cacheUser kv.1 kv.2 r) m r in
  same_board r r'
  ∧ (∀ p u, (p, u) ∈ m → RedisService.getCachedUser p r' = Some u)
  ∧ (∀ p, p ∉ m.*1 → RedisService.getCachedUser p r' = RedisService.getCachedUser p r).
Proof.
  revert r. induction m as [|[k v] m IH]; intros r Hnd; cbv zeta.
  - split_and!; try done. intros p u H. by apply elem_of_nil in H.
  - rewrite fmap_cons in Hnd. apply NoDup_cons in Hnd as [Hk Hm]. simpl in Hk.
    cbn [List.fold_left fst snd].
    destruct (IH (RedisService.cacheUser k v r) Hm) as ((Hb1 & Hb2 & Hb3) & Hin & Hout).
    split_and!.
    + unfold same_board. by rewrite Hb1, Hb2, Hb3.
    + intros p u Hp. apply elem_of_cons in Hp as [[= -> ->]|Hp]; [|by apply Hin].
      rewrite Hout by done.
      unfold RedisService.getCachedUser, RedisService.cacheUser. simpl.
      apply lookup_insert_eq.
    + intros p Hp. rewrite fmap_cons, not_elem_of_cons in Hp. destruct Hp as [Hne Hp].
      rewrite Hout by done.
      unfold RedisService.getCachedUser, RedisService.cacheUser. simpl.
      by apply lookup_insert_ne.
Qed.

Lemma precacheUsers_lookup (userIds : list string) (d : DatabaseService.t)
    (r : RedisService.t) :
  same_board r (precacheUsers userIds d r)
  ∧ ∀ p, RedisService.getCachedUser p (precacheUsers userIds d r)
         = if decide (p ∈ userIds) then DatabaseService.mock_user_table p
           else RedisService.getCachedUser p r.
Proof.
  unfold precacheUsers.
  destruct (cache_all_lookup (getUsers userIds d) r (getUsers_keys userIds d))
    as (Hb & Hin & Hout).
  split; [done|]. intros p. case_decide as Hp.
  - apply Hin, getUsers_elem. by split.
  - apply Hout. intros Hk. apply list_elem_of_fmap in Hk as ([k u] & -> & Hk).
    apply getUsers_elem in Hk as [Hk _]. by apply Hp.
Qed.

(** X15.  Pre-caching overwrites: after [precacheUsers] the user cache
    holds, for every id of the list, the user the database makes up for
    it, named [user_] followed by the first eight UTF-16 code units of the
    id (whatever was cached before), and for every other id what it held;
    the board, the cached leaderboard and the timestamp are untouched.
    The map of [getUsers] has one entry for each distinct id. *)
Theorem precache_overwrites_listed_users (userIds : list string)
    (d : DatabaseService.t) (r : RedisService.t) :
  let r' := precacheUsers userIds d r in
  (∀ p, RedisService.getCachedUser p r'
        = if decide (p ∈ userIds) then
            Some {| id := p; username := "user_" +:+ JSString.substring 8 p |}
          else RedisService.getCachedUser p r)
  ∧ RedisService.leaderboard r' = RedisService.leaderboard r
  ∧ RedisService.leaderboard_cache r' = RedisService.leaderboard_cache r
  ∧ RedisService.last_update r' = RedisService.last_update r
  ∧ NoDup (getUsers userIds d).*1
  ∧ ∀ p, p ∈ (getUsers userIds d).*1 ↔ p ∈ userIds.
Proof.
  intros r'. subst r'.
  destruct (precacheUsers_lookup userIds d r) as ((Hb1 & Hb2 & Hb3) & Hc).
  split_and!; try done.
  - apply getUsers_keys.
  - intros p. rewrite list_elem_of_fmap. split.
    + intros ([k u] & -> & Hk). by apply getUsers_elem in Hk as [Hk _].
    + intros Hp. eexists (p, _). split; [done|]. apply getUsers_elem. by split.
Qed.

(** X16.  After the ids of a snapshot were pre-cached, its enrichment does
    not ask the database and writes nothing: whatever the users table
    holds, every entry is named [user_] followed by the first eight
    UTF-16 code units of its id, and Redis is left as the pre-caching left
    it. *)
Theorem precached_enrichment_skips_database (userIds : list string)
    (d0 d : DatabaseService.t) (leaderboard : list LeaderboardEntry)
    (r : RedisService.t) :
  (∀ e, e ∈ leaderboard → player_id e ∈ userIds) →
  enhanceLeaderboardWithUserDetails d leaderboard (precacheUsers userIds d0 r)
  = ((fun entry =>
        {| e_player_id := player_id entry; e_rank := rank entry;
           e_score := score entry;
           e_username := "user_" +:+ JSString.substring 8 (player_id entry) |})
       <$> leaderboard,
     precacheUsers userIds d0 r).
Proof.
  intros Hids. unfold enhanceLeaderboardWithUserDetails.
  destruct (precacheUsers_lookup userIds d0 r) as (_ & Hc).
  destruct (enhance_fold_lookup d leaderboard [] (precacheUsers userIds d0 r))
    as (r2 & -> & (Hb1 & Hb2 & Hb3) & _ & Hc2).
  simpl. f_equal.
  - apply list_fmap_ext. intros i e He. unfold named, user_of.
    rewrite Hc, decide_True by (apply Hids; by eapply list_elem_of_lookup_2).
    done.
  - apply redis_eq; try done. intros p. rewrite Hc2.
    case_decide as Hin; [|done]. unfold user_of.
    apply list_elem_of_fmap in Hin as (e & Heq & He). subst p.
    by rewrite Hc, decide_True by by apply Hids.
Qed.

Lemma precached_enrichment_skips_database_witness :
  let d :=
    {| DatabaseService.faults := []; DatabaseService.fs_writable := true;
       DatabaseService.user_table := fun _ => None;
       DatabaseService.clock := "2025-11-08T12:00:00.000Z";
       DatabaseService.saved := [];
       DatabaseService.dead_letter_queue := None |} in
  let board := [ {| player_id := "ééééééééé"; rank := 1; score := 2000 |};
                 {| player_id := "alice-0123456789"; rank := 2; score := 1000 |} ] in
  (enhanceLeaderboardWithUserDetails d board
     (precacheUsers ["alice-0123456789"; "ééééééééé"] d RedisService.empty)).1
  = [ {| e_player_id := "ééééééééé"; e_rank := 1; e_score := 2000;
         e_username := "user_éééééééé" |};
      {| e_player_id := "alice-0123456789"; e_rank := 2; e_score := 1000;
         e_username := "user_alice-01" |} ].
Proof.
  intros d board.
  rewrite (precached_enrichment_skips_database ["alice-0123456789"; "ééééééééé"]
             d d board RedisService.empty).
  - reflexivity.
  - intros e He. apply elem_of_cons in He as [->|He].
    + apply elem_of_cons. right. apply list_elem_of_singleton. reflexivity.
    + apply list_elem_of_singleton in He. subst e.
      apply elem_of_cons. left. reflexivity.
Defined.

End UserCache.

(** ** A run of submissions through the batch service *)
Section BatchRunFacts.

Import DatabaseService BatchSavingService BatchRuns.

(** The submissions held by the sinks. *)
Let sinks (e : Env) : list ScoreSubmission :=
  concat (saved (dbService e))
  ++ concat (submissions <$> read_queue (dbService e))
  ++ concat (lost e).

Lemma held_sinks (s : BatchSavingService.t) (e : Env) :
  held s e = sinks e ++ batch s.
Proof. unfold held, sinks. by rewrite <- !app_assoc. Qed.

Lemma read_queue_eq (d d' : DatabaseService.t) :
  dead_letter_queue d' = dead_letter_queue d → read_queue d' = read_queue d.
Proof. unfold read_queue. by intros ->. Qed.

Lemma save_loop_sinks (b : list ScoreSubmission) (e : Env) :
  ∃ e', save_loop (S (Z.to_nat maxRetries)) 0 b e = Some e'
        ∧ sinks e' ≡ₚ sinks e ++ b.
Proof.
  destruct (save_loop_resolves b e) as (e' & He & _ & H).
  exists e'. split; [done|]. unfold sinks.
  destruct H as [(Hs & Hd & Hl)|[(Hs & Hd & Hl)|(Hs & Hd & Hl)]].
  - rewrite Hs, Hl, (read_queue_eq _ _ Hd), concat_app. simpl.
    rewrite app_nil_r. solve_Permutation.
  - rewrite Hs, Hl. unfold read_queue at 1. rewrite Hd, fmap_app, concat_app.
    simpl. rewrite app_nil_r. solve_Permutation.
  - rewrite Hs, Hl, (read_queue_eq _ _ Hd), concat_app. simpl.
    rewrite app_nil_r. solve_Permutation.
Qed.

Lemma flushBatch_held (s : BatchSavingService.t) (e : Env) :
  ∃ s' e', flushBatch s e = Some (s', e') ∧ held s' e' ≡ₚ held s e.
Proof.
  unfold flushBatch.
  destruct ((length (batch s) =? 0)%nat || saveInProgress s); [by eexists _, _|].
  destruct (save_loop_sinks (batch s) e) as (e' & -> & Hp).
  eexists _, _. split; [done|]. rewrite !held_sinks. simpl.
  by rewrite app_nil_r.
Qed.

Lemma addToBatch_held (sub : ScoreSubmission) (s : BatchSavingService.t) (e : Env) :
  ∃ s' e', addToBatch sub s e = Some (s', e') ∧ held s' e' ≡ₚ held s e ++ [sub].
Proof.
  unfold addToBatch. cbv zeta. cbn [batch batchSize].
  set (s1 := {| batch := batch s ++ [sub]; batchSize := batchSize s;
                saveInProgress := saveInProgress s |}).
  assert (held s1 e = held s e ++ [sub]) as <-.
  { rewrite !held_sinks. simpl. by rewrite app_assoc. }
  destruct (batchSize s <=? Z.of_nat (length (batch s ++ [sub]))).
  - apply flushBatch_held.
  - by eexists _, _.
Qed.

(** X20.  No submission vanishes and none is duplicated, whatever the
    sink does: after any sequence of submissions, each call awaited before
    the next, every call has returned, and the submissions that are saved,
    in a dead letter record, reported as lost or still in the batch are
    the ones held before together with the ones submitted. *)
Theorem no_submission_vanishes (subs : list ScoreSubmission)
    (s : BatchSavingService.t) (e : Env) :
  ∃ s' e', addAll subs s e = Some (s', e') ∧ held s' e' ≡ₚ held s e ++ subs.
Proof.
  unfold addAll. revert s e. induction subs as [|sub subs IH]; intros s e.
  - exists s, e. by rewrite app_nil_r.
  - destruct (addToBatch_held sub s e) as (s1 & e1 & H1 & Hp1).
    destruct (IH s1 e1) as (s2 & e2 & H2 & Hp2).
    exists s2, e2. cbn [List.fold_left]. rewrite H1. split; [done|].
    rewrite Hp2, Hp1. by rewrite <- app_assoc.
Qed.

(** One submission added when the sink does not fail. *)
Lemma addToBatch_healthy (sub : ScoreSubmission) (s : BatchSavingService.t) (e : Env) :
  faults (dbService e) = [] → saveInProgress s = false →
  Z.of_nat (length (batch s)) < batchSize s →
  ∃ chunk s' e',
    addToBatch sub s e = Some (s', e')
    ∧ faults (dbService e') = [] ∧ saveInProgress s' = false
    ∧ batchSize s' = batchSize s
    ∧ Z.of_nat (length (batch s')) < batchSize s
    ∧ saved (dbService e') = saved (dbService e) ++ chunk
    ∧ Forall (fun c => Z.of_nat (length c) = batchSize s) chunk
    ∧ concat chunk ++ batch s' = batch s ++ [sub]
    ∧ slept e' = slept e ∧ lost e' = lost e
    ∧ dead_letter_queue (dbService e') = dead_letter_queue (dbService e).
Proof.
  intros Hf Hp Hlen. unfold addToBatch. cbv zeta. cbn [batch batchSize].
  destruct (Z.leb_spec (batchSize s) (Z.of_nat (length (batch s ++ [sub]))))
    as [Hfull|Hroom].
  - unfold flushBatch. cbn [batch batchSize saveInProgress].
    rewrite Hp, orb_false_r.
    assert ((length (batch s ++ [sub]) =? 0)%nat = false) as ->.
    { apply Nat.eqb_neq. rewrite length_app. simpl. lia. }
    destruct e as [[fl fw ut cl sv dq] sl lo]. simpl in Hf. subst fl.
    exists [batch s ++ [sub]]. eexists _, _. split; [reflexivity|]. simpl.
    split_and!; try done; try lia.
    + apply Forall_singleton. rewrite length_app in *. simpl in *. lia.
    + by rewrite !app_nil_r.
  - exists []. eexists _, _. split; [reflexivity|]. simpl.
    split_and!; try done. by rewrite app_nil_r.
Qed.

(** X21.  While the sink does not fail, the service saves the submissions
    in batches of exactly [batchSize], in the order they came in, and
    keeps the rest, fewer than [batchSize], in the batch; it never sleeps,
    and writes no dead letter record. *)
Theorem healthy_sink_saves_full_batches (subs : list ScoreSubmission)
    (s : BatchSavingService.t) (e : Env) :
  faults (dbService e) = [] → saveInProgress s = false →
  Z.of_nat (length (batch s)) < batchSize s →
  ∃ chunks s' e',
    addAll subs s e = Some (s', e')
    ∧ saved (dbService e') = saved (dbService e) ++ chunks
    ∧ Forall (fun c => Z.of_nat (length c) = batchSize s) chunks
    ∧ concat chunks ++ batch s' = batch s ++ subs
    ∧ Z.of_nat (length (batch s')) < batchSize s
    ∧ slept e' = slept e ∧ lost e' = lost e
    ∧ dead_letter_queue (dbService e') = dead_letter_queue (dbService e).
Proof.
  unfold addAll. revert s e. induction subs as [|sub subs IH]; intros s e Hf Hp Hlen.
  - exists [], s, e. rewrite !app_nil_r. by split_and!.
  - destruct (addToBatch_healthy sub s e Hf Hp Hlen)
      as (c1 & s1 & e1 & H1 & Hf1 & Hp1 & Hn1 & Hlen1 & Hs1 & Hc1 & Hb1 & Hsl1 & Hlo1 & Hd1).
    rewrite <- Hn1 in Hlen1.
    destruct (IH s1 e1 Hf1 Hp1 Hlen1)
      as (c2 & s2 & e2 & H2 & Hs2 & Hc2 & Hb2 & Hlen2 & Hsl2 & Hlo2 & Hd2).
    exists (c1 ++ c2), s2, e2. cbn [List.fold_left]. rewrite H1.
    split_and!; try congruence.
    + by rewrite Hs2, Hs1, app_assoc.
    + apply Forall_app. split; [done|]. by rewrite <- Hn1.
    + rewrite concat_app, <- app_assoc, Hb2, app_assoc, Hb1.
      by rewrite <- app_assoc.
Qed.

Lemma healthy_sink_saves_full_batches_witness :
  let sub := fun n => {| sub_player_id := "alice"; sub_score := n;
                         sub_timestamp := "2025-11-08T12:00:00.000Z" |} in
  let s := {| batch := []; batchSize := 2; saveInProgress := false |} in
  let e := {| dbService := {| faults := []; fs_writable := true;
                              user_table := mock_user_table;
                              clock := "2025-11-08T12:00:07.000Z";
                              saved := []; dead_letter_queue := None |};
              slept := []; lost := [] |} in
  ∃ chunks s' e',
    addAll [sub 1; sub 2; sub 3] s e = Some (s', e')
    ∧ saved (dbService e') = chunks
    ∧ concat chunks ++ batch s' = [sub 1; sub 2; sub 3].
Proof.
  intros sub s e.
  destruct (healthy_sink_saves_full_batches [sub 1; sub 2; sub 3] s e)
    as (chunks & s' & e' & H & Hs & _ & Hc & _); [done|done|simpl; lia|].
  by exists chunks, s', e'.
Defined.

(** The loop after [k] failed calls followed by a call that succeeds. *)
Lemma save_loop_transient (b : list ScoreSubmission) (e : Env) (k : nat)
    (rest : list bool) :
  (k < 3)%nat → faults (dbService e) = replicate k true ++ rest →
  head rest ≠ Some true →
  ∃ e', save_loop (S (Z.to_nat maxRetries)) 0 b e = Some e'
        ∧ saved (dbService e') = saved (dbService e) ++ [b]
        ∧ slept e' = slept e ++ ((fun i => retryDelay * 2 ^ Z.of_nat i) <$> seq 0 k)
        ∧ faults (dbService e') = tail rest
        ∧ dead_letter_queue (dbService e') = dead_letter_queue (dbService e)
        ∧ lost e' = lost e
        ∧ fs_writable (dbService e') = fs_writable (dbService e).
Proof.
  intros Hk Hf Hr. destruct e as [[fl fw ut cl sv dq] sl lo]. simpl in *. subst fl.
  destruct rest as [|[] rest]; [|done|];
    destruct k as [|[|[|k]]]; try lia;
    (eexists; split; [reflexivity|]; simpl; split_and!; try done;
     by rewrite ?app_nil_r, <- ?app_assoc).
Qed.

(** X22.  A sink that fails fewer than three times in a row delays the
    batch but loses nothing: after [k] failed calls and a call that
    succeeds the batch is saved once, the service has slept 1000 ms after
    the first failure and 2000 ms after the second, and nothing is written
    to the dead letter file or reported as lost. *)
Theorem transient_failures_are_retried (s : BatchSavingService.t) (e : Env)
    (k : nat) (rest : list bool) :
  batch s ≠ [] → saveInProgress s = false →
  (k < 3)%nat → faults (dbService e) = replicate k true ++ rest →
  head rest ≠ Some true →
  ∃ s' e',
    flushBatch s e = Some (s', e')
    ∧ batch s' = [] ∧ saveInProgress s' = false
    ∧ saved (dbService e') = saved (dbService e) ++ [batch s]
    ∧ slept e' = slept e ++ take k [1000; 2000]
    ∧ faults (dbService e') = tail rest
    ∧ dead_letter_queue (dbService e') = dead_letter_queue (dbService e)
    ∧ lost e' = lost e.
Proof.
  intros Hb Hp Hk Hf Hr. unfold flushBatch. rewrite Hp, orb_false_r.
  destruct (batch s) as [|sub b] eqn:E; [done|]. cbn [length Nat.eqb].
  destruct (save_loop_transient (sub :: b) e k rest Hk Hf Hr)
    as (e' & -> & Hs & Hsl & Hfl & Hd & Hl & _).
  eexists _, e'. split; [reflexivity|]. simpl. split_and!; try done.
  rewrite Hsl. f_equal. destruct k as [|[|[|k]]]; try lia; reflexivity.
Qed.

Lemma transient_failures_are_retried_witness :
  let sub := {| sub_player_id := "alice"; sub_score := 1000;
                sub_timestamp := "2025-11-08T12:00:00.000Z" |} in
  let s := {| batch := [sub]; batchSize := 100; saveInProgress := false |} in
  let e := {| dbService := {| faults := [true; true; false; true]; fs_writable := false;
                              user_table := mock_user_table;
                              clock := "2025-11-08T12:00:07.000Z";
                              saved := []; dead_letter_queue := None |};
              slept := []; lost := [] |} in
  ∃ s' e',
    flushBatch s e = Some (s', e')
    ∧ saved (dbService e') = [[sub]]
    ∧ slept e' = [1000; 2000]
    ∧ faults (dbService e') = [true].
Proof.
  intros sub s e.
  destruct (transient_failures_are_retried s e 2 [false; true])
    as (s' & e' & H & _ & _ & Hs & Hsl & Hf & _); [done|done|lia|done|done|].
  by exists s', e'.
Defined.

(** What one submission adds to the sinks, whatever the sink does. *)
Lemma addToBatch_grows (sub : ScoreSubmission) (s : BatchSavingService.t) (e : Env) :
  saveInProgress s = false →
  Z.of_nat (length (batch s)) < batchSize s →
  ∃ s' e' sv dl lo,
    addToBatch sub s e = Some (s', e')
    ∧ saveInProgress s' = false ∧ batchSize s' = batchSize s
    ∧ Z.of_nat (length (batch s')) < batchSize s
    ∧ saved (dbService e') = saved (dbService e) ++ sv
    ∧ read_queue (dbService e') = read_queue (dbService e) ++ dl
    ∧ lost e' = lost e ++ lo
    ∧ Forall (fun c => Z.of_nat (length c) = batchSize s) (sv ++ lo)
    ∧ Forall (fun r => Z.of_nat (length (submissions r)) = batchSize s
                       ∧ count r = batchSize s) dl.
Proof.
  intros Hp Hlen. unfold addToBatch. cbv zeta. cbn [batch batchSize].
  destruct (Z.leb_spec (batchSize s) (Z.of_nat (length (batch s ++ [sub]))))
    as [Hfull|Hroom].
  - unfold flushBatch. cbn [batch batchSize saveInProgress].
    rewrite Hp, orb_false_r.
    assert ((length (batch s ++ [sub]) =? 0)%nat = false) as ->.
    { apply Nat.eqb_neq. rewrite length_app. simpl. lia. }
    assert (Z.of_nat (length (batch s ++ [sub])) = batchSize s) as Hn.
    { rewrite length_app in *. simpl in *. lia. }
    destruct (save_loop_resolves (batch s ++ [sub]) e) as (e' & -> & _ & H).
    destruct H as [(Hs & Hd & Hl)|[(Hs & Hd & Hl)|(Hs & Hd & Hl)]].
    + eexists _, e', [batch s ++ [sub]], [], []. split; [reflexivity|]. simpl.
      rewrite !app_nil_r, (read_queue_eq _ _ Hd).
      split_and!; try done; try lia. by apply Forall_singleton.
    + eexists _, e', [], [_], []. split; [reflexivity|]. simpl.
      rewrite !app_nil_r. unfold read_queue at 1. rewrite Hd.
      split_and!; try done; try lia. apply Forall_singleton. simpl. by split.
    + eexists _, e', [], [], [batch s ++ [sub]]. split; [reflexivity|]. simpl.
      rewrite !app_nil_r, (read_queue_eq _ _ Hd).
      split_and!; try done; try lia. by apply Forall_singleton.
  - eexists _, e, [], [], []. split; [reflexivity|]. simpl.
    rewrite !app_nil_r. by split_and!.
Qed.

(** X23.  Whatever the sink does, the stores only grow and every batch
    that leaves the service is full: the saved batches, the dead letter
    records and the lost batches present before a run are still there
    after it, in place; each batch added to one of them has exactly
    [batchSize] submissions, and each new dead letter record has that
    number as its [count]. *)
Theorem every_flushed_batch_is_full (subs : list ScoreSubmission)
    (s : BatchSavingService.t) (e : Env) :
  saveInProgress s = false →
  Z.of_nat (length (batch s)) < batchSize s →
  ∃ s' e' sv dl lo,
    addAll subs s e = Some (s', e')
    ∧ Z.of_nat (length (batch s')) < batchSize s
    ∧ saved (dbService e') = saved (dbService e) ++ sv
    ∧ read_queue (dbService e') = read_queue (dbService e) ++ dl
    ∧ lost e' = lost e ++ lo
    ∧ Forall (fun c => Z.of_nat (length c) = batchSize s) (sv ++ lo)
    ∧ Forall (fun r => Z.of_nat (length (submissions r)) = batchSize s
                       ∧ count r = batchSize s) dl.
Proof.
  unfold addAll. revert s e. induction subs as [|sub subs IH]; intros s e Hp Hlen.
  - exists s, e, [], [], []. rewrite !app_nil_r. by split_and!.
  - destruct (addToBatch_grows sub s e Hp Hlen)
      as (s1 & e1 & sv1 & dl1 & lo1 & H1 & Hp1 & Hn1 & Hlen1 & Hs1 & Hd1 & Hl1
          & Hf1 & Hc1).
    rewrite <- Hn1 in Hlen1.
    destruct (IH s1 e1 Hp1 Hlen1)
      as (s2 & e2 & sv2 & dl2 & lo2 & H2 & Hlen2 & Hs2 & Hd2 & Hl2 & Hf2 & Hc2).
    rewrite Hn1 in Hlen2, Hf2, Hc2.
    exists s2, e2, (sv1 ++ sv2), (dl1 ++ dl2), (lo1 ++ lo2).
    cbn [List.fold_left]. rewrite H1.
    split_and!; try done.
    + by rewrite Hs2, Hs1, app_assoc.
    + by rewrite Hd2, Hd1, app_assoc.
    + by rewrite Hl2, Hl1, app_assoc.
    + apply Forall_app in Hf1 as [? ?]. apply Forall_app in Hf2 as [? ?].
      rewrite !Forall_app. by split_and!.
    + apply Forall_app. by split.
Qed.

Lemma every_flushed_batch_is_full_witness :
  let sub := fun n => {| sub_player_id := "alice"; sub_score := n;
                         sub_timestamp := "2025-11-08T12:00:00.000Z" |} in
  let s := {| batch := []; batchSize := 2; saveInProgress := false |} in
  let e := {| dbService := {| faults := [true; true; true; false]; fs_writable := true;
                              user_table := mock_user_table;
                              clock := "2025-11-08T12:00:07.000Z";
                              saved := []; dead_letter_queue := None |};
              slept := []; lost := [] |} in
  ∃ s' e' sv dl,
    addAll [sub 1; sub 2; sub 3; sub 4] s e = Some (s', e')
    ∧ saved (dbService e') = sv ∧ read_queue (dbService e') = dl
    ∧ Forall (fun r => count r = 2) dl.
Proof.
  intros sub s e.
  destruct (every_flushed_batch_is_full [sub 1; sub 2; sub 3; sub 4] s e)
    as (s' & e' & sv & dl & lo & H & _ & Hs & Hd & _ & _ & Hc);
    [done|simpl; lia|].
  exists s', e', sv, dl. split_and!; try done.
  eapply Forall_impl; [exact Hc|]. by intros r [_ Hr].
Defined.

Lemma addToBatch_idle (sub : ScoreSubmission) (s s' : BatchSavingService.t)
    (e e' : Env) :
  saveInProgress s = false → addToBatch sub s e = Some (s', e') →
  saveInProgress s' = false.
Proof.
  intros Hp. unfold addToBatch, flushBatch. cbv zeta. cbn [batch batchSize saveInProgress].
  destruct (batchSize s <=? _); [|by intros [= <- <-]].
  destruct (_ || _); [by intros [= <- <-]|].
  destruct (save_loop _ _ _ _); [|done]. by intros [= <- <-].
Qed.

Lemma addAll_idle (subs : list ScoreSubmission) (s s' : BatchSavingService.t)
    (e e' : Env) :
  saveInProgress s = false → addAll subs s e = Some (s', e') →
  saveInProgress s' = false.
Proof.
  unfold addAll. revert s e. induction subs as [|sub subs IH]; intros s e Hp.
  - by intros [= <- <-].
  - cbn [List.fold_left].
    destruct (addToBatch_held sub s e) as (s1 & e1 & H1 & _). rewrite H1.
    apply IH. by eapply addToBatch_idle.
Qed.

(** X27.  A run that ends with the flush of the shutdown leaves nothing in
    memory: after any sequence of submissions followed by [forceFlush],
    whatever the sink does, the batch is empty, also when it held fewer
    than [batchSize] submissions, and every submission held before or
    submitted during the run is saved, in a dead letter record or
    reported as lost, once. *)
Theorem shutdown_flush_empties_batch (subs : list ScoreSubmission)
    (s : BatchSavingService.t) (e : Env) :
  saveInProgress s = false →
  ∃ s1 e1 s2 e2,
    addAll subs s e = Some (s1, e1)
    ∧ forceFlush s1 e1 = Some (s2, e2)
    ∧ batch s2 = []
    ∧ concat (saved (dbService e2))
      ++ concat (submissions <$> read_queue (dbService e2))
      ++ concat (lost e2)
      ≡ₚ held s e ++ subs.
Proof.
  intros Hp.
  assert (∃ s1 e1, addAll subs s e = Some (s1, e1) ∧ held s1 e1 ≡ₚ held s e ++ subs)
    as (s1 & e1 & H1 & Hheld).
  { unfold addAll. clear Hp. revert s e.
    induction subs as [|sub subs IH]; intros s e.
    - exists s, e. by rewrite app_nil_r.
    - destruct (addToBatch_held sub s e) as (s0 & e0 & H0 & Hp0).
      destruct (IH s0 e0) as (s1 & e1 & H1 & Hp1).
      exists s1, e1. cbn [List.fold_left]. rewrite H0. split; [done|].
      rewrite Hp1, Hp0. by rewrite <- app_assoc. }
  pose proof (addAll_idle subs s s1 e e1 Hp H1) as Hp1.
  exists s1, e1. unfold forceFlush, flushBatch. rewrite Hp1, orb_false_r.
  rewrite held_sinks in Hheld. fold (sinks e1) in Hheld.
  destruct (batch s1) as [|sub b] eqn:Eb.
  - exists s1, e1. simpl. split_and!; try done.
    rewrite app_nil_r in Hheld. exact Hheld.
  - cbn [length Nat.ltb Nat.leb Nat.eqb].
    destruct (save_loop_sinks (sub :: b) e1) as (e2 & -> & Hs).
    eexists _, e2. split_and!; try done.
    fold (sinks e2). by rewrite Hs.
Qed.

Lemma shutdown_flush_empties_batch_witness :
  let sub := fun n => {| sub_player_id := "alice"; sub_score := n;
                         sub_timestamp := "2025-11-08T12:00:00.000Z" |} in
  let s := {| batch := []; batchSize := 2; saveInProgress := false |} in
  let e := {| dbService := {| faults := [true; true; true; false]; fs_writable := false;
                              user_table := mock_user_table;
                              clock := "2025-11-08T12:00:07.000Z";
                              saved := []; dead_letter_queue := None |};
              slept := []; lost := [] |} in
  ∃ s1 e1 s2 e2,
    addAll [sub 1; sub 2; sub 3] s e = Some (s1, e1)
    ∧ forceFlush s1 e1 = Some (s2, e2)
    ∧ batch s2 = [].
Proof.
  intros sub s e.
  destruct (shutdown_flush_empties_batch [sub 1; sub 2; sub 3] s e eq_refl)
    as (s1 & e1 & s2 & e2 & H1 & H2 & Hb & _).
  by exists s1, e1, s2, e2.
Defined.

End BatchRunFacts.

(** ** The registry of clients across broadcasts, heartbeats and shutdown *)
Section Registry.

Import WebSocketService WebSocketRegistry.

(** A member of the set survives a loop that deletes the visited clients
    that are not kept. *)
Let survives (keep : WebSocket → bool) (visited : list WebSocket) (c' : WebSocket)
  : bool :=
  forallb (fun c => keep c || negb (cid c' =? cid c)%nat) visited.

Lemma filter_all {A} (f : A → bool) (l : list A) :
  (∀ x, x ∈ l → f x = true) → List.filter f l = l.
Proof.
  induction l as [|x l IH]; intros H; [done|]. simpl.
  rewrite (H x) by (apply elem_of_cons; by left). f_equal.
  apply IH. intros y Hy. apply H, elem_of_cons. by right.
Qed.

Lemma filter_filter_and {A} (f g : A → bool) (l : list A) :
  List.filter f (List.filter g l) = List.filter (fun x => g x && f x) l.
Proof.
  induction l as [|x l IH]; [done|]. simpl.
  destruct (g x); simpl; [|exact IH]. destruct (f x); [|exact IH]. by rewrite IH.
Qed.

Lemma cid_inj (clients : list WebSocket) (a b : WebSocket) :
  NoDup (cid <$> clients) → a ∈ clients → b ∈ clients → cid a = cid b → a = b.
Proof.
  induction clients as [|c l IH]; intros Hnd Ha Hb Heq.
  - by apply elem_of_nil in Ha.
  - rewrite fmap_cons in Hnd. apply NoDup_cons in Hnd as [Hc Hl].
    apply elem_of_cons in Ha as [->|Ha]; apply elem_of_cons in Hb as [->|Hb].
    + done.
    + exfalso. apply Hc. rewrite Heq. by apply list_elem_of_fmap_2.
    + exfalso. apply Hc. rewrite <- Heq. by apply list_elem_of_fmap_2.
    + by apply IH.
Qed.

Lemma survives_member (keep : WebSocket → bool) (clients : list WebSocket)
    (a : WebSocket) :
  NoDup (cid <$> clients) → a ∈ clients → survives keep clients a = keep a.
Proof.
  intros Hnd Ha. unfold survives. destruct (keep a) eqn:Ek.
  - apply forallb_forall. intros c Hc. apply list_elem_of_In in Hc.
    destruct (keep c) eqn:Ekc; [done|]. simpl. apply negb_true_iff, Nat.eqb_neq.
    intros Heq. assert (a = c) as -> by by eapply cid_inj. congruence.
  - destruct (forallb _ clients) eqn:E; [|done].
    rewrite forallb_forall in E. apply list_elem_of_In in Ha.
    specialize (E a Ha). by rewrite Ek, Nat.eqb_refl in E.
Qed.

Lemma survives_filter (keep : WebSocket → bool) (clients : list WebSocket) :
  NoDup (cid <$> clients) →
  List.filter (survives keep clients) clients = List.filter keep clients.
Proof.
  intros Hnd. apply List.filter_ext_in. intros a Ha.
  apply survives_member; [done|]. by apply list_elem_of_In.
Qed.

Lemma broadcast_fold_exact (l : list WebSocket) (acc : BroadcastResult) :
  let res := List.fold_left broadcast_step l acc in
  clients_after res = List.filter (survives is_open l) (clients_after acc)
  ∧ successCount res = successCount acc + Z.of_nat (length (List.filter healthy l))
  ∧ failCount res
    = failCount acc + Z.of_nat (length l) - Z.of_nat (length (List.filter healthy l))
  ∧ sent_to res = sent_to acc ++ (cid <$> List.filter healthy l).
Proof.
  revert acc. induction l as [|c l IH]; intros acc; cbv zeta.
  - simpl. rewrite app_nil_r. split_and!; try lia; try done.
    symmetry. by apply filter_all.
  - cbn [List.fold_left]. destruct (IH (broadcast_step acc c)) as (H1 & H2 & H3 & H4).
    rewrite H1, H2, H3, H4. clear IH H1 H2 H3 H4.
    unfold broadcast_step, healthy, survives. cbn [List.filter forallb length].
    destruct (is_open c) eqn:Eo; [destruct (send_throws c) eqn:Et|];
      cbn [clients_after successCount failCount sent_to andb negb orb length fmap
           list_fmap].
    + split_and!; try lia; done.
    + split_and!; try lia; [done|]. by rewrite <- app_assoc.
    + split_and!; try lia; [|done]. unfold delete. by rewrite filter_filter_and.
Qed.

(** X24.  What a broadcast does with a set of distinct connections: the
    message goes to the clients that are open and whose [send] works, in
    the order of the set, and they are the successes; every other client
    is a failure; the connections that are not open leave the set, and
    all the open ones stay, also those whose [send] raised. *)
Theorem broadcast_accounts_for_every_client (clients : list WebSocket) :
  NoDup (cid <$> clients) →
  let result := broadcast clients in
  sent_to result = cid <$> List.filter healthy clients
  ∧ successCount result = Z.of_nat (length (List.filter healthy clients))
  ∧ failCount result
    = Z.of_nat (length clients) - Z.of_nat (length (List.filter healthy clients))
  ∧ clients_after result = List.filter is_open clients.
Proof.
  intros Hnd result. subst result. unfold broadcast.
  destruct (broadcast_fold_exact clients
    {| clients_after := clients; successCount := 0; failCount := 0; sent_to := [] |})
    as (H1 & H2 & H3 & H4).
  rewrite H1, H2, H3, H4. cbn [clients_after successCount failCount sent_to].
  rewrite (survives_filter is_open clients Hnd). split_and!; try lia; done.
Qed.

Lemma broadcast_accounts_for_every_client_witness :
  let c1 := {| cid := 1; readyState := OPEN; send_throws := false |} in
  let c2 := {| cid := 2; readyState := OPEN; send_throws := true |} in
  let c3 := {| cid := 3; readyState := CLOSING; send_throws := false |} in
  sent_to (broadcast [c1; c2; c3]) = [1%nat]
  ∧ clients_after (broadcast [c1; c2; c3]) = [c1; c2].
Proof.
  intros c1 c2 c3.
  assert (NoDup (cid <$> [c1; c2; c3])) as Hnd.
  { apply (bool_decide_unpack _). vm_compute. exact I. }
  destruct (broadcast_accounts_for_every_client [c1; c2; c3] Hnd)
    as (H1 & _ & _ & H4).
  split; [exact H1|exact H4].
Defined.

Lemma heartbeat_fold_exact (l : list WebSocket) (clients : list WebSocket)
    (attempted : list nat) :
  List.fold_left heartbeat_step l (clients, attempted)
  = (List.filter (survives healthy l) clients,
     attempted ++ (cid <$> List.filter is_open l)).
Proof.
  revert clients attempted. induction l as [|c l IH]; intros clients attempted.
  - simpl. rewrite app_nil_r. f_equal. symmetry. by apply filter_all.
  - cbn [List.fold_left]. unfold heartbeat_step at 2, healthy, survives.
    cbn [List.filter forallb].
    destruct (is_open c) eqn:Eo; [destruct (send_throws c) eqn:Et|];
      rewrite IH; cbn [andb negb orb fmap list_fmap]; f_equal.
    + unfold delete. by rewrite filter_filter_and.
    + by rewrite <- app_assoc.
    + by rewrite <- app_assoc.
    + unfold delete. by rewrite filter_filter_and.
Qed.

(** X25.  A heartbeat on a set of distinct connections calls [send] on
    every open client and leaves in the set exactly the clients that are
    open and whose [send] worked; a broadcast that follows reaches every
    client of the set, fails for none and removes none. *)
Theorem heartbeat_leaves_reachable_clients (clients : list WebSocket) :
  NoDup (cid <$> clients) →
  let live := List.filter healthy clients in
  sendHeartbeat clients = (live, cid <$> List.filter is_open clients)
  ∧ sent_to (broadcast live) = cid <$> live
  ∧ successCount (broadcast live) = Z.of_nat (length live)
  ∧ failCount (broadcast live) = 0
  ∧ clients_after (broadcast live) = live.
Proof.
  intros Hnd live.
  assert (∀ c, c ∈ live → healthy c = true) as Hlive.
  { intros c Hc. apply list_elem_of_In, filter_In in Hc. by destruct Hc. }
  assert (List.filter healthy live = live) as Hh by by apply filter_all.
  split.
  - unfold sendHeartbeat. rewrite heartbeat_fold_exact. simpl.
    by rewrite (survives_filter healthy clients Hnd).
  - unfold broadcast.
    destruct (broadcast_fold_exact live
      {| clients_after := live; successCount := 0; failCount := 0; sent_to := [] |})
      as (H1 & H2 & H3 & H4).
    rewrite H1, H2, H3, H4, Hh. cbn [clients_after successCount failCount sent_to].
    split_and!; try lia; [done|]. apply filter_all. intros c Hc.
    apply forallb_forall. intros c0 Hc0. apply list_elem_of_In, Hlive in Hc0.
    unfold healthy in Hc0. apply andb_true_iff in Hc0 as [-> _]. done.
Qed.

Lemma heartbeat_leaves_reachable_clients_witness :
  let c1 := {| cid := 1; readyState := OPEN; send_throws := false |} in
  let c2 := {| cid := 2; readyState := OPEN; send_throws := true |} in
  let c3 := {| cid := 3; readyState := CLOSED; send_throws := false |} in
  sendHeartbeat [c1; c2; c3] = ([c1], [1; 2]%nat)
  ∧ failCount (broadcast [c1]) = 0.
Proof.
  intros c1 c2 c3.
  assert (NoDup (cid <$> [c1; c2; c3])) as Hnd.
  { apply (bool_decide_unpack _). vm_compute. exact I. }
  destruct (heartbeat_leaves_reachable_clients [c1; c2; c3] Hnd)
    as (H1 & _ & _ & H4 & _).
  split; [exact H1|exact H4].
Defined.

Lemma close_fold (l : list WebSocket) (closed : list nat) :
  List.fold_left
    (fun closed client =>
       if send_throws client then closed else closed ++ [cid client]) l closed
  = closed ++ (cid <$> List.filter (fun c => negb (send_throws c)) l).
Proof.
  revert closed. induction l as [|c l IH]; intros closed; simpl.
  - by rewrite app_nil_r.
  - rewrite IH. destruct (send_throws c); simpl; [done|]. by rewrite <- app_assoc.
Qed.

(** X26.  Shutdown empties the set, but it closes only the connections
    whose [send] of the shutdown message worked: a client whose [send]
    raises is dropped from the set without its [close] being called. *)
Theorem close_skips_clients_whose_send_raises (clients : list WebSocket) :
  getClientCount (close clients).1 = 0
  ∧ (close clients).2 = cid <$> List.filter (fun c => negb (send_throws c)) clients
  ∧ ∀ c, c ∈ clients → send_throws c = true → NoDup (cid <$> clients) →
         cid c ∉ (close clients).2.
Proof.
  unfold close. cbn [fst snd]. rewrite close_fold, app_nil_l.
  split_and!; [done|done|]. intros c Hc Ht Hnd Hin.
  apply list_elem_of_fmap in Hin as (c' & Heq & Hc').
  apply list_elem_of_In, filter_In in Hc' as [Hc' Ht'].
  apply list_elem_of_In in Hc'.
  assert (c = c') as <- by by eapply cid_inj. by rewrite Ht in Ht'.
Qed.

Lemma filter_cid_sublist (f : WebSocket → bool) (clients : list WebSocket) :
  sublist (cid <$> List.filter f clients) (cid <$> clients).
Proof.
  induction clients as [|c l IH]; [done|]. simpl.
  destruct (f c); simpl; [by apply sublist_skip|by apply sublist_cons].
Qed.

Lemma existsb_cid (ws : WebSocket) (clients : list WebSocket) :
  existsb (fun c => (cid c =? cid ws)%nat) clients = true
  ↔ cid ws ∈ cid <$> clients.
Proof.
  rewrite existsb_exists, list_elem_of_fmap. split.
  - intros (c & Hc & Heq). apply Nat.eqb_eq in Heq. exists c.
    split; [done|]. by apply list_elem_of_In.
  - intros (c & Heq & Hc). exists c. split; [by apply list_elem_of_In|].
    by apply Nat.eqb_eq.
Qed.

(** X28.  The handlers of a connection keep the set a set: registering a
    connection and deleting one leave the connections distinct; a
    connection that is registered again is not added a second time, so
    the count goes up by one only for a new connection; and after its
    deletion a connection is not in the set. *)
Theorem registry_keeps_connections_distinct (ws : WebSocket)
    (clients : list WebSocket) :
  NoDup (cid <$> clients) →
  NoDup (cid <$> add ws clients)
  ∧ NoDup (cid <$> delete ws clients)
  ∧ cid ws ∈ (cid <$> add ws clients)
  ∧ (cid ws ∉ cid <$> delete ws clients)
  ∧ getClientCount (add ws clients)
    = getClientCount clients
      + (if bool_decide (cid ws ∈ (cid <$> clients)) then 0 else 1)
  ∧ add ws (add ws clients) = add ws clients.
Proof.
  intros Hnd. pose proof (existsb_cid ws clients) as Hex.
  assert (cid ws ∈ cid <$> add ws clients) as Hin.
  { unfold add. destruct (existsb _ clients); [by apply Hex|].
    rewrite fmap_app, elem_of_app. right. by apply list_elem_of_singleton. }
  split_and!.
  - unfold add. destruct (existsb _ clients) eqn:E; [done|].
    rewrite fmap_app. apply NoDup_app. split_and!; [done| |apply NoDup_singleton].
    intros x Hx Hx'. apply list_elem_of_singleton in Hx'. subst x.
    apply Hex in Hx. congruence.
  - eapply sublist_NoDup; [exact Hnd|]. apply filter_cid_sublist.
  - exact Hin.
  - intros H. apply list_elem_of_fmap in H as (c & Heq & Hc).
    apply elem_of_delete in Hc as [_ Hne]. congruence.
  - unfold add, getClientCount. destruct (existsb _ clients) eqn:E.
    + rewrite bool_decide_eq_true_2 by by apply Hex. lia.
    + rewrite bool_decide_eq_false_2.
      * rewrite length_app. simpl. lia.
      * intros H. apply Hex in H. congruence.
  - apply existsb_cid in Hin. unfold add at 1. by rewrite Hin.
Qed.

Lemma registry_keeps_connections_distinct_witness :
  let c1 := {| cid := 1; readyState := OPEN; send_throws := false |} in
  let c2 := {| cid := 2; readyState := OPEN; send_throws := false |} in
  NoDup (cid <$> add c2 (add c1 [c1])) ∧ getClientCount (add c1 [c1]) = 1.
Proof.
  intros c1 c2.
  assert (NoDup (cid <$> [c1])) as Hnd.
  { apply (bool_decide_unpack _). vm_compute. exact I. }
  split.
  - exact (proj1 (registry_keeps_connections_distinct c2 (add c1 [c1])
                    (proj1 (registry_keeps_connections_distinct c1 [c1] Hnd)))).
  - reflexivity.
Defined.

End Registry.

(** ** From the request to the published update *)
Section Pipeline.

Import KafkaService LeaderboardProcessingService Snapshot.

(** X29.  The path of a score through the service, on a system that has
    not published yet (no timestamp, no cached leaderboard) and whose
    producer is initialised: a valid [POST /scores] puts a change event on
    the topic, and the processing of that event publishes the top 10 of
    the store with the new score in it, at the time the event was sent
    (or, when that reading of the clock is 0, at the time of the
    processing); the submitter has the submitted score in the store. *)
Theorem submitted_score_is_published {Body : Type}
    (validate : Body → list string + ScoreSubmission) (body : Body)
    (sub : ScoreSubmission) (now1 now2 now3 now4 throttle : Z)
    (w0 : ScoreHandlers.World) (d : DatabaseService.t) :
  validate body = inr sub →
  producer (KafkaTopics.service (ScoreHandlers.kafka w0)) = true →
  RedisService.last_update (ScoreHandlers.redis w0) = None →
  RedisService.leaderboard_cache (ScoreHandlers.redis w0) = None →
  let w1 := (ScoreHandlers.submitScore validate body now1 now2 now3 w0).2 in
  let top :=
    RedisService.getTopPlayers 10
      (RedisService.addScore (sub_player_id sub) (sub_score sub)
         (ScoreHandlers.redis w0)) in
  ∃ event w2 update,
    last (KafkaTopics.leaderboard_changes (ScoreHandlers.kafka w1)) = Some event
    ∧ processLeaderboardChange throttle (KafkaTopics.change_message event) now4
        {| redis := ScoreHandlers.redis w1;
           kafka := KafkaTopics.service (ScoreHandlers.kafka w1);
           db := d |}
      = (w2, Published update)
    ∧ plain <$> leaderboard update = top
    ∧ m_checksum update = generateChecksum top
    ∧ m_timestamp update = (if now3 =? 0 then now4 else now3)
    ∧ leaderboard_updates (kafka w2)
      = leaderboard_updates (KafkaTopics.service (ScoreHandlers.kafka w0)) ++ [update]
    ∧ RedisService.getPlayerScore (sub_player_id sub) (redis w2)
      = Some (sub_score sub).
Proof.
  intros Hv Hp Hl Hc w1 top. subst w1.
  unfold ScoreHandlers.submitScore. rewrite Hv.
  unfold KafkaTopics.publishScoreSubmission. rewrite Hp.
  unfold KafkaTopics.publishLeaderboardChange. cbn [KafkaTopics.service]. rewrite Hp.
  cbn [snd ScoreHandlers.kafka ScoreHandlers.redis KafkaTopics.leaderboard_changes
       KafkaTopics.service].
  eexists. rewrite last_snoc.
  unfold processLeaderboardChange. cbv zeta.
  cbn [redis kafka db KafkaTopics.change_message KafkaTopics.sent_at].
  unfold RedisService.getLastUpdateTimestamp, RedisService.getCachedLeaderboard.
  cbn [RedisService.addScore RedisService.last_update RedisService.leaderboard_cache].
  rewrite Hl, Hc. fold top.
  match goal with
  | |- context [enhanceLeaderboardWithUserDetails d top ?R] =>
      pose proof (enhance_keeps_board d top R) as Hboard;
      unfold enhanceLeaderboardWithUserDetails in *;
      destruct (enhance_fold d top [] R) as (es & r & Hfold & Hplain & _);
      rewrite Hfold in *; clear Hfold
  end.
  unfold publishLeaderboardUpdate. rewrite Hp.
  eexists _, _. split; [reflexivity|]. split; [reflexivity|].
  cbn [leaderboard m_timestamp m_checksum kafka redis leaderboard_updates app snd]
    in *.
  split_and!; try done.
  unfold RedisService.getPlayerScore.
  cbn [RedisService.leaderboard RedisService.setLastUpdateTimestamp
       RedisService.cacheLeaderboard].
  rewrite Hboard. apply zscore_zadd_same.
Qed.

Lemma submitted_score_is_published_witness :
  let sub := {| sub_player_id := "alice"; sub_score := 1000;
                sub_timestamp := "2025-11-08T12:00:00.000Z" |} in
  let w0 :=
    {| ScoreHandlers.redis := RedisService.empty;
       ScoreHandlers.kafka :=
         {| KafkaTopics.service := {| producer := true; leaderboard_updates := [] |};
            KafkaTopics.score_submissions := [];
            KafkaTopics.leaderboard_changes := [] |} |} in
  let d :=
    {| DatabaseService.faults := []; DatabaseService.fs_writable := true;
       DatabaseService.user_table := DatabaseService.mock_user_table;
       DatabaseService.clock := "2025-11-08T12:00:00.000Z";
       DatabaseService.saved := []; DatabaseService.dead_letter_queue := None |} in
  let w1 := (ScoreHandlers.submitScore (fun b : ScoreSubmission => inr b) sub 1 2 3 w0).2 in
  ∃ event w2 update,
    last (KafkaTopics.leaderboard_changes (ScoreHandlers.kafka w1)) = Some event
    ∧ processLeaderboardChange 500 (KafkaTopics.change_message event) 4
        {| redis := ScoreHandlers.redis w1;
           kafka := KafkaTopics.service (ScoreHandlers.kafka w1);
           db := d |}
      = (w2, Published update)
    ∧ plain <$> leaderboard update
      = [ {| player_id := "alice"; rank := 1; score := 1000 |} ]
    ∧ m_timestamp update = 3.
Proof.
  intros sub w0 d w1.
  destruct (submitted_score_is_published (fun b : ScoreSubmission => inr b) sub sub
              1 2 3 4 500 w0 d eq_refl eq_refl eq_refl eq_refl)
    as (event & w2 & update & H1 & H2 & H3 & _ & H5 & _).
  by exists event, w2, update.
Defined.

End Pipeline.
